(** * HabiBot: the session client of habibots (src/habibot.js)

    A shallow embedding of the HabiBot class: the deframer of
    [processData], the name/object mirror ([addNames], [clearNames],
    [scanForRefs]), the accessors, the substitution engine
    ([substituteName], [substituteState]), [connect] and
    [onDisconnect], the registration of reactions ([on]), the dispatch
    queue behind [sendWithDelay] with the methods that send a command
    ([say], [walkTo], [discorporate], [gotoContext]) and the retry loop of
    [ensureCorporated].

    JavaScript values are a tagged union; numbers are the integers, which
    print in decimal digits below 10^21 in magnitude ([decimal]); strings
    are sequences of 8-bit code units.  Plain objects used as tables
    ([names], [history], [noids], [avatars], [callbacks]) are finite maps
    keyed by strings, which hold the own properties of the object.  The
    members that a plain object inherits from [Object.prototype] are known
    by their names ([inherited]): the assignment of a ref to [__proto__]
    in [names] and a registration under an inherited name do what the code
    does, and a statement about a read by a computed key says that the
    table owns the key or that the key names no inherited member
    ([own_read]).  [get_prop] answers for the properties a value owns and
    for [length]; a statement about paths that the caller chooses says
    that no segment names a built-in member ([builtin], [tame]).  A thrown
    exception is the [Throw] result, and a function that mutates [this] is
    a state transformer on [Bot] that keeps the mutations made before a
    throw. *)

From Stdlib Require Import ZArith Ascii String List Lia.
From stdpp Require Import base option list strings gmap pretty.

Set Warnings "-register-all".
Open Scope string_scope.
Open Scope Z_scope.

(** ** Characters and strings *)

Module JS.

Definition LF : ascii := "010"%char.
Definition LBRACE : ascii := "{"%char.

(** [s.split(sep)] for a one-character separator: never empty, and
    [split sep ""] is [[""]]. *)
Fixpoint split (sep : ascii) (s : string) : list string :=
  match s with
  | EmptyString => [EmptyString]
  | String c rest =>
      if Ascii.eqb c sep then EmptyString :: split sep rest
      else match split sep rest with
           | [] => [String c EmptyString]
           | w :: ws => String c w :: ws
           end
  end.

(** [s.indexOf(c) !== -1] *)
Fixpoint contains (c : ascii) (s : string) : bool :=
  match s with
  | EmptyString => false
  | String d rest => Ascii.eqb d c || contains c rest
  end.

(** ** Values *)

Inductive value : Type :=
  | VUndef
  | VNull
  | VBool (b : bool)
  | VNum (n : Z)
  | VStr (s : string)
  | VArr (elems : list value)
  | VObj (fields : list (string * value)).

(** The outcome of an expression that can throw. *)
Inductive result (A : Type) : Type :=
  | Ok (a : A)
  | Throw (e : string).
Arguments Ok {A} a.
Arguments Throw {A} e.

Definition TypeError : string := "TypeError".

Definition rbind {A B} (r : result A) (k : A -> result B) : result B :=
  match r with
  | Ok a => k a
  | Throw e => Throw e
  end.

Definition is_undefined (v : value) : bool :=
  match v with VUndef => true | _ => false end.

(** [v == null] *)
Definition is_nullish (v : value) : bool :=
  match v with VUndef | VNull => true | _ => false end.

(** ToBoolean *)
Definition truthy (v : value) : bool :=
  match v with
  | VUndef | VNull => false
  | VBool b => b
  | VNum n => negb (n =? 0)
  | VStr s => negb (String.eqb s "")
  | VArr _ | VObj _ => true
  end.

(** ToString; an array is its elements joined by commas, [null] and
    [undefined] elements giving the empty string. *)
Fixpoint to_string (v : value) : string :=
  match v with
  | VUndef => "undefined"
  | VNull => "null"
  | VBool true => "true"
  | VBool false => "false"
  | VNum n => pretty n
  | VStr s => s
  | VArr elems =>
      (fix commas (l : list value) : string :=
         match l with
         | [] => ""
         | x :: l' =>
             let sx := match x with
                       | VUndef | VNull => ""
                       | _ => to_string x
                       end in
             match l' with
             | [] => sx
             | _ => sx ++ "," ++ commas l'
             end
         end) elems
  | VObj _ => "[object Object]"
  end.

(** One element of [Array.prototype.join]. *)
Definition join_elem (v : value) : string :=
  match v with
  | VUndef | VNull => ""
  | _ => to_string v
  end.

(** [chunks.join("")] *)
Definition join_empty (chunks : list value) : string :=
  fold_right (fun v acc => join_elem v ++ acc) "" chunks.

(** The array index a property key denotes among [n] elements, if any:
    the key is the canonical numeral of an index below [n]. *)
Definition index_of_key (k : string) (n : nat) : option nat :=
  List.find (fun i => String.eqb (pretty i) k) (seq 0 n).

Fixpoint assoc (k : string) (fields : list (string * value)) : option value :=
  match fields with
  | [] => None
  | (k', v) :: rest => if String.eqb k' k then Some v else assoc k rest
  end.

(** [v[k]]: reading a property of [undefined] or [null] throws; a missing
    property is [undefined]. *)
Definition get_prop (v : value) (k : string) : result value :=
  match v with
  | VUndef | VNull => Throw TypeError
  | VBool _ | VNum _ => Ok VUndef
  | VStr s =>
      if String.eqb k "length" then Ok (VNum (Z.of_nat (String.length s)))
      else match index_of_key k (String.length s) with
           | Some i => match String.get i s with
                       | Some c => Ok (VStr (String c EmptyString))
                       | None => Ok VUndef
                       end
           | None => Ok VUndef
           end
  | VArr elems =>
      if String.eqb k "length" then Ok (VNum (Z.of_nat (length elems)))
      else match index_of_key k (length elems) with
           | Some i => Ok (nth i elems VUndef)
           | None => Ok VUndef
           end
  | VObj fields =>
      match assoc k fields with
      | Some x => Ok x
      | None => Ok VUndef
      end
  end.

(** [k in v]: throws unless [v] is an object. *)
Definition has_prop (k : string) (v : value) : result bool :=
  match v with
  | VObj fields => Ok (bool_decide (is_Some (assoc k fields)))
  | VArr elems =>
      Ok (String.eqb k "length" || bool_decide (is_Some (index_of_key k (length elems))))
  | _ => Throw TypeError
  end.

(** [fields[k] = x] on an object's own properties: an existing property
    keeps its place, a new one is added last. *)
Fixpoint set_field (k : string) (x : value) (fields : list (string * value))
  : list (string * value) :=
  match fields with
  | [] => [(k, x)]
  | (k', v) :: rest =>
      if String.eqb k' k then (k', x) :: rest else (k', v) :: set_field k x rest
  end.

(** [v === "lit"] *)
Definition strict_eq_str (v : value) (lit : string) : bool :=
  match v with
  | VStr s => String.eqb s lit
  | _ => false
  end.

(** [v == "lit"] for a literal that is not a numeral: a string is compared
    as such, an array or object through its ToString, anything else is
    unequal. *)
Definition loose_eq_str (v : value) (lit : string) : bool :=
  match v with
  | VStr s => String.eqb s lit
  | VArr _ | VObj _ => String.eqb (to_string v) lit
  | _ => false
  end.

(** ToNumber on the integers of the model; [None] is NaN.  It is applied
    to a [length] only, which is a number on every array and string. *)
Definition to_number (v : value) : option Z :=
  match v with
  | VNum n => Some n
  | VBool true => Some 1
  | VBool false => Some 0
  | VNull => Some 0
  | _ => None
  end.

(** [v > 0] *)
Definition gt_zero (v : value) : bool :=
  match to_number v with
  | Some n => 0 <? n
  | None => false
  end.

(** The names of the members of [Object.prototype]: a plain object has
    them without owning them. *)
Definition prototype_keys : list string :=
  ["constructor"; "__defineGetter__"; "__defineSetter__"; "hasOwnProperty";
   "__lookupGetter__"; "__lookupSetter__"; "isPrototypeOf"; "propertyIsEnumerable";
   "toString"; "valueOf"; "__proto__"; "toLocaleString"].

Definition inherited (k : string) : bool := bool_decide (k ∈ prototype_keys).

(** ToString gives the decimal digits of a number below 10^21 in
    magnitude; from there on it changes to the exponent form, which
    [to_string] does not follow.  [decimal v] says that no number that
    [to_string v] prints is that large. *)
Fixpoint decimal (v : value) : bool :=
  match v with
  | VNum n => Z.abs n <? 10 ^ 21
  | VArr elems =>
      (fix all (l : list value) : bool :=
         match l with
         | [] => true
         | x :: l' => decimal x && all l'
         end) elems
  | _ => true
  end.

(** The names of the members that arrays, strings, numbers and booleans
    inherit from their own prototypes; [length], which [get_prop]
    answers, is not among them. *)
Definition member_keys : list string :=
  ["at"; "concat"; "copyWithin"; "entries"; "every"; "fill"; "filter"; "find";
   "findIndex"; "findLast"; "findLastIndex"; "flat"; "flatMap"; "forEach";
   "includes"; "indexOf"; "join"; "keys"; "lastIndexOf"; "map"; "pop"; "push";
   "reduce"; "reduceRight"; "reverse"; "shift"; "slice"; "some"; "sort";
   "splice"; "toReversed"; "toSorted"; "toSpliced"; "unshift"; "values"; "with";
   "anchor"; "big"; "blink"; "bold"; "charAt"; "charCodeAt"; "codePointAt";
   "endsWith"; "fixed"; "fontcolor"; "fontsize"; "isWellFormed"; "italics";
   "link"; "localeCompare"; "match"; "matchAll"; "normalize"; "padEnd";
   "padStart"; "repeat"; "replace"; "replaceAll"; "search"; "small"; "split";
   "startsWith"; "strike"; "sub"; "substr"; "substring"; "sup";
   "toLocaleLowerCase"; "toLocaleUpperCase"; "toLowerCase"; "toUpperCase";
   "toWellFormed"; "trim"; "trimEnd"; "trimLeft"; "trimRight"; "trimStart";
   "toExponential"; "toFixed"; "toPrecision"; "group"; "groupToMap"].

(** [k] names a member that some value has without owning it. *)
Definition builtin (k : string) : bool :=
  inherited k || bool_decide (k ∈ member_keys).

(** No number anywhere in [v] is as large as 10^21 in magnitude. *)
Fixpoint decimal_all (v : value) : bool :=
  match v with
  | VNum n => Z.abs n <? 10 ^ 21
  | VArr elems =>
      (fix all (l : list value) : bool :=
         match l with
         | [] => true
         | x :: l' => decimal_all x && all l'
         end) elems
  | VObj fields =>
      (fix all (l : list (string * value)) : bool :=
         match l with
         | [] => true
         | (_, x) :: l' => decimal_all x && all l'
         end) fields
  | _ => true
  end.

End JS.
Export JS.

Notation "'try!' x := r 'in' k" := (rbind r (fun x => k))
  (at level 10, x name, r at level 100, k at level 200).

(** ** The client object *)

(** What the client does to its surroundings, in order: the reactions it
    invokes, the diagnostics it logs at error level and the sockets it
    opens.  A reaction is known by the handle it was registered under;
    what the reaction itself does is outside the model. *)
Inductive event : Type :=
  | EvCall (key : string) (cb : nat) (msg : value)
  | EvLifecycle (key : string) (cb : nat)
  | EvLogError (fmt : string) (args : list value)
  | EvNetConnect (port_ host_ : value) (sock : nat).

Record Bot : Type := mkBot {
  host : value;
  port : value;
  username : value;
  server : option nat;
  connected : bool;
  shouldReconnect : bool;
  callbacks : gmap string (list nat);
  names : gmap string string;
  history : gmap string value;
  noids : gmap string value;
  avatars : gmap string value;
  trace : list event
}.

Definition set_server (x : option nat) (b : Bot) : Bot :=
  mkBot (host b) (port b) (username b) x (connected b) (shouldReconnect b)
        (callbacks b) (names b) (history b) (noids b) (avatars b) (trace b).
Definition set_connected (x : bool) (b : Bot) : Bot :=
  mkBot (host b) (port b) (username b) (server b) x (shouldReconnect b)
        (callbacks b) (names b) (history b) (noids b) (avatars b) (trace b).
Definition set_callbacks (x : gmap string (list nat)) (b : Bot) : Bot :=
  mkBot (host b) (port b) (username b) (server b) (connected b) (shouldReconnect b)
        x (names b) (history b) (noids b) (avatars b) (trace b).
Definition set_names (x : gmap string string) (b : Bot) : Bot :=
  mkBot (host b) (port b) (username b) (server b) (connected b) (shouldReconnect b)
        (callbacks b) x (history b) (noids b) (avatars b) (trace b).
Definition set_history (x : gmap string value) (b : Bot) : Bot :=
  mkBot (host b) (port b) (username b) (server b) (connected b) (shouldReconnect b)
        (callbacks b) (names b) x (noids b) (avatars b) (trace b).
Definition set_noids (x : gmap string value) (b : Bot) : Bot :=
  mkBot (host b) (port b) (username b) (server b) (connected b) (shouldReconnect b)
        (callbacks b) (names b) (history b) x (avatars b) (trace b).
Definition set_avatars (x : gmap string value) (b : Bot) : Bot :=
  mkBot (host b) (port b) (username b) (server b) (connected b) (shouldReconnect b)
        (callbacks b) (names b) (history b) (noids b) x (trace b).
Definition emit (e : event) (b : Bot) : Bot :=
  mkBot (host b) (port b) (username b) (server b) (connected b) (shouldReconnect b)
        (callbacks b) (names b) (history b) (noids b) (avatars b) (trace b ++ [e]).

(** A method of the client: it runs on the current object and leaves the
    object as it is when the method returns or throws. *)
Definition M (A : Type) : Type := Bot -> result A * Bot.

Definition ret {A} (a : A) : M A := fun b => (Ok a, b).
Definition throw {A} (e : string) : M A := fun b => (Throw e, b).
Definition lift {A} (r : result A) : M A := fun b => (r, b).
Definition gets {A} (f : Bot -> A) : M A := fun b => (Ok (f b), b).
Definition modify (f : Bot -> Bot) : M unit := fun b => (Ok tt, f b).
Definition bind {A B} (m : M A) (k : A -> M B) : M B :=
  fun b => match m b with
           | (Ok a, b') => k a b'
           | (Throw e, b') => (Throw e, b')
           end.
Definition when (c : bool) (m : M unit) : M unit := if c then m else ret tt.

Notation "'run!' x := m 'in' k" := (bind m (fun x => k))
  (at level 10, x name, m at level 100, k at level 200).
Notation "m ;;; k" := (bind m (fun _ => k))
  (at level 100, k at level 200, right associativity).

(** [clearState] *)
Definition clearState (b : Bot) : Bot :=
  set_avatars ∅ (set_noids ∅ (set_history ∅ (set_names ∅ b))).

(** [new HabiBot(host, port, username)] *)
Definition constructor (host port username : value) : Bot :=
  clearState
    (mkBot host port username None false true
       (<["connected" := []]> (<["delete" := []]> (<["disconnected" := []]>
         (<["enteredRegion" := []]> (<["msg" := []]> ∅)))))
       ∅ ∅ ∅ ∅ []).

(** [on(eventType, callback)].  The test [eventType in this.callbacks]
    also holds for a name that the table inherits; what is found under
    such a name has no [push], and the call throws. *)
Definition on (eventType : string) (callback : nat) : M unit :=
  run! cbs := gets callbacks in
  match cbs !! eventType with
  | Some l =>
      modify (fun b => set_callbacks (<[eventType := (l ++ [callback])%list]> (callbacks b)) b)
  | None =>
      if inherited eventType then throw TypeError
      else modify (fun b => set_callbacks (<[eventType := [callback]]> (callbacks b)) b)
  end.

(** *** Aliases *)

(** [names[k] = s] for a string [s].  On a table that does not own it,
    [__proto__] is the accessor of [Object.prototype], whose setter drops
    a string: the assignment makes no entry.  Any other key becomes, or
    stays, an own property. *)
Definition assign_name (s : string) (nm : gmap string string) (k : string)
  : gmap string string :=
  if String.eqb k "__proto__" && bool_decide (nm !! k = None) then nm
  else <[k := s]> nm.

(** The body of the outer [forEach] of [addNames]. *)
Definition addNames_dash (s : string) (nm : gmap string string) (dash : string)
  : gmap string string :=
  fold_left (assign_name s) (split "." dash) (assign_name s nm dash).

Definition addNames_str (s : string) (nm : gmap string string) : gmap string string :=
  fold_left (addNames_dash s) (split "-" s) nm.

(** [addNames(s)]; [s.split] exists on strings only. *)
Definition addNames (s : value) : M unit :=
  match s with
  | VStr r => modify (fun b => set_names (addNames_str r (names b)) b)
  | _ => throw TypeError
  end.

Definition clearNames_dash (nm : gmap string string) (dash : string)
  : gmap string string :=
  fold_left (fun nm dot => delete dot nm) (split "." dash) (delete dash nm).

Definition clearNames_str (s : string) (nm : gmap string string) : gmap string string :=
  fold_left clearNames_dash (split "-" s) nm.

(** [clearNames(s)] *)
Definition clearNames (s : value) : M unit :=
  match s with
  | VStr r => modify (fun b => set_names (clearNames_str r (names b)) b)
  | _ => throw TypeError
  end.

(** The assignment to a key makes no entry: the key is [__proto__] and
    the table does not own it. *)
Definition dropped (nm : gmap string string) (k : string) : Prop :=
  k = "__proto__" /\ nm !! k = None.

#[global] Instance dropped_dec nm k : Decision (dropped nm k).
Proof. unfold dropped. apply _. Defined.

(** A read [tbl[k]], or a test [k in tbl], that the own properties of the
    table decide: the table owns [k], or [k] names no member of
    [Object.prototype]. *)
Definition own_read {A} (tbl : gmap string A) (k : string) : Prop :=
  is_Some (tbl !! k) \/ inherited k = false.

(** [this.names[s] || s], for a key that the own properties decide
    ([own_read]). *)
Definition substituteName (b : Bot) (s : value) : value :=
  match names b !! to_string s with
  | Some r => if truthy (VStr r) then VStr r else s
  | None => s
  end.

(** *** Accessors *)

(** [getAvatar()]; the read of [history] is by a ref that the own
    properties decide ([own_read]). *)
Definition getAvatar : M value :=
  run! nm := gets names in
  match nm !! "ME" with
  | Some me =>
      run! h := gets history in
      lift (get_prop (default VUndef (h !! me)) "obj")
  | None => ret VNull
  end.

(** [isGhosted()]; the caller tests the result for truthiness. *)
Definition isGhosted : M value :=
  run! avatar := getAvatar in
  if negb (is_nullish avatar) then
    lift (try! mods := get_prop avatar "mods" in
          try! mod0 := get_prop mods "0" in
          get_prop mod0 "amAGhost")
  else ret (VBool false).

(** [getNoid(noid)], for an id that the own properties of [noids] decide
    ([own_read]), as every number is. *)
Definition getNoid (noid : value) : M value :=
  run! tbl := gets noids in
  match tbl !! to_string noid with
  | Some obj => ret obj
  | None =>
      modify (emit (EvLogError "Could not find noid: %s" [noid])) ;;;
      ret VNull
  end.

(** [getMod(noid)] *)
Definition getMod (noid : value) : M value :=
  run! obj := getNoid noid in
  lift (try! mods := get_prop obj "mods" in get_prop mods "0").

(** *** The connection *)

(** The handle of the next socket: the number of sockets opened so far. *)
Definition next_socket (b : Bot) : nat :=
  length (List.filter (fun e => match e with EvNetConnect _ _ _ => true | _ => false end)
                      (trace b)).

(** Invoking every reaction of a lifecycle event with the client alone. *)
Definition run_lifecycle (key : string) (b : Bot) : Bot :=
  fold_left (fun b cb => emit (EvLifecycle key cb) b)
            (default [] (callbacks b !! key)) b.

(** [connect()].  The arguments of [log.error] are evaluated before the
    call: the last one is the property chain [this.host.this.port]. *)
Definition connect : M unit :=
  run! h := gets host in
  run! p := gets port in
  if is_undefined h || is_undefined p then
    run! arg := lift (try! t := get_prop h "this" in get_prop t "port") in
    modify (emit (EvLogError "No host or port specified: %s:%d" [arg]))
  else
    run! c := gets connected in
    if negb c then
      modify clearState ;;;
      run! sock := gets next_socket in
      modify (fun b => set_server (Some sock) (emit (EvNetConnect p h sock) b))
    else ret tt.

(** The callback given to [net.connect], run when the socket is open. *)
Definition onConnect (b : Bot) : Bot :=
  run_lifecycle "connected" (set_connected true b).

(** [onDisconnect()] *)
Definition onDisconnect : M unit :=
  modify (set_connected false) ;;;
  modify (run_lifecycle "disconnected") ;;;
  run! r := gets shouldReconnect in
  if r then connect else ret tt.

(** *** The deframer *)

Record scanner : Type := mkScanner {
  framed : bool;
  firstEOL : bool;
  JSONFrame : string
}.

Definition unframed : scanner := mkScanner false false "".

(** One turn of the loop of [processData] on the character [c]: the new
    scanner variables and, when the turn calls [processElkoPacket], the
    frame it passes. *)
Definition scan_char (c : ascii) (st : scanner) : scanner * option string :=
  if framed st then
    let frame := JSONFrame st ++ String c EmptyString in
    if Ascii.eqb LF c then
      if negb (firstEOL st) then (mkScanner true true frame, None)
      else (unframed, Some frame)
    else (mkScanner true (firstEOL st) frame, None)
  else
    if Ascii.eqb LBRACE c then (mkScanner true false "{", None)
    else (st, None).

(** The frames one call of [processData] hands on, in order: those
    completed inside the chunk and, last, the buffer left open at its end. *)
Fixpoint scan (blob : string) (st : scanner) : list string :=
  match blob with
  | EmptyString => if framed st then [JSONFrame st] else []
  | String c rest =>
      match scan_char c st with
      | (st', Some frame) => frame :: scan rest st'
      | (st', None) => scan rest st'
      end
  end.

Definition deframe (blob : string) : list string := scan blob unframed.

(** The frames emitted when a stream arrives as the given chunks, one
    [data] event each. *)
Definition deframe_chunks (chunks : list string) : list string :=
  concat (map deframe chunks).

(** A complete frame: a brace, a body and the blank line that ends it. *)
Definition terminator : string := String LF (String LF EmptyString).
Definition frame_of (body : string) : string := "{" ++ body ++ terminator.
Definition is_frame (f : string) : Prop := exists body, f = frame_of body.

Fixpoint concat_str (l : list string) : string :=
  match l with
  | [] => ""
  | s :: l' => s ++ concat_str l'
  end.

Fixpoint singletons (s : string) : list string :=
  match s with
  | EmptyString => []
  | String c rest => String c EmptyString :: singletons rest
  end.

(** *** The mirror *)

Section Mirror.

(** [util.parseElko], of a module that is not part of the sources at hand:
    it turns the text of a frame into a message. *)
Variable parseElko : string -> value.

(** Invoking every reaction registered under [key] with the client and
    the message, in registration order. *)
Definition run_callbacks (key : string) (msg : value) (b : Bot) : Bot :=
  fold_left (fun b cb => emit (EvCall key cb msg) b)
            (default [] (callbacks b !! key)) b.

Definition set_obj_field (o : value) (k : string) (x : value) : value :=
  match o with
  | VObj fields => VObj (set_field k x fields)
  | _ => o
  end.

(** [o.obj.mods[0].type] *)
Definition first_mod_type (o : value) : result value :=
  try! obj := get_prop o "obj" in
  try! mods := get_prop obj "mods" in
  try! mod0 := get_prop mods "0" in
  get_prop mod0 "type".

(** The body of [if (o.op === 'make' || o.op == 'HEREIS_$')]. *)
Definition introduce (o : value) : M unit :=
  run! obj := lift (get_prop o "obj") in
  run! ref := lift (get_prop obj "ref") in
  addNames ref ;;;
  modify (fun b => set_history (<[to_string ref := o]> (history b)) b) ;;;
  run! has_mods := lift (has_prop "mods" obj) in
  run! populated :=
    (if has_mods then
       lift (try! mods := get_prop obj "mods" in
             try! len := get_prop mods "length" in
             Ok (gt_zero len))
     else ret false) in
  when populated
    (run! noid := lift (try! mods := get_prop obj "mods" in
                        try! mod0 := get_prop mods "0" in
                        get_prop mod0 "noid") in
     modify (fun b => set_noids (<[to_string noid := obj]> (noids b)) b)) ;;;
  run! you := lift (get_prop o "you") in
  when (truthy you)
    (let parts := split "-" (to_string ref) in
     modify (fun b => set_names (<["ME" := to_string ref]> (names b)) b) ;;;
     modify (fun b => set_names
                        (<["USER" := nth 0 parts "undefined"
                                     ++ "-" ++ nth 1 parts "undefined"]>
                           (names b)) b) ;;;
     run! cbs := gets callbacks in
     match cbs !! "enteredRegion" with
     | Some _ => modify (run_callbacks "enteredRegion" o)
     | None => throw TypeError
     end) ;;;
  run! ty := lift (first_mod_type o) in
  when (strict_eq_str ty "Ghost")
    (modify (fun b => set_names (<["GHOST" := to_string ref]> (names b)) b)) ;;;
  run! ty' := lift (first_mod_type o) in
  when (strict_eq_str ty' "Avatar")
    (run! name := lift (get_prop obj "name") in
     modify (fun b => set_avatars (<[to_string name := obj]> (avatars b)) b)).


(** [scanForRefs(s)] *)
Definition scanForRefs (s : string) : M value :=
  let o := parseElko s in
  run! to := lift (get_prop o "to") in
  when (truthy to) (addNames to) ;;;
  run! op := lift (get_prop o "op") in
  if negb (truthy op) then ret VUndef
  else
    run! o1 :=
      (if strict_eq_str op "HEREIS_$" then
         run! object := lift (get_prop o "object") in
         ret (set_obj_field o "obj" object)
       else ret o) in
    when (strict_eq_str op "make" || loose_eq_str op "HEREIS_$") (introduce o1) ;;;
    ret o1.

(** [processElkoPacket(s)] *)
Definition processElkoPacket (s : string) : M value := scanForRefs s.

(** The [for] loop of [processData]: [o] is the result of the last call of
    [processElkoPacket] so far. *)
Fixpoint processData_loop (blob : string) (st : scanner) (o : value)
  : M (scanner * value) :=
  match blob with
  | EmptyString => ret (st, o)
  | String c rest =>
      match scan_char c st with
      | (st', Some frame) =>
          run! o' := processElkoPacket frame in
          processData_loop rest st' o'
      | (st', None) => processData_loop rest st' o
      end
  end.

(** The removal of a deleted object, at the end of [processData]; the
    read of [history] is by a ref that the own properties decide
    ([own_read]). *)
Definition forget (o : value) : M unit :=
  run! to := lift (get_prop o "to") in
  run! h := gets history in
  let obj := default VUndef (h !! to_string to) in
  clearNames to ;;;
  run! has_obj := lift (has_prop "obj" obj) in
  run! is_avatar :=
    (if has_obj then
       run! ty := lift (first_mod_type obj) in ret (strict_eq_str ty "Avatar")
     else ret false) in
  when is_avatar
    (run! name := lift (try! inner := get_prop obj "obj" in get_prop inner "name") in
     modify (fun b => set_avatars (delete (to_string name) (avatars b)) b)) ;;;
  modify (fun b => set_history (delete (to_string to) (history b)) b).

(** What [processData] does once the loop is over, with the last message
    [o]. *)
Definition dispatch (o : value) : M unit :=
  if negb (is_nullish o) then
    run! op := lift (get_prop o "op") in
    run! cbs := gets callbacks in
    when (bool_decide (is_Some (cbs !! to_string op)))
      (modify (run_callbacks (to_string op) o)) ;;;
    modify (run_callbacks "msg" o) ;;;
    when (strict_eq_str op "delete") (forget o)
  else ret tt.

(** [processData(buf)], on the text of the buffer. *)
Definition processData (blob : string) : M unit :=
  run! r := processData_loop blob unframed VNull in
  run! o := (if framed (fst r) then processElkoPacket (JSONFrame (fst r))
             else ret (snd r)) in
  dispatch o.

(** The messages handed to the mirror one after the other, the last result
    kept. *)
Fixpoint process_frames (frames : list string) (o : value) : M value :=
  match frames with
  | [] => ret o
  | f :: rest => run! o' := processElkoPacket f in process_frames rest o'
  end.

End Mirror.

(** *** The substitution engine *)

(** The variables [obj] and [mod] of [substituteState]: declared with
    [var], they belong to the whole call and keep their values from one
    chunk, and one field, to the next. *)
Record subst_vars : Type := mkVars { var_obj : value; var_mod : value }.

Definition strict_eq_num (v : value) (n : Z) : bool :=
  match v with
  | VNum k => k =? n
  | _ => false
  end.

(** [undefined !== x && undefined !== x[varseg]] *)
Definition defined_in (x : value) (varseg : string) : result bool :=
  if negb (is_undefined x) then
    try! y := get_prop x varseg in Ok (negb (is_undefined y))
  else Ok false.

(** The [else] branch of the loop over [keys]: a later segment of a path. *)
Definition resolve_segment (varseg : string) (value_ : value) (vars : subst_vars)
  : result value :=
  try! in_mod := defined_in (var_mod vars) varseg in
  if in_mod then get_prop (var_mod vars) varseg
  else
    try! in_obj := defined_in (var_obj vars) varseg in
    if in_obj then get_prop (var_obj vars) varseg
    else get_prop value_ varseg.

Fixpoint resolve_segments (keys : list string) (value_ : value) (vars : subst_vars)
  : result value :=
  match keys with
  | [] => Ok value_
  | varseg :: rest =>
      try! v := resolve_segment varseg value_ vars in
      resolve_segments rest v vars
  end.

(** The [if (first)] branch once the object is found: [obj] and [mod] are
    set from the record. *)
Definition bind_record (value_ : value) (vars : subst_vars) : result subst_vars :=
  try! vobj := get_prop value_ "obj" in
  if negb (is_undefined vobj) then
    try! mods := get_prop vobj "mods" in
    try! len := get_prop mods "length" in
    if negb (is_undefined mods) && strict_eq_num len 1 then
      try! mod0 := get_prop mods "0" in Ok (mkVars vobj mod0)
    else Ok (mkVars vobj (var_mod vars))
  else Ok vars.

(** The value that replaces [chunks[i]]; the reads of [names] and
    [history] are by keys that the own properties decide ([own_read]). *)
Definition resolve_chunk (b : Bot) (chunk : string) (vars : subst_vars)
  : result (value * subst_vars) :=
  match split "." chunk with
  | [] => Ok (VStr chunk, vars)
  | varseg :: rest =>
      match history b !! to_string (substituteName b (VStr varseg)) with
      | None =>
          let alias := match names b !! varseg with
                       | Some r => if truthy (VStr r) then VStr r else VStr chunk
                       | None => VStr chunk
                       end in
          Ok (alias, vars)
      | Some record =>
          try! vars' := bind_record record vars in
          try! v := resolve_segments rest record vars' in
          Ok (v, vars')
      end
  end.

Fixpoint resolve_chunks (b : Bot) (chunks : list string) (vars : subst_vars)
  : result (list value * subst_vars) :=
  match chunks with
  | [] => Ok ([], vars)
  | chunk :: rest =>
      try! r := resolve_chunk b chunk vars in
      try! rs := resolve_chunks b rest (snd r) in
      Ok (fst r :: fst rs, snd rs)
  end.

(** The new value of a string field that contains a dollar sign. *)
Definition substitute_prop (b : Bot) (prop : string) (vars : subst_vars)
  : result (value * subst_vars) :=
  match split "$" prop with
  | [] => Ok (VStr prop, vars)
  | chunk0 :: rest =>
      try! r := resolve_chunks b rest vars in
      match fst r with
      | [only] =>
          if String.eqb chunk0 "" then Ok (only, snd r)
          else Ok (VStr (join_empty (VStr chunk0 :: fst r)), snd r)
      | _ => Ok (VStr (join_empty (VStr chunk0 :: fst r)), snd r)
      end
  end.

(** The loop of [substituteState] over the properties of [m], which are
    listed in the order [for ... in] visits them.  The object comes back
    with the fields written before a throw.  The test
    [m.hasOwnProperty(name)] calls what [m] has under that name: the
    method of [Object.prototype], which says yes for a property of [m], or
    a field of [m] itself, which is no function, so that the call
    throws. *)
Fixpoint substituteState_loop (b : Bot) (keys : list string)
    (m : list (string * value)) (vars : subst_vars)
  : result unit * list (string * value) :=
  match keys with
  | [] => (Ok tt, m)
  | name :: rest =>
      match assoc "hasOwnProperty" m with
      | Some _ => (Throw TypeError, m)
      | None =>
          match assoc name m with
          | Some (VStr prop) =>
              if contains "$" prop then
                match substitute_prop b prop vars with
                | Ok (v, vars') => substituteState_loop b rest (set_field name v m) vars'
                | Throw e => (Throw e, m)
                end
              else substituteState_loop b rest m vars
          | _ => substituteState_loop b rest m vars
          end
      end
  end.

(** [substituteState(m)] *)
Definition substituteState (b : Bot) (m : list (string * value))
  : result unit * list (string * value) :=
  substituteState_loop b (map fst m) m (mkVars VUndef VUndef).

(** *** The corporation retry loop *)

(** What one call of [tryEnsureCorporated] leaves behind: a promise that is
    already resolved, the promise of [corporate()], a timer whose callback
    calls [ensureCorporated] with one argument, or a rejected promise. *)
Inductive attempt : Type :=
  | Already
  | Corporate
  | Retry (delay : Z) (arg : Z)
  | GiveUp (reason : string).

(** [tryEnsureCorporated(curTry)] *)
Definition tryEnsureCorporated (curTry : Z) : M attempt :=
  run! ghosted := isGhosted in
  if truthy ghosted then
    run! nm := gets names in
    if negb (bool_decide (is_Some (nm !! "GHOST"))) then
      if curTry <? 5 then ret (Retry 2000 (curTry + 1))
      else ret (GiveUp "Could not ensure corporation after 5 tries.")
    else ret Corporate
  else ret Already.

(** [ensureCorporated()]: the method has no parameter, so the arguments of
    a call are dropped. *)
Definition ensureCorporated (args : list Z) : M attempt :=
  tryEnsureCorporated 0.

(** The chain of polls that starts with the attempt [a] made at time [now]
    on a mirror that stays as it is: every timer fires when it is due, and
    at most [n] of them are followed.  The result lists the times of the
    polls and tells how the promise settled, if it did. *)
Fixpoint follow (n : nat) (b : Bot) (now : Z) (a : result attempt)
  : list Z * option (result attempt) :=
  match a with
  | Ok (Retry delay arg) =>
      match n with
      | O => ([], None)
      | S n' =>
          let r := follow n' b (now + delay) (fst (ensureCorporated [arg] b)) in
          ((now + delay) :: fst r, snd r)
      end
  | settled => ([], Some settled)
  end.

(** ** The dispatch queue *)

(** A unit of work of [sendWithDelay]: the command object it was given, by
    its address, and the delay. *)
Record unit_ : Type := mkUnit { uid : nat; target : nat; delayMillis : Z }.

(** A running unit waits for its timer, with the text it will write, or
    for the socket to call back after the write. *)
Inductive phase : Type :=
  | Waiting (due : Z) (msg : string)
  | Writing.

Inductive outcome : Type :=
  | Resolved
  | Rejected (reason : string).

(** One call of [server.write]. *)
Record write : Type := mkWrite {
  w_time : Z;
  w_unit : unit_;
  w_sock : nat;
  w_data : string;
  w_connected : bool
}.

(** The client with what surrounds it: the command objects of its callers,
    the clock, the action queue and what was written to the sockets. *)
Record Sim : Type := mkSim {
  bot : Bot;
  heap : gmap nat (list (string * value));
  now_ : Z;
  maxPendingPromises : nat;
  pendingPromises : list (unit_ * phase);
  queue : list unit_;
  next_uid : nat;
  writes : list write;
  settled : list (unit_ * outcome)
}.

Definition set_bot (x : Bot) (s : Sim) : Sim :=
  mkSim x (heap s) (now_ s) (maxPendingPromises s) (pendingPromises s) (queue s)
        (next_uid s) (writes s) (settled s).
Definition set_heap (x : gmap nat (list (string * value))) (s : Sim) : Sim :=
  mkSim (bot s) x (now_ s) (maxPendingPromises s) (pendingPromises s) (queue s)
        (next_uid s) (writes s) (settled s).
Definition set_now (x : Z) (s : Sim) : Sim :=
  mkSim (bot s) (heap s) x (maxPendingPromises s) (pendingPromises s) (queue s)
        (next_uid s) (writes s) (settled s).
Definition set_pending (x : list (unit_ * phase)) (s : Sim) : Sim :=
  mkSim (bot s) (heap s) (now_ s) (maxPendingPromises s) x (queue s)
        (next_uid s) (writes s) (settled s).
Definition set_queue (x : list unit_) (s : Sim) : Sim :=
  mkSim (bot s) (heap s) (now_ s) (maxPendingPromises s) (pendingPromises s) x
        (next_uid s) (writes s) (settled s).
Definition set_next_uid (x : nat) (s : Sim) : Sim :=
  mkSim (bot s) (heap s) (now_ s) (maxPendingPromises s) (pendingPromises s) (queue s)
        x (writes s) (settled s).
Definition add_write (w : write) (s : Sim) : Sim :=
  mkSim (bot s) (heap s) (now_ s) (maxPendingPromises s) (pendingPromises s) (queue s)
        (next_uid s) (writes s ++ [w]) (settled s).
Definition settle (u : unit_) (r : outcome) (s : Sim) : Sim :=
  mkSim (bot s) (heap s) (now_ s) (maxPendingPromises s) (pendingPromises s) (queue s)
        (next_uid s) (writes s) (settled s ++ [(u, r)]).

(** A client just constructed, with the command objects [h] of its caller:
    [new Queue(1, Infinity)]. *)
Definition boot (b : Bot) (h : gmap nat (list (string * value))) : Sim :=
  mkSim b h 0 1 [] [] 0 [] [].

(** How the executor of a unit ends: the timer is armed, or the promise is
    rejected. *)
Inductive started : Type :=
  | Armed (due : Z) (msg : string)
  | Failed (reason : string).

(** The first statements of the executor after the connection test: the
    [to] field is resolved, then the state substitution runs, both on the
    caller's object. *)
Definition prepare (b : Bot) (m : list (string * value))
  : result unit * list (string * value) :=
  let to := default VUndef (assoc "to" m) in
  let m1 := if truthy to then set_field "to" (substituteName b to) m else m in
  substituteState b m1.

Definition not_connected (b : Bot) : string :=
  "Not connected to " ++ to_string (host b) ++ ":" ++ to_string (port b).

Section Queue.

(** [JSON.stringify] *)
Variable JSON_stringify : value -> string.
Variable parseElko : string -> value.

(** The executor of the promise of [sendWithDelay], run when the unit is
    taken off the queue.  [setTimeout] is taken at its word: the callback
    runs no earlier than [delayMillis] after the call. *)
Definition execute (u : unit_) (s : Sim) : started * Sim :=
  if negb (connected (bot s)) then (Failed (not_connected (bot s)), s)
  else
    match heap s !! target u with
    | None => (Failed TypeError, s)
    | Some m =>
        match prepare (bot s) m with
        | (Ok _, m') =>
            (Armed (now_ s + delayMillis u) (JSON_stringify (VObj m')),
             set_heap (<[target u := m']> (heap s)) s)
        | (Throw e, m') =>
            (Failed e, set_heap (<[target u := m']> (heap s)) s)
        end
    end.

(** Modelled from the spec: the promise-queue package behind
    [actionQueue], which the repository does not contain.  Units start in
    the order they were added, and only while fewer than
    [maxPendingPromises] are running; a unit that fails at once makes room
    for the next one. *)
Fixpoint dequeue (q : list unit_) (s : Sim) : Sim :=
  match q with
  | [] => set_queue [] s
  | u :: q' =>
      if (length (pendingPromises s) <? maxPendingPromises s)%nat then
        match execute u s with
        | (Armed due msg, s') =>
            set_queue q' (set_pending (pendingPromises s' ++ [(u, Waiting due msg)]) s')
        | (Failed reason, s') => dequeue q' (settle u (Rejected reason) s')
        end
      else set_queue q s
  end.

(** [sendWithDelay(obj, delayMillis)], [obj] being the object at [target]. *)
Definition sendWithDelay (target : nat) (delayMillis : Z) (s : Sim) : Sim :=
  let u := mkUnit (next_uid s) target delayMillis in
  dequeue (queue s ++ [u]) (set_next_uid (S (next_uid s)) s).

(** [send(obj)] *)
Definition send (target : nat) (s : Sim) : Sim := sendWithDelay target 500 s.

Definition find_pending (id : nat) (s : Sim) : option (unit_ * phase) :=
  List.find (fun p => Nat.eqb (uid (fst p)) id) (pendingPromises s).

Definition drop_pending (id : nat) (s : Sim) : Sim :=
  set_pending (List.filter (fun p => negb (Nat.eqb (uid (fst p)) id)) (pendingPromises s)) s.

Definition set_phase (id : nat) (ph : phase) (s : Sim) : Sim :=
  set_pending (map (fun p => if Nat.eqb (uid (fst p)) id then (fst p, ph) else p)
                   (pendingPromises s)) s.

(** What happens to the client from outside. *)
Inductive input : Type :=
  | Tick (t : Z)
  | TimerFires (id : nat)
  | WriteDone (id : nat)
  | SocketOpen
  | SocketEnd
  | SocketData (blob : string)
  | CallSend (target : nat) (delay : Z).

(** One turn of the event loop; [None] when the input cannot happen in
    that state.  A timer fires no earlier than it is due; its callback
    writes to the current socket whatever the [connected] flag says. *)
Definition exec (i : input) (s : Sim) : option Sim :=
  match i with
  | Tick t => if now_ s <=? t then Some (set_now t s) else None
  | TimerFires id =>
      match find_pending id s, server (bot s) with
      | Some (u, Waiting due msg), Some sock =>
          if due <=? now_ s then
            Some (set_phase id Writing
                    (add_write (mkWrite (now_ s) u sock (msg ++ terminator)
                                        (connected (bot s))) s))
          else None
      | _, _ => None
      end
  | WriteDone id =>
      match find_pending id s with
      | Some (u, Writing) =>
          let s' := settle u Resolved (drop_pending id s) in
          Some (dequeue (queue s') s')
      | _ => None
      end
  | SocketOpen =>
      match server (bot s) with
      | Some _ => if connected (bot s) then None else Some (set_bot (onConnect (bot s)) s)
      | None => None
      end
  | SocketEnd => Some (set_bot (snd (onDisconnect (bot s))) s)
  | SocketData blob => Some (set_bot (snd (processData parseElko blob (bot s))) s)
  | CallSend target delay => Some (sendWithDelay target delay s)
  end.

Fixpoint run (ins : list input) (s : Sim) : option Sim :=
  match ins with
  | [] => Some s
  | i :: rest =>
      match exec i s with
      | Some s' => run rest s'
      | None => None
      end
  end.

End Queue.

(** ** Auxiliary notions for the statements *)

(** The scanner variables after the loop of [processData] has read [blob],
    and the frames completed on the way. *)
Fixpoint scan_state (blob : string) (st : scanner) : scanner :=
  match blob with
  | EmptyString => st
  | String c rest => scan_state rest (fst (scan_char c st))
  end.

Fixpoint completed (blob : string) (st : scanner) : list string :=
  match blob with
  | EmptyString => []
  | String c rest =>
      match scan_char c st with
      | (st', Some frame) => frame :: completed rest st'
      | (st', None) => completed rest st'
      end
  end.

(** The scanner variables are in the state the loop leaves them in when
    no frame is open. *)
Definition tidy (st : scanner) : Prop := framed st = false -> st = unframed.

(** A chunk at whose end no frame is open. *)
Definition closed_chunk (c : string) : Prop := scan_state c unframed = unframed.

(** The aliases [addNames] registers for a ref. *)
Definition aliases_of (s : string) : list string :=
  flat_map (fun dash => dash :: split "." dash) (split "-" s).

Definition dash_free (s : string) : Prop := contains "-" s = false.

(** No alias of the table contains a dash. *)
Definition dashless (nm : gmap string string) : Prop :=
  forall k r, nm !! k = Some r -> dash_free k.

(** A message that introduces the object [ref]: a [make] with the object
    under [obj], or a [HEREIS_$] with the object under [object]; its
    target, if it has one, is a string. *)
Definition introduces (o : value) (ref : string) : Prop :=
  exists fields payload,
    o = VObj fields /\
    (assoc "to" fields = None \/ exists t, assoc "to" fields = Some (VStr t)) /\
    ((assoc "op" fields = Some (VStr "make") /\ assoc "obj" fields = Some payload) \/
     (assoc "op" fields = Some (VStr "HEREIS_$") /\ assoc "object" fields = Some payload)) /\
    get_prop payload "ref" = Ok (VStr ref).

(** A message that deletes the object [ref]. *)
Definition deletes (o : value) (ref : string) : Prop :=
  exists fields,
    o = VObj fields /\
    assoc "op" fields = Some (VStr "delete") /\
    assoc "to" fields = Some (VStr ref).

(** A method run from a state in [P] returns in a state in [Q], or throws
    in a state in [E]. *)
Definition triple {A} (P : Bot -> Prop) (m : M A)
    (Q : A -> Bot -> Prop) (E : Bot -> Prop) : Prop :=
  forall b, P b ->
    match m b with
    | (Ok a, b') => Q a b'
    | (Throw _, b') => E b'
    end.

(** [I] holds after the method, however it ends, if it held before. *)
Definition keeps {A} (I : Bot -> Prop) (m : M A) : Prop :=
  triple I m (fun _ => I) I.

(** The alias table is dashless and takes every key of [keys] to [ref]. *)
Definition aliased (ref : string) (keys : list string) (b : Bot) : Prop :=
  dashless (names b) /\ Forall (fun k => names b !! k = Some ref) keys.

(** The alias table is dashless and has none of [keys]. *)
Definition unaliased (keys : list string) (b : Bot) : Prop :=
  dashless (names b) /\ Forall (fun k => names b !! k = None) keys.

(** The ref [a-b-c]. *)
Definition ref3 (a b c : string) : string := a ++ "-" ++ b ++ "-" ++ c.

(** The string [a-b]. *)
Definition pair2 (a b : string) : string := a ++ "-" ++ b.

(** A value that [substituteState] passes over: anything but a string
    with a dollar sign in it. *)
Definition plain (v : value) : Prop :=
  match v with
  | VStr s => contains "$" s = false
  | _ => True
  end.

#[global] Instance unit_eq_dec : EqDecision unit_.
Proof. solve_decision. Defined.

(** The writes made so far for the units [us], oldest first. *)
Definition writes_of (us : list unit_) (s : Sim) : list write :=
  filter (fun w => w_unit w ∈ us) (writes s).

Definition total_delay (ws : list write) : Z :=
  fold_right (fun w acc => delayMillis (w_unit w) + acc) 0 ws.

(** Counted from [t], every write comes no earlier than the delays of the
    writes before it and its own delay, added up. *)
Fixpoint paced (t : Z) (ws : list write) : Prop :=
  match ws with
  | [] => True
  | w :: rest =>
      t + delayMillis (w_unit w) <= w_time w
      /\ paced (t + delayMillis (w_unit w)) rest
  end.

(** The queue of a client: one unit at a time, and the numbers of the
    units that exist are below the next number to be given. *)
Definition steady (s : Sim) : Prop :=
  maxPendingPromises s = 1%nat
  /\ (length (pendingPromises s) <= 1)%nat
  /\ (forall p, p ∈ pendingPromises s -> (uid (fst p) < next_uid s)%nat)
  /\ (forall u, u ∈ queue s -> (uid u < next_uid s)%nat)
  /\ (forall w, w ∈ writes s -> (uid (w_unit w) < next_uid s)%nat).

(** Where the units [us], sent in that order from time [t0] on, stand:
    the first [k] have left the queue and the others wait in it in order;
    a unit of [us] that runs is the last that left; the writes made for
    [us] follow the order of [us] and are paced. *)
Definition tracking (us : list unit_) (t0 : Z) (s : Sim) : Prop :=
  exists k : nat,
    (k <= length us)%nat
    /\ filter (fun u => u ∈ us) (queue s) = drop k us
    /\ (forall u ph, (u, ph) ∈ pendingPromises s -> u ∈ us ->
          us !! (k - 1)%nat = Some u /\ (1 <= k)%nat)
    /\ map w_unit (writes_of us s) `sublist_of` take k us
    /\ (forall u due msg, (u, Waiting due msg) ∈ pendingPromises s -> u ∈ us ->
          map w_unit (writes_of us s) `sublist_of` take (k - 1) us
          /\ t0 + total_delay (writes_of us s) + delayMillis u <= due)
    /\ paced t0 (writes_of us s)
    /\ t0 + total_delay (writes_of us s) <= now_ s
    /\ (forall u, u ∈ us -> (uid u < next_uid s)%nat).

(** The units of three sends in a row, the first of which gets the number
    [n]. *)
Definition three_units (n : nat) (l1 : nat) (d1 : Z) (l2 : nat) (d2 : Z)
    (l3 : nat) (d3 : Z) : list unit_ :=
  [mkUnit n l1 d1; mkUnit (S n) l2 d2; mkUnit (S (S n)) l3 d3].

(** A parser given by a table, for the examples. *)
Definition parse_table (table : list (string * value)) (s : string) : value :=
  default VNull (assoc s table).

(** A rendering of values for the examples: it agrees with
    [JSON.stringify] on values without [undefined] whose strings need no
    escaping. *)
Fixpoint render (v : value) : string :=
  match v with
  | VUndef => "undefined"
  | VNull => "null"
  | VBool true => "true"
  | VBool false => "false"
  | VNum n => pretty n
  | VStr s => "'" ++ s ++ "'"
  | VArr elems =>
      "[" ++ (fix items (l : list value) : string :=
                match l with
                | [] => ""
                | x :: l' =>
                    match l' with
                    | [] => render x
                    | _ => render x ++ "," ++ items l'
                    end
                end) elems ++ "]"
  | VObj fields =>
      "{" ++ (fix members (l : list (string * value)) : string :=
                match l with
                | [] => ""
                | (k, x) :: l' =>
                    match l' with
                    | [] => "'" ++ k ++ "':" ++ render x
                    | _ => "'" ++ k ++ "':" ++ render x ++ "," ++ members l'
                    end
                end) fields ++ "}"
  end.

(** *** Sample data *)

Module Sample.

(** The bot's own avatar arrives: [make] with [you] set. *)
Definition randy_obj : value :=
  VObj [("ref", VStr "user-randy-100"); ("name", VStr "Randy");
        ("mods", VArr [VObj [("type", VStr "Avatar"); ("noid", VNum 42);
                             ("amAGhost", VBool false)]])].

Definition randy_make : value :=
  VObj [("op", VStr "make"); ("to", VStr "context-Downtown_5f");
        ("you", VBool true); ("obj", randy_obj)].

Definition randy_delete : value :=
  VObj [("op", VStr "delete"); ("to", VStr "user-randy-100")].

(** The same avatar in ghost form. *)
Definition ghost_make : value :=
  VObj [("op", VStr "make"); ("to", VStr "context-Downtown_5f");
        ("you", VBool true);
        ("obj", VObj [("ref", VStr "user-randy-100"); ("name", VStr "Randy");
                      ("mods", VArr [VObj [("type", VStr "Avatar"); ("noid", VNum 42);
                                           ("amAGhost", VBool true)]])])].

(** The avatar arrives again under a new ref, as after a change of region. *)
Definition randy_again : value :=
  VObj [("op", VStr "make"); ("to", VStr "context-Downtown_3b");
        ("you", VBool true);
        ("obj", VObj [("ref", VStr "user-randy-200"); ("name", VStr "Randy");
                      ("mods", VArr [VObj [("type", VStr "Avatar"); ("noid", VNum 7);
                                           ("amAGhost", VBool false)]])])].

Definition speak : value := VObj [("op", VStr "SPEAK$"); ("text", VStr "hi")].
Definition appearing : value := VObj [("op", VStr "APPEARING_$"); ("appearing", VNum 170)].

(** The avatar with a second mod after the first. *)
Definition randy_two : value :=
  VObj [("op", VStr "make"); ("to", VStr "context-Downtown_5f");
        ("you", VBool true);
        ("obj", VObj [("ref", VStr "user-randy-100"); ("name", VStr "Randy");
                      ("mods", VArr [VObj [("type", VStr "Avatar"); ("noid", VNum 42);
                                           ("amAGhost", VBool false)];
                                     VObj [("type", VStr "Head"); ("noid", VNum 43)]])])].

(** The avatar whose one mod has a name of its own. *)
Definition randy_named : value :=
  VObj [("op", VStr "make"); ("to", VStr "context-Downtown_5f");
        ("you", VBool true);
        ("obj", VObj [("ref", VStr "user-randy-100"); ("name", VStr "Randy");
                      ("mods", VArr [VObj [("type", VStr "Avatar"); ("noid", VNum 42);
                                           ("name", VStr "Bob")]])])].

(** An object whose ref is an exclamation mark. *)
Definition bang_make : value :=
  VObj [("op", VStr "make"); ("to", VStr "context-Downtown_5f");
        ("obj", VObj [("ref", VStr "!"); ("name", VStr "Sign");
                      ("mods", VArr [VObj [("type", VStr "Sign"); ("noid", VNum 9)]])])].

Definition frame_make : string := frame_of "make}".
Definition frame_delete : string := frame_of "delete}".
Definition frame_ghost : string := frame_of "ghost}".
Definition frame_again : string := frame_of "again}".
Definition frame_speak : string := frame_of "speak}".
Definition frame_appearing : string := frame_of "appearing}".

Definition parse : string -> value :=
  parse_table [(frame_make, randy_make); (frame_delete, randy_delete);
               (frame_ghost, ghost_make); (frame_again, randy_again);
               (frame_speak, speak);
               (frame_appearing, appearing)].

Definition fresh : Bot := constructor (VStr "127.0.0.1") (VNum 1337) (VStr "pcollins").

(** A connected client: [connect()], then the socket opens. *)
Definition online : Bot := onConnect (snd (connect fresh)).

(** The connected client after its own avatar arrived. *)
Definition in_region : Bot := snd (processData parse frame_make online).

(** The connected client after its avatar arrived with two mods. *)
Definition two_mods : Bot :=
  snd (processData (parse_table [(frame_make, randy_two)]) frame_make online).

(** The connected client after its avatar arrived with a named mod. *)
Definition named_mod : Bot :=
  snd (processData (parse_table [(frame_make, randy_named)]) frame_make online).

(** The client in the region after the object [!] arrived. *)
Definition with_bang : Bot :=
  snd (processData (parse_table [(frame_make, bang_make)]) frame_make in_region).

(** The connected client after its avatar arrived as a ghost. *)
Definition ghosted : Bot := snd (processData parse frame_ghost online).

(** Reactions 0 and 1 listen to [APPEARING_$] and reaction 2 to [msg]. *)
Definition listening : Bot :=
  snd (on "msg" 2 (snd (on "APPEARING_$" 1 (snd (on "APPEARING_$" 0 online))))).

(** Command objects of a caller: at address 0 a greeting, at 1 a command
    whose path runs into a missing property, at 2 and 3 plain commands. *)
Definition commands : gmap nat (list (string * value)) :=
  <[0%nat := [("op", VStr "SPEAK"); ("to", VStr "ME"); ("text", VStr "hello $ME.name$!")]]>
  (<[1%nat := [("op", VStr "SPEAK"); ("to", VStr "ME"); ("text", VStr "$ME.a.b")]]>
  (<[2%nat := [("op", VStr "POSTURE"); ("to", VStr "ME"); ("pose", VNum 141)]]>
  (<[3%nat := [("op", VStr "WALK"); ("to", VStr "ME"); ("x", VNum 84)]]> ∅))).

Definition session : Sim := boot in_region commands.

End Sample.

(** ** Further methods *)

(** [getAvatarNoid()] *)
Definition getAvatarNoid : M value :=
  run! avatar := getAvatar in
  if negb (is_nullish avatar) then
    lift (try! mods := get_prop avatar "mods" in
          try! mod0 := get_prop mods "0" in
          get_prop mod0 "noid")
  else ret (VNum (-1)).

Section Commands.

Variable JSON_stringify : value -> string.

(** A method that sends an object literal: the object is new, so it gets
    an address that the heap does not use yet. *)
Definition send_new (m : list (string * value)) (delay : Z) (s : Sim) : Sim :=
  let l := fresh (dom (heap s)) in
  sendWithDelay JSON_stringify l delay (set_heap (<[l := m]> (heap s)) s).

(** [say(text)] *)
Definition say (text : value) (s : Sim) : Sim :=
  send_new [("op", VStr "SPEAK"); ("to", VStr "ME"); ("esp", VNum 0); ("text", text)]
           500 s.

(** [walkTo(x, y)] *)
Definition walkTo (x y : value) (s : Sim) : Sim :=
  send_new [("op", VStr "WALK"); ("to", VStr "ME"); ("x", x); ("y", y); ("how", VNum 1)]
           10000 s.

(** [discorporate()] *)
Definition discorporate (s : Sim) : Sim :=
  send_new [("op", VStr "DISCORPORATE"); ("to", VStr "ME")] 500 s.

(** [gotoContext(context)] *)
Definition gotoContext (context : value) (s : Sim) : Sim :=
  send_new [("op", VStr "entercontext"); ("to", VStr "session"); ("context", context);
            ("user", VStr ("user-" ++ to_string (username (bot s))))]
           500 s.

(** Several calls of [sendWithDelay] in a row, each with the address of
    its object and its delay. *)
Fixpoint send_all (cmds : list (nat * Z)) (s : Sim) : Sim :=
  match cmds with
  | [] => s
  | (l, d) :: rest => send_all rest (sendWithDelay JSON_stringify l d s)
  end.

End Commands.

(** The units of the sends of [send_all], the first of which gets the
    number [n]. *)
Fixpoint units_from (n : nat) (cmds : list (nat * Z)) : list unit_ :=
  match cmds with
  | [] => []
  | (l, d) :: rest => mkUnit n l d :: units_from (S n) rest
  end.

(** The units that were ever sent, in the order settled, running, queued. *)
Definition all_units (s : Sim) : list unit_ :=
  (map fst (settled s) ++ map fst (pendingPromises s) ++ queue s)%list.

(** The books of the queue are in order: every unit is in one place only,
    a write belongs to a unit that has resolved or awaits the callback of
    the socket, every such unit has its write, and no unit has two. *)
Definition accounted (s : Sim) : Prop :=
  NoDup (map uid (all_units s))
  /\ (forall u, u ∈ all_units s -> (uid u < next_uid s)%nat)
  /\ (forall w, w ∈ writes s ->
        (w_unit w, Resolved) ∈ settled s \/ (w_unit w, Writing) ∈ pendingPromises s)
  /\ (forall u, (u, Resolved) ∈ settled s \/ (u, Writing) ∈ pendingPromises s ->
        u ∈ map w_unit (writes s))
  /\ NoDup (map w_unit (writes s)).

(** The client after [introduce] has run to its end on the message [o],
    whose object [obj] has the ref [ref] and a first mod with the noid
    [noid] and the type [ty]; [name] is the name of the object and [you]
    the flag of the message. *)
Definition arrived (o obj noid ty name you : value) (ref : string) (b : Bot) : Bot :=
  let b1 := set_names (addNames_str ref (names b)) b in
  let b2 := set_history (<[ref := o]> (history b1)) b1 in
  let b3 := set_noids (<[to_string noid := obj]> (noids b2)) b2 in
  let b6 :=
    if truthy you then
      let b4 := set_names (<["ME" := ref]> (names b3)) b3 in
      let b5 := set_names (<["USER" := nth 0 (split "-" ref) "undefined" ++ "-"
                                        ++ nth 1 (split "-" ref) "undefined"]>
                             (names b4)) b4 in
      run_callbacks "enteredRegion" o b5
    else b3 in
  let b7 := if strict_eq_str ty "Ghost"
            then set_names (<["GHOST" := ref]> (names b6)) b6 else b6 in
  if strict_eq_str ty "Avatar"
  then set_avatars (<[to_string name := obj]> (avatars b7)) b7 else b7.

(** The target of a message, if it has one, is a string. *)
Definition target_ok (fields : list (string * value)) : Prop :=
  assoc "to" fields = None \/ exists t, assoc "to" fields = Some (VStr t).

(** What the arrival of data leaves as it was, [b] the client before and
    [b'] after: the configuration, the connection and the registered
    reactions; the entries of [noids] stay, and the trace grows by
    invocations of reactions only. *)
Definition received (b b' : Bot) : Prop :=
  host b' = host b /\ port b' = port b /\ username b' = username b
  /\ server b' = server b /\ connected b' = connected b
  /\ shouldReconnect b' = shouldReconnect b
  /\ callbacks b' = callbacks b
  /\ (forall k, is_Some (noids b !! k) -> is_Some (noids b' !! k))
  /\ exists evs, trace b' = (trace b ++ evs)%list
                 /\ Forall (fun e => exists key cb msg, e = EvCall key cb msg) evs.

(** A client at rest: nothing runs and nothing waits in the queue. *)
Definition idle (s : Sim) : Prop :=
  maxPendingPromises s = 1%nat /\ pendingPromises s = [] /\ queue s = [].

(** The segments of the paths in the string [p]: what follows each dollar
    sign, split at the dots. *)
Definition path_segments (p : string) : list string :=
  concat (map (split ".") (tail (split "$" p))).

(** The command [m] is one on which [prepare] reads as the code does: the
    key of its target is decided by the own properties of [names] and
    prints in decimal; no segment of a path, in a field or in the resolved
    target, names a built-in member; no ref that an alias stands for names
    a member of [Object.prototype]; and the numbers of the stored messages
    print in decimal. *)
Definition tame (b : Bot) (m : list (string * value)) : Prop :=
  (forall to, assoc "to" m = Some to ->
     own_read (names b) (to_string to) /\ decimal to = true
     /\ forall p seg, substituteName b to = VStr p -> seg ∈ path_segments p ->
          builtin seg = false)
  /\ (forall k p seg, assoc k m = Some (VStr p) -> seg ∈ path_segments p ->
        builtin seg = false)
  /\ (forall k r, names b !! k = Some r -> inherited r = false)
  /\ (forall ref o, history b !! ref = Some o -> decimal_all o = true).

(** * Properties *)

(** ** The deframer *)

Section Deframer.

Lemma scan_split blob st :
  scan blob st =
  (completed blob st ++
   if framed (scan_state blob st) then [JSONFrame (scan_state blob st)] else [])%list.
Proof.
  revert st. induction blob as [|c rest IH]; intros st; simpl.
  - reflexivity.
  - destruct (scan_char c st) as [st' [frame|]]; simpl; rewrite IH; reflexivity.
Qed.

Lemma scan_state_app a b st :
  scan_state (a ++ b) st = scan_state b (scan_state a st).
Proof.
  revert st. induction a as [|c rest IH]; intros st; simpl; [reflexivity|apply IH].
Qed.

Lemma completed_app a b st :
  completed (a ++ b) st = (completed a st ++ completed b (scan_state a st))%list.
Proof.
  revert st. induction a as [|c rest IH]; intros st; simpl.
  - reflexivity.
  - destruct (scan_char c st) as [st' [frame|]]; simpl; rewrite IH; reflexivity.
Qed.

Lemma scan_char_tidy c st : tidy st -> tidy (fst (scan_char c st)).
Proof.
  unfold tidy, scan_char. intros Ht.
  destruct (framed st) eqn:Hf.
  - destruct (Ascii.eqb LF c); [destruct (firstEOL st)|]; simpl; intros; solve [reflexivity | discriminate].
  - destruct (Ascii.eqb LBRACE c); simpl; [discriminate|]. intros _. apply Ht. reflexivity.
Qed.

Lemma scan_state_tidy blob st : tidy st -> tidy (scan_state blob st).
Proof.
  revert st. induction blob as [|c rest IH]; intros st Ht; simpl; [exact Ht|].
  apply IH, scan_char_tidy, Ht.
Qed.

Lemma tidy_unframed : tidy unframed.
Proof. intros _. reflexivity. Qed.

(** Two line feeds close whatever frame is open. *)
Lemma terminator_closes st : tidy st -> scan_state terminator st = unframed.
Proof.
  intros Ht. destruct st as [f e j]. destruct f.
  - destruct e; reflexivity.
  - rewrite (Ht eq_refl). reflexivity.
Qed.

Lemma closed_chunk_terminated p : closed_chunk (p ++ terminator).
Proof.
  unfold closed_chunk. rewrite scan_state_app.
  apply terminator_closes, scan_state_tidy, tidy_unframed.
Qed.

Lemma closed_chunk_empty : closed_chunk "".
Proof. reflexivity. Qed.

Lemma closed_chunk_app a b : closed_chunk a -> closed_chunk b -> closed_chunk (a ++ b).
Proof.
  unfold closed_chunk. intros Ha Hb. rewrite scan_state_app, Ha. exact Hb.
Qed.

Lemma closed_chunk_frame f : is_frame f -> closed_chunk f.
Proof.
  intros [body ->]. unfold frame_of.
  change ("{" ++ body ++ terminator) with (String "{" (body ++ terminator)).
  change (String "{" (body ++ terminator)) with (("{" ++ body) ++ terminator).
  apply closed_chunk_terminated.
Qed.

Lemma closed_chunk_frames fs : Forall is_frame fs -> closed_chunk (concat_str fs).
Proof.
  induction 1 as [|f fs Hf _ IH]; simpl.
  - apply closed_chunk_empty.
  - apply closed_chunk_app; [apply closed_chunk_frame, Hf | exact IH].
Qed.

(** A chunk that leaves no frame open can be cut off: what follows is
    deframed as if it came alone. *)
Lemma deframe_app_closed a b :
  closed_chunk a -> deframe (a ++ b) = (deframe a ++ deframe b)%list.
Proof.
  unfold closed_chunk, deframe. intros Ha.
  rewrite (scan_split (a ++ b)), (scan_split a), (scan_split b).
  rewrite completed_app, scan_state_app, Ha. simpl.
  rewrite List.app_nil_r, <- List.app_assoc. reflexivity.
Qed.

Lemma deframe_chunks_closed chunks :
  Forall closed_chunk chunks ->
  deframe_chunks chunks = deframe (concat_str chunks)
  /\ closed_chunk (concat_str chunks).
Proof.
  induction 1 as [|c cs Hc _ [IH1 IH2]]; simpl.
  - split; reflexivity.
  - split.
    + unfold deframe_chunks in *. simpl. rewrite IH1.
      symmetry. apply deframe_app_closed, Hc.
    + apply closed_chunk_app; assumption.
Qed.

Lemma append_cons c (a b : string) : String c a ++ b = String c (a ++ b).
Proof. reflexivity. Qed.

Lemma append_empty_l (b : string) : "" ++ b = b.
Proof. reflexivity. Qed.

Lemma append_empty_r (a : string) : a ++ "" = a.
Proof. induction a as [|x a IH]; [reflexivity|]. rewrite append_cons, IH. reflexivity. Qed.

Lemma append_assoc_str (a b c : string) : (a ++ b) ++ c = a ++ (b ++ c).
Proof.
  induction a as [|x a IH]; [reflexivity|].
  rewrite !append_cons, IH. reflexivity.
Qed.

(** Inside a frame, characters other than the line feed are buffered. *)
Lemma scan_body body st :
  framed st = true -> contains LF body = false ->
  scan_state body st = mkScanner true (firstEOL st) (JSONFrame st ++ body)
  /\ completed body st = [].
Proof.
  revert st. induction body as [|c rest IH]; intros [f e j] Hf Hb; simpl in *.
  - subst f. rewrite append_empty_r. split; reflexivity.
  - subst f. apply orb_false_iff in Hb as [Hc Hrest].
    rewrite Ascii.eqb_sym in Hc.
    unfold scan_char. cbn [framed firstEOL JSONFrame]. rewrite Hc. cbn [fst].
    destruct (IH (mkScanner true e (j ++ String c "")) eq_refl Hrest) as [H1 H2].
    rewrite H1, H2. cbn [firstEOL JSONFrame]. rewrite append_assoc_str. split; reflexivity.
Qed.

(** A frame whose body holds no line feed comes out whole. *)
Lemma deframe_frame body :
  contains LF body = false -> deframe (frame_of body) = [frame_of body].
Proof.
  intros Hb. unfold deframe, frame_of. rewrite scan_split.
  rewrite append_cons, append_empty_l. cbn [scan_state completed].
  change (scan_char "{" unframed) with (mkScanner true false "{", @None string).
  cbn [fst]. rewrite completed_app, scan_state_app.
  destruct (scan_body body (mkScanner true false "{") eq_refl Hb) as [H1 H2].
  rewrite H1, H2. cbn [firstEOL JSONFrame]. cbn.
  rewrite !append_assoc_str. reflexivity.
Qed.

Lemma deframe_frames bodies :
  Forall (fun body => contains LF body = false) bodies ->
  deframe (concat_str (map frame_of bodies)) = map frame_of bodies.
Proof.
  induction 1 as [|body bodies Hb _ IH]; simpl; [reflexivity|].
  rewrite deframe_app_closed by (apply closed_chunk_frame; eexists; reflexivity).
  rewrite IH, deframe_frame by exact Hb. reflexivity.
Qed.

End Deframer.

(** C1, as amended.  When a stream of complete frames arrives in chunks
    that end where a frame ends (each chunk is itself a run of complete
    frames), the chunks yield, one after the other, the frames that the
    whole stream yields as a single chunk. *)
Theorem deframe_chunks_at_frame_boundaries (groups : list (list string)) :
  Forall (Forall is_frame) groups ->
  deframe_chunks (map concat_str groups)
  = deframe (concat_str (map concat_str groups)).
Proof.
  intros Hg. apply deframe_chunks_closed.
  induction Hg as [|g gs Hf _ IH]; simpl; constructor;
    [apply closed_chunk_frames, Hf | exact IH].
Qed.

Lemma deframe_chunks_at_frame_boundaries_witness :
  Forall (Forall is_frame)
    [[frame_of "a}"; frame_of "b}"]; []; [frame_of "c}"]]
  /\ deframe_chunks (map concat_str [[frame_of "a}"; frame_of "b}"]; []; [frame_of "c}"]])
     = deframe (concat_str (map concat_str
                              [[frame_of "a}"; frame_of "b}"]; []; [frame_of "c}"]])).
Proof.
  assert (H : Forall (Forall is_frame)
                [[frame_of "a}"; frame_of "b}"]; []; [frame_of "c}"]]).
  { repeat constructor; eexists; reflexivity. }
  split; [exact H | exact (deframe_chunks_at_frame_boundaries _ H)].
Defined.

(** C1, as stated, fails: delivered one byte per chunk, the frame [{}]
    with its blank line yields the lone brace as a frame, where the whole
    stream yields the frame itself. *)
Lemma deframe_bytewise_differs :
  ~ (forall frames chunks,
       Forall is_frame frames ->
       concat_str chunks = concat_str frames ->
       deframe_chunks chunks = deframe (concat_str frames)).
Proof.
  intros H.
  specialize (H [frame_of "}"] (singletons (frame_of "}"))).
  assert (Hf : Forall is_frame [frame_of "}"]) by (repeat constructor; eexists; reflexivity).
  specialize (H Hf eq_refl). vm_compute in H. discriminate H.
Qed.

(** ** A program logic for the methods *)

Section Logic.

Context {A B : Type}.

Lemma triple_ret (P : Bot -> Prop) (a : A) Q E :
  (forall b, P b -> Q a b) -> triple P (ret a) Q E.
Proof. intros H b Hb. exact (H b Hb). Qed.

Lemma triple_throw (P : Bot -> Prop) e (Q : A -> Bot -> Prop) (E : Bot -> Prop) :
  (forall b, P b -> E b) -> triple P (throw e) Q E.
Proof. intros H b Hb. exact (H b Hb). Qed.

Lemma triple_lift (P : Bot -> Prop) (r : result A) Q (E : Bot -> Prop) :
  (forall a, r = Ok a -> forall b, P b -> Q a b) ->
  (forall e, r = Throw e -> forall b, P b -> E b) ->
  triple P (lift r) Q E.
Proof.
  intros H1 H2 b Hb. unfold lift. destruct r as [a|e]; [exact (H1 a eq_refl b Hb)|exact (H2 e eq_refl b Hb)].
Qed.

Lemma triple_gets (P : Bot -> Prop) (f : Bot -> A) Q E :
  (forall b, P b -> Q (f b) b) -> triple P (gets f) Q E.
Proof. intros H b Hb. exact (H b Hb). Qed.

Lemma triple_bind (P : Bot -> Prop) (m : M A) (k : A -> M B) R Q E :
  triple P m R E -> (forall a, triple (R a) (k a) Q E) -> triple P (bind m k) Q E.
Proof.
  intros Hm Hk b Hb. unfold bind. specialize (Hm b Hb).
  destruct (m b) as [[a|e] b']; [exact (Hk a b' Hm)|exact Hm].
Qed.

Lemma triple_conseq (P P' : Bot -> Prop) (m : M A) (Q Q' : A -> Bot -> Prop) (E E' : Bot -> Prop) :
  triple P' m Q' E' ->
  (forall b, P b -> P' b) -> (forall a b, Q' a b -> Q a b) -> (forall b, E' b -> E b) ->
  triple P m Q E.
Proof.
  intros Hm HP HQ HE b Hb. specialize (Hm b (HP b Hb)).
  destruct (m b) as [[a|e] b']; [exact (HQ a b' Hm)|exact (HE b' Hm)].
Qed.

End Logic.

Lemma triple_modify (P : Bot -> Prop) (f : Bot -> Bot) Q E :
  (forall b, P b -> Q tt (f b)) -> triple P (modify f) Q E.
Proof. intros H b Hb. exact (H b Hb). Qed.

Lemma triple_when (P : Bot -> Prop) (c : bool) (m : M unit) Q E :
  (c = true -> triple P m Q E) -> (c = false -> forall b, P b -> Q tt b) ->
  triple P (when c m) Q E.
Proof.
  intros H1 H2. destruct c; simpl; [exact (H1 eq_refl)|].
  apply triple_ret. exact (H2 eq_refl).
Qed.

Lemma keeps_ret {A} (I : Bot -> Prop) (a : A) : keeps I (ret a).
Proof. apply triple_ret. auto. Qed.

Lemma keeps_throw {A} (I : Bot -> Prop) e : keeps I (@throw A e).
Proof. apply triple_throw. auto. Qed.

Lemma keeps_lift {A} (I : Bot -> Prop) (r : result A) : keeps I (lift r).
Proof. apply triple_lift; auto. Qed.

Lemma keeps_gets {A} (I : Bot -> Prop) (f : Bot -> A) : keeps I (gets f).
Proof. apply triple_gets. auto. Qed.

Lemma keeps_modify (I : Bot -> Prop) (f : Bot -> Bot) :
  (forall b, I b -> I (f b)) -> keeps I (modify f).
Proof. intros H. apply triple_modify. exact H. Qed.

Lemma keeps_bind {A B} (I : Bot -> Prop) (m : M A) (k : A -> M B) :
  keeps I m -> (forall a, keeps I (k a)) -> keeps I (bind m k).
Proof. intros Hm Hk. exact (triple_bind I m k _ _ _ Hm Hk). Qed.

Lemma keeps_when (I : Bot -> Prop) (c : bool) (m : M unit) :
  keeps I m -> keeps I (when c m).
Proof. intros H. destruct c; [exact H|apply keeps_ret]. Qed.

Lemma keeps_if {A} (I : Bot -> Prop) (c : bool) (m1 m2 : M A) :
  keeps I m1 -> keeps I m2 -> keeps I (if c then m1 else m2).
Proof. destruct c; auto. Qed.

(** The structural steps of a proof that a method keeps an invariant; the
    updates of the state are left. *)
Ltac keeps_step :=
  lazymatch goal with
  | |- keeps _ _ =>
      first
        [ apply keeps_ret | apply keeps_throw | apply keeps_lift | apply keeps_gets
        | apply keeps_bind; [|intros ?] | apply keeps_when | apply keeps_if
        | apply keeps_modify; intros ? ? ]
  end.

Ltac keeps_auto := repeat keeps_step.

(** ** Aliases *)

Section Aliases.

Lemma split_nonempty sep s : split sep s <> [].
Proof.
  destruct s as [|c s]; simpl; [discriminate|].
  destruct (Ascii.eqb c sep); [discriminate|].
  destruct (split sep s); discriminate.
Qed.

Lemma split_free sep a : contains sep a = false -> split sep a = [a].
Proof.
  induction a as [|c a IH]; simpl; [reflexivity|].
  intros H. apply orb_false_iff in H as [Hc Ha].
  rewrite Hc, (IH Ha). reflexivity.
Qed.

Lemma split_app_sep sep a rest :
  contains sep a = false ->
  split sep (a ++ String sep rest) = a :: split sep rest.
Proof.
  induction a as [|c a IH]; intros H.
  - rewrite append_empty_l. simpl. rewrite Ascii.eqb_refl. reflexivity.
  - simpl in H. apply orb_false_iff in H as [Hc Ha].
    rewrite append_cons. simpl. rewrite Hc, (IH Ha). reflexivity.
Qed.

(** The three segments of [a-b-c]. *)
Lemma split_three a b c :
  dash_free a -> dash_free b -> dash_free c ->
  split "-" (a ++ "-" ++ b ++ "-" ++ c) = [a; b; c].
Proof.
  unfold dash_free. intros Ha Hb Hc.
  rewrite !append_cons, !append_empty_l.
  rewrite (split_app_sep "-" a _ Ha), (split_app_sep "-" b _ Hb), (split_free "-" c Hc).
  reflexivity.
Qed.

(** A piece of a string holds no character that the string does not. *)
Lemma split_contains ch sep s w :
  w ∈ split sep s -> contains ch s = false -> contains ch w = false.
Proof.
  revert w. induction s as [|c s IH]; simpl; intros w Hw Hs.
  - apply list_elem_of_singleton in Hw as ->. reflexivity.
  - apply orb_false_iff in Hs as [Hc Hs].
    destruct (Ascii.eqb c sep).
    + apply elem_of_cons in Hw as [->|Hw]; [reflexivity|]. exact (IH w Hw Hs).
    + pose proof (split_nonempty sep s) as Hne.
      destruct (split sep s) as [|x xs] eqn:Hsp; [congruence|].
      apply elem_of_cons in Hw as [->|Hw].
      * simpl. rewrite Hc. simpl. apply IH; [left|exact Hs].
      * apply IH; [right; exact Hw|exact Hs].
Qed.

(** A piece cut at [sep] does not hold [sep]. *)
Lemma split_sep_free sep s w : w ∈ split sep s -> contains sep w = false.
Proof.
  revert w. induction s as [|c s IH]; simpl; intros w Hw.
  - apply list_elem_of_singleton in Hw as ->. reflexivity.
  - destruct (Ascii.eqb c sep) eqn:Hc.
    + apply elem_of_cons in Hw as [->|Hw]; [reflexivity|]. exact (IH w Hw).
    + pose proof (split_nonempty sep s) as Hne.
      destruct (split sep s) as [|x xs] eqn:Hsp; [congruence|].
      apply elem_of_cons in Hw as [->|Hw].
      * simpl. rewrite Hc. simpl. apply IH. left.
      * apply IH. right. exact Hw.
Qed.

Lemma aliases_dash_free s k : k ∈ aliases_of s -> dash_free k.
Proof.
  unfold aliases_of. intros Hk.
  apply list_elem_of_In, in_flat_map in Hk as [dash [Hd Hk]].
  apply list_elem_of_In in Hd, Hk.
  pose proof (split_sep_free "-" s dash Hd) as Hfree.
  apply elem_of_cons in Hk as [->|Hk]; [exact Hfree|].
  exact (split_contains "-" "." dash k Hk Hfree).
Qed.

Lemma segments_are_aliases s dash : dash ∈ split "-" s -> dash ∈ aliases_of s.
Proof.
  unfold aliases_of. intros Hd.
  apply list_elem_of_In, in_flat_map. exists dash.
  split; [apply list_elem_of_In, Hd | left; reflexivity].
Qed.

Lemma assign_name_other s nm x k : k <> x -> assign_name s nm x !! k = nm !! k.
Proof.
  intros Hne. unfold assign_name.
  destruct (String.eqb x "__proto__" && bool_decide (nm !! x = None)); [reflexivity|].
  apply lookup_insert_ne. congruence.
Qed.

Lemma assign_name_same s nm k :
  assign_name s nm k !! k = if decide (dropped nm k) then None else Some s.
Proof.
  unfold assign_name. destruct (decide (dropped nm k)) as [[Hk Hn]|Hnot].
  - subst k. rewrite String.eqb_refl, bool_decide_eq_true_2 by exact Hn. exact Hn.
  - assert (E : String.eqb k "__proto__" && bool_decide (nm !! k = None) = false).
    { destruct (String.eqb k "__proto__") eqn:E; [|reflexivity]. cbn [andb].
      apply bool_decide_eq_false_2. intros Hn. apply Hnot.
      split; [apply String.eqb_eq, E|exact Hn]. }
    rewrite E. apply lookup_insert_eq.
Qed.

Lemma assign_name_dropped s nm x k : dropped (assign_name s nm x) k <-> dropped nm k.
Proof.
  unfold dropped. split; intros [-> H]; (split; [reflexivity|]).
  - destruct (decide ("__proto__" = x)) as [<-|Hne].
    + rewrite assign_name_same in H.
      destruct (decide (dropped nm "__proto__")) as [[_ Hd]|_]; [exact Hd|discriminate].
    + rewrite assign_name_other in H by exact Hne. exact H.
  - destruct (decide ("__proto__" = x)) as [<-|Hne].
    + rewrite assign_name_same, decide_True; [reflexivity|].
      unfold dropped. auto.
    + rewrite assign_name_other by exact Hne. exact H.
Qed.

Lemma fold_assign_lookup (s : string) l : forall (nm : gmap string string) k,
  fold_left (assign_name s) l nm !! k
  = if decide (k ∈ l) then (if decide (dropped nm k) then None else Some s) else nm !! k.
Proof.
  induction l as [|x l IH]; intros nm k; simpl.
  - destruct (decide (k ∈ [])) as [H|_]; [inversion H|reflexivity].
  - rewrite IH. pose proof (assign_name_dropped s nm x k) as Hd.
    destruct (decide (k ∈ l)) as [Hl|Hl].
    + destruct (decide (k ∈ x :: l)) as [_|Hn];
        [|exfalso; apply Hn, elem_of_cons; right; exact Hl].
      destruct (decide (dropped (assign_name s nm x) k)) as [H1|H1];
        destruct (decide (dropped nm k)) as [H2|H2]; tauto.
    + destruct (decide (k = x)) as [->|Hne].
      * destruct (decide (x ∈ x :: l)) as [_|Hn];
          [|exfalso; apply Hn, elem_of_cons; left; reflexivity].
        apply assign_name_same.
      * rewrite assign_name_other by exact Hne.
        destruct (decide (k ∈ x :: l)) as [H|_]; [|reflexivity].
        apply elem_of_cons in H as [?|?]; contradiction.
Qed.

Lemma fold_delete_lookup l (nm : gmap string string) k :
  fold_left (fun nm x => delete x nm) l nm !! k
  = if decide (k ∈ l) then None else nm !! k.
Proof.
  revert nm. induction l as [|x l IH]; intros nm; simpl.
  - destruct (decide (k ∈ [])) as [H|_]; [inversion H|reflexivity].
  - rewrite IH. destruct (decide (k ∈ l)) as [Hl|Hl].
    + rewrite decide_True by (right; exact Hl). reflexivity.
    + destruct (decide (k = x)) as [->|Hne].
      * rewrite lookup_delete_eq, decide_True by left. reflexivity.
      * rewrite lookup_delete_ne by congruence.
        rewrite decide_False; [reflexivity|].
        intros H. apply elem_of_cons in H as [?|?]; contradiction.
Qed.

Lemma addNames_dash_lookup s nm dash k :
  addNames_dash s nm dash !! k
  = if decide (k ∈ dash :: split "." dash)
    then (if decide (dropped nm k) then None else Some s) else nm !! k.
Proof. exact (fold_assign_lookup s (dash :: split "." dash) nm k). Qed.

Lemma clearNames_dash_lookup nm dash k :
  clearNames_dash nm dash !! k
  = if decide (k ∈ dash :: split "." dash) then None else nm !! k.
Proof.
  unfold clearNames_dash. rewrite fold_delete_lookup.
  destruct (decide (k ∈ split "." dash)) as [Hk|Hk].
  - rewrite decide_True by (right; exact Hk). reflexivity.
  - destruct (decide (k = dash)) as [->|Hne].
    + rewrite lookup_delete_eq, decide_True by left. reflexivity.
    + rewrite lookup_delete_ne by congruence.
      rewrite decide_False; [reflexivity|].
      intros H. apply elem_of_cons in H as [?|?]; contradiction.
Qed.

Lemma addNames_str_fold s ds : forall nm,
  fold_left (addNames_dash s) ds nm
  = fold_left (assign_name s) (flat_map (fun dash => dash :: split "." dash) ds) nm.
Proof.
  induction ds as [|d ds IH]; intros nm; [reflexivity|].
  cbn [fold_left flat_map]. rewrite fold_left_app, IH. reflexivity.
Qed.

(** After [addNames(s)] every alias of [s] stands for [s], but for
    [__proto__] on a table that does not own it, and the other entries
    are as before. *)
Lemma addNames_str_lookup s nm k :
  addNames_str s nm !! k
  = if decide (k ∈ aliases_of s)
    then (if decide (dropped nm k) then None else Some s) else nm !! k.
Proof.
  unfold addNames_str, aliases_of. rewrite addNames_str_fold. apply fold_assign_lookup.
Qed.

Lemma addNames_str_alias s nm k :
  k ∈ aliases_of s -> k <> "__proto__" -> addNames_str s nm !! k = Some s.
Proof.
  intros Hk Hne. rewrite addNames_str_lookup, decide_True by exact Hk.
  rewrite decide_False; [reflexivity|]. intros [H _]. contradiction.
Qed.

(** After [clearNames(s)] no alias of [s] is left, and the other entries
    are as before. *)
Lemma clearNames_str_lookup s nm k :
  clearNames_str s nm !! k = if decide (k ∈ aliases_of s) then None else nm !! k.
Proof.
  unfold clearNames_str, aliases_of.
  generalize (split "-" s) as dashes. intros dashes. revert nm.
  induction dashes as [|d ds IH]; intros nm; simpl.
  - destruct (decide (k ∈ [])) as [H|_]; [inversion H|reflexivity].
  - rewrite IH, clearNames_dash_lookup.
    destruct (decide (k ∈ flat_map (fun dash => dash :: split "." dash) ds)) as [H|H].
    + rewrite decide_True; [reflexivity|].
      right. apply elem_of_app. right. exact H.
    + destruct (decide (k ∈ d :: split "." d)) as [Hd|Hd].
      * rewrite decide_True; [reflexivity|].
        apply elem_of_cons in Hd as [->|Hd]; [left; reflexivity|].
        right. apply elem_of_app. left. exact Hd.
      * rewrite decide_False; [reflexivity|].
        intros Hk. apply elem_of_cons in Hk as [->|Hk]; [apply Hd; left|].
        apply elem_of_app in Hk as [Hk|Hk]; [apply Hd; right; exact Hk|contradiction].
Qed.

Lemma dashless_empty : dashless ∅.
Proof. intros k r H. rewrite lookup_empty in H. discriminate. Qed.

Lemma dashless_insert k r nm : dash_free k -> dashless nm -> dashless (<[k := r]> nm).
Proof.
  intros Hk Hnm k' r' H. destruct (decide (k = k')) as [<-|Hne]; [exact Hk|].
  rewrite lookup_insert_ne in H by exact Hne. exact (Hnm k' r' H).
Qed.

Lemma dashless_addNames s nm : dashless nm -> dashless (addNames_str s nm).
Proof.
  intros Hnm k r H. rewrite addNames_str_lookup in H.
  destruct (decide (k ∈ aliases_of s)) as [Hk|Hk].
  - exact (aliases_dash_free s k Hk).
  - exact (Hnm k r H).
Qed.

Lemma dashless_clearNames s nm : dashless nm -> dashless (clearNames_str s nm).
Proof.
  intros Hnm k r H. rewrite clearNames_str_lookup in H.
  destruct (decide (k ∈ aliases_of s)) as [Hk|Hk]; [discriminate|].
  exact (Hnm k r H).
Qed.

(** A string with a dash in it is no alias. *)
Lemma dashless_miss nm k : dashless nm -> contains "-" k = true -> nm !! k = None.
Proof.
  intros Hnm Hk. destruct (nm !! k) as [r|] eqn:H; [|reflexivity].
  specialize (Hnm k r H). unfold dash_free in Hnm. congruence.
Qed.

Lemma contains_app_sep ch (a rest : string) : contains ch (a ++ String ch rest) = true.
Proof.
  induction a as [|c a IH].
  - rewrite append_empty_l. simpl. rewrite Ascii.eqb_refl. reflexivity.
  - rewrite append_cons. simpl. rewrite IH. apply orb_true_r.
Qed.

End Aliases.

(** ** The mirror *)

Section MirrorProofs.

Variable parseElko : string -> value.

Lemma process_frames_app fs gs o b :
  process_frames parseElko (fs ++ gs) o b
  = (run! o' := process_frames parseElko fs o in process_frames parseElko gs o') b.
Proof.
  revert o b. induction fs as [|f fs IH]; intros o b; simpl.
  - reflexivity.
  - unfold bind in *.
    destruct (processElkoPacket parseElko f b) as [[o'|e] b']; [apply IH|reflexivity].
Qed.

(** The loop of [processData] hands the completed frames to the mirror in
    order and stops at the first one that throws. *)
Lemma processData_loop_spec blob st o b :
  processData_loop parseElko blob st o b
  = (run! o' := process_frames parseElko (completed blob st) o in
     ret (scan_state blob st, o')) b.
Proof.
  revert st o b. induction blob as [|c rest IH]; intros st o b; simpl.
  - reflexivity.
  - destruct (scan_char c st) as [st' [frame|]]; simpl.
    + unfold bind in *.
      destruct (processElkoPacket parseElko frame b) as [[o'|e] b']; [apply IH|reflexivity].
    + apply IH.
Qed.

(** [processData] is the mirror applied to the frames of the chunk, then
    one dispatch, for the result of the last frame. *)
Lemma processData_frames blob b :
  processData parseElko blob b
  = (run! o := process_frames parseElko (deframe blob) VNull in dispatch o) b.
Proof.
  unfold processData, deframe. rewrite scan_split.
  unfold bind at 1 2. rewrite processData_loop_spec.
  unfold bind. rewrite process_frames_app. unfold bind.
  destruct (process_frames parseElko (completed blob unframed) VNull b) as [[o|e] b'];
    [|reflexivity].
  cbn [ret fst snd].
  destruct (framed (scan_state blob unframed)); simpl.
  - unfold bind. destruct (processElkoPacket parseElko _ b') as [[o'|e] b'']; reflexivity.
  - reflexivity.
Qed.

Lemma processData_single blob s b :
  deframe blob = [s] ->
  processData parseElko blob b
  = (run! o := scanForRefs parseElko s in dispatch o) b.
Proof.
  intros H. rewrite processData_frames, H. simpl.
  unfold processElkoPacket, bind.
  destruct (scanForRefs parseElko s b) as [[o|e] b']; reflexivity.
Qed.

End MirrorProofs.

Section Introduction.

Variable parseElko : string -> value.

Lemma get_prop_obj fields k :
  get_prop (VObj fields) k = Ok (default VUndef (assoc k fields)).
Proof. simpl. destruct (assoc k fields); reflexivity. Qed.

Lemma assoc_set_field_eq k x fields : assoc k (set_field k x fields) = Some x.
Proof.
  induction fields as [|[k' v] rest IH]; simpl.
  - rewrite String.eqb_refl. reflexivity.
  - destruct (String.eqb k' k) eqn:Hk; simpl; rewrite Hk; [reflexivity|exact IH].
Qed.

Lemma assoc_set_field_ne k k' x fields :
  k <> k' -> assoc k' (set_field k x fields) = assoc k' fields.
Proof.
  intros Hne. induction fields as [|[k0 v] rest IH]; simpl.
  - apply String.eqb_neq in Hne. rewrite Hne. reflexivity.
  - destruct (String.eqb k0 k) eqn:Hk; simpl.
    + apply String.eqb_eq in Hk. subst k0. apply String.eqb_neq in Hne.
      rewrite Hne. reflexivity.
    + destruct (String.eqb k0 k'); [reflexivity|exact IH].
Qed.

Lemma names_run_callbacks key msg b : names (run_callbacks key msg b) = names b.
Proof.
  unfold run_callbacks. generalize (default [] (callbacks b !! key)) as l.
  intros l. revert b. induction l as [|cb l IH]; intros b; simpl; [reflexivity|].
  rewrite IH. reflexivity.
Qed.

Lemma aliased_insert ref keys k r b :
  dash_free k -> (r = ref \/ k ∉ keys) ->
  aliased ref keys b -> aliased ref keys (set_names (<[k := r]> (names b)) b).
Proof.
  intros Hk Hr [Hd Hall]. split; simpl.
  - apply dashless_insert; assumption.
  - apply Forall_forall. intros x Hx.
    rewrite Forall_forall in Hall. specialize (Hall x Hx).
    destruct (decide (k = x)) as [<-|Hne].
    + destruct Hr as [->|Hr]; [apply lookup_insert_eq|contradiction].
    + rewrite lookup_insert_ne by exact Hne. exact Hall.
Qed.

Lemma unaliased_same keys b b' : names b' = names b -> unaliased keys b -> unaliased keys b'.
Proof. unfold unaliased. intros ->. auto. Qed.

Lemma aliased_same ref keys b b' : names b' = names b -> aliased ref keys b -> aliased ref keys b'.
Proof. unfold aliased. intros ->. auto. Qed.

(** [addNames(ref)] makes every dash-segment of [ref] an alias of it. *)
Lemma aliased_addNames ref keys b :
  Forall (fun k => k ∈ split "-" ref) keys ->
  "__proto__" ∉ keys ->
  dashless (names b) ->
  aliased ref keys (set_names (addNames_str ref (names b)) b).
Proof.
  intros Hkeys Hproto Hd. split; simpl.
  - apply dashless_addNames, Hd.
  - apply Forall_forall. intros k Hk. rewrite Forall_forall in Hkeys.
    apply addNames_str_alias; [apply segments_are_aliases, Hkeys, Hk|].
    intros ->. exact (Hproto Hk).
Qed.

(** The part of [introduce] that follows [addNames(ref)] leaves the
    aliases of [ref] in place, provided none of them is [USER]. *)
Lemma introduce_keeps_aliases o ref keys :
  "USER" ∉ keys ->
  forall obj,
  keeps (aliased ref keys)
    (modify (fun b => set_history (<[to_string (VStr ref) := o]> (history b)) b) ;;;
     run! has_mods := lift (has_prop "mods" obj) in
     run! populated :=
       (if has_mods then
          lift (try! mods := get_prop obj "mods" in
                try! len := get_prop mods "length" in
                Ok (gt_zero len))
        else ret false) in
     when populated
       (run! noid := lift (try! mods := get_prop obj "mods" in
                           try! mod0 := get_prop mods "0" in
                           get_prop mod0 "noid") in
        modify (fun b => set_noids (<[to_string noid := obj]> (noids b)) b)) ;;;
     run! you := lift (get_prop o "you") in
     when (truthy you)
       (let parts := split "-" (to_string (VStr ref)) in
        modify (fun b => set_names (<["ME" := to_string (VStr ref)]> (names b)) b) ;;;
        modify (fun b => set_names
                           (<["USER" := nth 0 parts "undefined"
                                        ++ "-" ++ nth 1 parts "undefined"]>
                              (names b)) b) ;;;
        run! cbs := gets callbacks in
        match cbs !! "enteredRegion" with
        | Some _ => modify (run_callbacks "enteredRegion" o)
        | None => throw TypeError
        end) ;;;
     run! ty := lift (first_mod_type o) in
     when (strict_eq_str ty "Ghost")
       (modify (fun b => set_names (<["GHOST" := to_string (VStr ref)]> (names b)) b)) ;;;
     run! ty' := lift (first_mod_type o) in
     when (strict_eq_str ty' "Avatar")
       (run! name := lift (get_prop obj "name") in
        modify (fun b => set_avatars (<[to_string name := obj]> (avatars b)) b))).
Proof.
  intros Huser obj.
  keeps_auto;
    try (match goal with
         | |- keeps _ (match ?x with _ => _ end) => destruct x; keeps_auto
         end);
    try (match goal with
         | H : aliased _ _ _ |- aliased _ _ (set_names _ _) =>
             apply aliased_insert; [reflexivity | | exact H]
         | H : aliased _ _ _ |- aliased _ _ _ =>
             refine (aliased_same _ _ _ _ _ H);
             first [reflexivity | apply names_run_callbacks]
         end).
  - left. reflexivity.
  - right. exact Huser.
  - left. reflexivity.
Qed.

End Introduction.

Section AliasLifecycle.

Variable parseElko : string -> value.

Lemma triple_bind_lift_ok {A B} (r : result A) (a : A) (k : A -> M B) (P : Bot -> Prop) Q E :
  r = Ok a -> triple P (k a) Q E -> triple P (bind (lift r) k) Q E.
Proof. intros -> H b Hb. unfold bind, lift. exact (H b Hb). Qed.

Lemma triple_bind_ret {A B} (a : A) (k : A -> M B) (P : Bot -> Prop) Q E :
  triple P (k a) Q E -> triple P (bind (ret a) k) Q E.
Proof. intros H b Hb. unfold bind, ret. exact (H b Hb). Qed.

Lemma triple_pure {A} (phi : Prop) (P : Bot -> Prop) (m : M A) Q E :
  (phi -> triple P m Q E) -> triple (fun b => phi /\ P b) m Q E.
Proof. intros H b [Hphi Hb]. exact (H Hphi b Hb). Qed.

Lemma introduce_aliases o payload ref keys :
  get_prop o "obj" = Ok payload ->
  get_prop payload "ref" = Ok (VStr ref) ->
  "USER" ∉ keys -> "__proto__" ∉ keys ->
  Forall (fun k => k ∈ split "-" ref) keys ->
  triple (fun b => dashless (names b)) (introduce o)
         (fun _ => aliased ref keys) (aliased ref keys).
Proof.
  intros Hobj Href Huser Hproto Hkeys. unfold introduce.
  apply (triple_bind_lift_ok _ payload); [exact Hobj|].
  apply (triple_bind_lift_ok _ (VStr ref)); [exact Href|].
  eapply triple_bind with (R := fun _ => aliased ref keys).
  - apply triple_modify. intros b Hb.
    apply aliased_addNames; [exact Hkeys|exact Hproto|exact Hb].
  - intros _. exact (introduce_keeps_aliases o ref keys Huser payload).
Qed.

(** The mirror on a message that introduces [ref]. *)
Lemma scanForRefs_introduces s ref keys :
  introduces (parseElko s) ref ->
  "USER" ∉ keys -> "__proto__" ∉ keys ->
  Forall (fun k => k ∈ split "-" ref) keys ->
  triple (fun b => dashless (names b)) (scanForRefs parseElko s)
         (fun o b => aliased ref keys b /\
                     exists op, get_prop o "op" = Ok (VStr op) /\ op <> "delete")
         (aliased ref keys).
Proof.
  intros (fields & payload & Ho & Hto & Hop & Href) Huser Hproto Hkeys.
  unfold scanForRefs. rewrite Ho.
  apply (triple_bind_lift_ok _ _ _ _ _ _ (get_prop_obj fields "to")).
  eapply triple_bind with (R := fun _ b => dashless (names b)).
  { apply triple_when; [intros Ht|auto].
    destruct Hto as [Hto|[t Hto]]; rewrite Hto in *; simpl in Ht; [discriminate|].
    apply triple_modify. intros b Hb. apply dashless_addNames, Hb. }
  intros _.
  apply (triple_bind_lift_ok _ _ _ _ _ _ (get_prop_obj fields "op")).
  destruct Hop as [[Hop Hobj]|[Hop Hobj]]; rewrite Hop; cbn.
  - apply triple_bind_ret.
    eapply triple_bind with (R := fun _ => aliased ref keys).
    + apply (introduce_aliases _ payload); try assumption.
      rewrite get_prop_obj, Hobj. reflexivity.
    + intros _. apply triple_ret. intros b Hb. split; [exact Hb|].
      exists "make". rewrite get_prop_obj, Hop. split; [reflexivity|discriminate].
  - eapply triple_bind
      with (R := fun o1 b => o1 = VObj (set_field "obj" payload fields)
                             /\ dashless (names b)).
    + apply (triple_bind_lift_ok _ payload).
      * rewrite Hobj. reflexivity.
      * apply triple_ret. intros b Hb. split; [reflexivity|exact Hb].
    + intros o1. apply triple_pure. intros ->.
      eapply triple_bind with (R := fun _ => aliased ref keys).
      * apply (introduce_aliases _ payload); try assumption.
        rewrite get_prop_obj, assoc_set_field_eq. reflexivity.
      * intros _. apply triple_ret. intros b Hb. split; [exact Hb|].
        exists "HEREIS_$". rewrite get_prop_obj, assoc_set_field_ne, Hop by discriminate.
        split; [reflexivity|discriminate].
Qed.

(** The dispatch of a message that is no deletion leaves the aliases. *)
Lemma dispatch_keeps_names o op (I : Bot -> Prop) :
  get_prop o "op" = Ok (VStr op) -> op <> "delete" ->
  (forall b b', names b' = names b -> I b -> I b') ->
  keeps I (dispatch o).
Proof.
  intros Hop Hne HI. unfold dispatch.
  destruct (negb (is_nullish o)); [|apply keeps_ret].
  apply (triple_bind_lift_ok _ _ _ _ _ _ Hop).
  apply keeps_bind; [apply keeps_gets|intros cbs].
  apply keeps_bind.
  { apply keeps_when, keeps_modify. intros b Hb.
    exact (HI _ _ (names_run_callbacks _ _ b) Hb). }
  intros _. apply keeps_bind.
  { apply keeps_modify. intros b Hb. exact (HI _ _ (names_run_callbacks _ _ b) Hb). }
  intros _. simpl. apply String.eqb_neq in Hne. rewrite Hne. apply keeps_ret.
Qed.

(** The mirror on a message that deletes [ref]: it comes back as it is. *)
Lemma scanForRefs_deletes s ref fields :
  parseElko s = VObj fields ->
  assoc "op" fields = Some (VStr "delete") ->
  assoc "to" fields = Some (VStr ref) ->
  triple (fun b => dashless (names b)) (scanForRefs parseElko s)
         (fun o b => o = VObj fields /\ dashless (names b))
         (fun _ => False).
Proof.
  intros Ho Hop Hto. unfold scanForRefs. rewrite Ho.
  apply (triple_bind_lift_ok _ _ _ _ _ _ (get_prop_obj fields "to")).
  rewrite Hto. cbn [default].
  eapply triple_bind with (R := fun _ b => dashless (names b)).
  { apply triple_when; [intros _|auto].
    apply triple_modify. intros b Hb. apply dashless_addNames, Hb. }
  intros _.
  apply (triple_bind_lift_ok _ _ _ _ _ _ (get_prop_obj fields "op")).
  rewrite Hop. cbn.
  apply triple_bind_ret. apply triple_bind_ret.
  apply triple_ret. auto.
Qed.

(** The removal of [ref] leaves none of its dash-segments in the table. *)
Lemma forget_unaliases fields ref keys :
  assoc "to" fields = Some (VStr ref) ->
  Forall (fun k => k ∈ split "-" ref) keys ->
  triple (fun b => dashless (names b)) (forget (VObj fields))
         (fun _ => unaliased keys) (unaliased keys).
Proof.
  intros Hto Hkeys. unfold forget.
  apply (triple_bind_lift_ok _ _ _ _ _ _ (get_prop_obj fields "to")).
  rewrite Hto. cbn [default].
  eapply triple_bind with (R := fun _ b => dashless (names b)).
  { apply triple_gets. auto. }
  intros h.
  eapply triple_bind with (R := fun _ => unaliased keys).
  { apply triple_modify. intros b Hb. split; simpl.
    - apply dashless_clearNames, Hb.
    - apply Forall_forall. intros k Hk. rewrite Forall_forall in Hkeys.
      rewrite clearNames_str_lookup, decide_True; [reflexivity|].
      apply segments_are_aliases, Hkeys, Hk. }
  intros _.
  change (keeps (unaliased keys)
    (run! has_obj := lift (has_prop "obj" (default VUndef (h !! to_string (VStr ref)))) in
     run! is_avatar :=
       (if has_obj then
          run! ty := lift (first_mod_type (default VUndef (h !! to_string (VStr ref)))) in
          ret (strict_eq_str ty "Avatar")
        else ret false) in
     when is_avatar
       (run! name := lift (try! inner := get_prop (default VUndef (h !! to_string (VStr ref))) "obj" in
                           get_prop inner "name") in
        modify (fun b => set_avatars (delete (to_string name) (avatars b)) b)) ;;;
     modify (fun b => set_history (delete (to_string (VStr ref)) (history b)) b))).
  keeps_auto;
    match goal with
    | H : unaliased _ _ |- unaliased _ _ => refine (unaliased_same _ _ _ _ H); reflexivity
    end.
Qed.

End AliasLifecycle.

Lemma triple_snd {A} (P I : Bot -> Prop) (m : M A) b :
  triple P m (fun _ => I) I -> P b -> I (snd (m b)).
Proof.
  intros H Hb. specialize (H b Hb). destruct (m b) as [[x|e] b']; exact H.
Qed.

Lemma contains_ref3 a b c : contains "-" (ref3 a b c) = true.
Proof. unfold ref3. rewrite append_cons, append_empty_l. apply contains_app_sep. Qed.

Lemma contains_pair2 a b : contains "-" (pair2 a b) = true.
Proof. unfold pair2. rewrite append_cons, append_empty_l. apply contains_app_sep. Qed.

Lemma segments_ref3 a b c :
  dash_free a -> dash_free b -> dash_free c ->
  Forall (fun k => k ∈ split "-" (ref3 a b c)) [a; b; c].
Proof.
  intros Ha Hb Hc. unfold ref3. rewrite (split_three a b c Ha Hb Hc).
  repeat constructor.
Qed.

(** C3, as amended.  For a ref [a-b-c] whose segments are neither the
    reserved alias [USER] nor the name of a member of [Object.prototype]
    (an assignment to [__proto__] makes no entry, and a name such as
    [constructor] is found in the table when the table has no entry for
    it): once the mirror has processed a message that introduces the ref,
    the alias table maps [a], [b] and [c] to [a-b-c], and
    [substituteName] leaves [a-b-c] itself as it is, while [a-b] and [b-c]
    are no aliases: the table has no entry for them.  Once the mirror has
    processed the message that deletes it, none of [a], [b], [c], [a-b],
    [b-c] and [a-b-c] is in the table. *)
Theorem alias_lifecycle (parseElko : string -> value) (a b c : string)
    (blob1 blob2 s1 s2 : string) (bt : Bot) :
  dash_free a -> dash_free b -> dash_free c ->
  a <> "USER" -> b <> "USER" -> c <> "USER" ->
  inherited a = false -> inherited b = false -> inherited c = false ->
  dashless (names bt) ->
  deframe blob1 = [s1] -> introduces (parseElko s1) (ref3 a b c) ->
  deframe blob2 = [s2] -> deletes (parseElko s2) (ref3 a b c) ->
  (names (snd (processData parseElko blob1 bt)) !! a = Some (ref3 a b c) /\
   names (snd (processData parseElko blob1 bt)) !! b = Some (ref3 a b c) /\
   names (snd (processData parseElko blob1 bt)) !! c = Some (ref3 a b c) /\
   substituteName (snd (processData parseElko blob1 bt)) (VStr (ref3 a b c))
     = VStr (ref3 a b c) /\
   names (snd (processData parseElko blob1 bt)) !! pair2 a b = None /\
   names (snd (processData parseElko blob1 bt)) !! pair2 b c = None) /\
  Forall (fun k => names (snd (processData parseElko blob2
                                 (snd (processData parseElko blob1 bt)))) !! k = None)
         [a; b; c; pair2 a b; pair2 b c; ref3 a b c].
Proof.
  intros Ha Hb Hc Hua Hub Huc Hia Hib Hic Hd Hf1 Hi Hf2 (fields & Ho & Hop & Hto).
  assert (Huser : "USER" ∉ [a; b; c]).
  { intros H. repeat (apply elem_of_cons in H as [H|H]; [congruence|]). inversion H. }
  assert (Hproto : "__proto__" ∉ [a; b; c]).
  { intros H.
    repeat (apply elem_of_cons in H as [H|H]; [subst; discriminate|]). inversion H. }
  pose proof (segments_ref3 a b c Ha Hb Hc) as Hseg.
  assert (H1 : aliased (ref3 a b c) [a; b; c] (snd (processData parseElko blob1 bt))).
  { rewrite (processData_single parseElko blob1 s1 bt Hf1).
    apply (triple_snd (fun b => dashless (names b))); [|exact Hd].
    eapply triple_bind.
    - exact (scanForRefs_introduces parseElko s1 _ _ Hi Huser Hproto Hseg).
    - intros o. cbv beta.
      intros b0 [Hal (op & Hop' & Hne)].
      refine (dispatch_keeps_names o op _ Hop' Hne _ b0 Hal).
      intros ? ? E. apply aliased_same, E. }
  set (bt1 := snd (processData parseElko blob1 bt)) in *.
  destruct H1 as [Hd1 Hall1].
  assert (H2 : unaliased [a; b; c] (snd (processData parseElko blob2 bt1))).
  { rewrite (processData_single parseElko blob2 s2 bt1 Hf2).
    apply (triple_snd (fun b => dashless (names b))); [|exact Hd1].
    eapply triple_bind.
    - eapply triple_conseq;
        [exact (scanForRefs_deletes parseElko s2 _ fields Ho Hop Hto)
        | auto | intros o b0 H; exact H | intros b0 []].
    - intros o. apply triple_pure. intros ->. unfold dispatch. cbn [is_nullish negb].
      apply (triple_bind_lift_ok _ _ _ _ _ _ (get_prop_obj fields "op")).
      rewrite Hop. cbn [default].
      eapply triple_bind with (R := fun _ b => dashless (names b)).
      { apply triple_gets. auto. }
      intros cbs.
      eapply triple_bind with (R := fun _ b => dashless (names b)).
      { apply triple_when; [intros _|auto]. apply triple_modify.
        intros b0 Hb0. rewrite names_run_callbacks. exact Hb0. }
      intros _.
      eapply triple_bind with (R := fun _ b => dashless (names b)).
      { apply triple_modify. intros b0 Hb0. rewrite names_run_callbacks. exact Hb0. }
      intros _. cbn.
      exact (forget_unaliases fields _ _ Hto Hseg). }
  set (bt2 := snd (processData parseElko blob2 bt1)) in *.
  destruct H2 as [Hd2 Hall2].
  inversion Hall1 as [|? ? Ea Hall1']; subst.
  inversion Hall1' as [|? ? Eb Hall1'']; subst.
  inversion Hall1'' as [|? ? Ec _]; subst.
  inversion Hall2 as [|? ? Na Hall2']; subst.
  inversion Hall2' as [|? ? Nb Hall2'']; subst.
  inversion Hall2'' as [|? ? Nc _]; subst.
  split.
  - repeat split; try assumption.
    + unfold substituteName. cbn [to_string].
      rewrite (dashless_miss _ _ Hd1 (contains_ref3 a b c)). reflexivity.
    + apply (dashless_miss _ _ Hd1 (contains_pair2 a b)).
    + apply (dashless_miss _ _ Hd1 (contains_pair2 b c)).
  - repeat constructor; try assumption.
    + apply (dashless_miss _ _ Hd2 (contains_pair2 a b)).
    + apply (dashless_miss _ _ Hd2 (contains_pair2 b c)).
    + apply (dashless_miss _ _ Hd2 (contains_ref3 a b c)).
Qed.

Lemma sample_introduces :
  introduces (Sample.parse Sample.frame_make) (ref3 "user" "randy" "100").
Proof.
  eexists _, Sample.randy_obj. split; [reflexivity|].
  split; [right; eexists; reflexivity|].
  split; [left; split; reflexivity|reflexivity].
Qed.

Lemma sample_deletes :
  deletes (Sample.parse Sample.frame_delete) (ref3 "user" "randy" "100").
Proof. eexists. split; [reflexivity|]. split; reflexivity. Qed.

Lemma alias_lifecycle_witness :
  (names Sample.in_region !! "user" = Some "user-randy-100" /\
   names Sample.in_region !! "randy" = Some "user-randy-100" /\
   names Sample.in_region !! "100" = Some "user-randy-100" /\
   substituteName Sample.in_region (VStr "user-randy-100") = VStr "user-randy-100" /\
   names Sample.in_region !! "user-randy" = None /\
   names Sample.in_region !! "randy-100" = None) /\
  Forall (fun k => names (snd (processData Sample.parse Sample.frame_delete
                                 Sample.in_region)) !! k = None)
         ["user"; "randy"; "100"; "user-randy"; "randy-100"; "user-randy-100"].
Proof.
  refine (alias_lifecycle Sample.parse "user" "randy" "100"
            Sample.frame_make Sample.frame_delete Sample.frame_make Sample.frame_delete
            Sample.online _ _ _ _ _ _ _ _ _ _ _ sample_introduces _ sample_deletes);
    try reflexivity; try discriminate.
Defined.

(** C3, as stated, fails: after the introduction of [user-randy-100] the
    two-segment string [user-randy] is no alias, and the lookup does not
    take it to the ref.  And a segment [__proto__] gets no entry when the
    aliases of its ref are added, while the other segments do. *)
Lemma alias_of_two_segments_missing :
  introduces (Sample.parse Sample.frame_make) "user-randy-100" /\
  Sample.in_region = snd (processData Sample.parse Sample.frame_make Sample.online) /\
  names Sample.in_region !! "user-randy" = None /\
  substituteName Sample.in_region (VStr "user-randy") <> VStr "user-randy-100" /\
  addNames_str "a-__proto__-c" ∅ !! "__proto__" = None /\
  addNames_str "a-__proto__-c" ∅ !! "a" = Some "a-__proto__-c".
Proof.
  split; [exact sample_introduces|]. split; [reflexivity|].
  split; [vm_compute; reflexivity|]. split; [vm_compute; discriminate|].
  split; vm_compute; reflexivity.
Qed.

(** ** The alias table of a running client is dashless *)

Section Dashless.

Variable parseElko : string -> value.

Ltac keeps_cases :=
  repeat first
    [ keeps_step
    | match goal with
      | |- keeps _ (match ?x with _ => _ end) => destruct x
      end ].

Lemma dashless_addNames_value v : keeps (fun b => dashless (names b)) (addNames v).
Proof.
  destruct v; try apply keeps_throw.
  apply keeps_modify. intros b Hb. apply dashless_addNames, Hb.
Qed.

Lemma dashless_clearNames_value v : keeps (fun b => dashless (names b)) (clearNames v).
Proof.
  destruct v; try apply keeps_throw.
  apply keeps_modify. intros b Hb. apply dashless_clearNames, Hb.
Qed.

Lemma dashless_run_callbacks key msg b :
  dashless (names b) -> dashless (names (run_callbacks key msg b)).
Proof. rewrite names_run_callbacks. auto. Qed.

Lemma dashless_introduce o : keeps (fun b => dashless (names b)) (introduce o).
Proof.
  unfold introduce. cbv zeta.
  apply keeps_bind; [apply keeps_lift|intros obj].
  apply keeps_bind; [apply keeps_lift|intros ref].
  apply keeps_bind; [apply dashless_addNames_value|intros _].
  keeps_cases; simpl; try assumption;
    try (apply dashless_insert; [reflexivity|assumption]).
  apply dashless_run_callbacks. assumption.
Qed.

Lemma dashless_scanForRefs s : keeps (fun b => dashless (names b)) (scanForRefs parseElko s).
Proof.
  unfold scanForRefs.
  apply keeps_bind; [apply keeps_lift|intros to].
  apply keeps_bind; [apply keeps_when, dashless_addNames_value|intros _].
  apply keeps_bind; [apply keeps_lift|intros op].
  apply keeps_if; [apply keeps_ret|].
  apply keeps_bind; [keeps_cases|intros o1].
  apply keeps_bind; [apply keeps_when, dashless_introduce|intros _].
  apply keeps_ret.
Qed.

Lemma dashless_dispatch o : keeps (fun b => dashless (names b)) (dispatch o).
Proof.
  unfold dispatch, forget.
  apply keeps_if; [|apply keeps_ret].
  apply keeps_bind; [apply keeps_lift|intros op].
  apply keeps_bind; [apply keeps_gets|intros cbs].
  apply keeps_bind.
  { apply keeps_when, keeps_modify. intros b. apply dashless_run_callbacks. }
  intros _. apply keeps_bind.
  { apply keeps_modify. intros b. apply dashless_run_callbacks. }
  intros _. apply keeps_when.
  apply keeps_bind; [apply keeps_lift|intros to].
  apply keeps_bind; [apply keeps_gets|intros h].
  apply keeps_bind; [apply dashless_clearNames_value|intros _].
  keeps_cases; simpl; assumption.
Qed.

Lemma dashless_process_frames frames o :
  keeps (fun b => dashless (names b)) (process_frames parseElko frames o).
Proof.
  revert o. induction frames as [|f frames IH]; intros o; simpl.
  - apply keeps_ret.
  - apply keeps_bind; [apply dashless_scanForRefs|intros o'; apply IH].
Qed.

(** Whatever arrives, the alias table stays dashless; it is so after
    [clearState]. *)
Lemma dashless_processData blob b :
  dashless (names b) -> dashless (names (snd (processData parseElko blob b))).
Proof.
  intros Hb. rewrite processData_frames.
  apply (triple_snd (fun b => dashless (names b))); [|exact Hb].
  apply keeps_bind; [apply dashless_process_frames|intros o; apply dashless_dispatch].
Qed.

Lemma dashless_clearState b : dashless (names (clearState b)).
Proof. apply dashless_empty. Qed.

End Dashless.

(** ** Dispatch to the reactions *)

(** C2 fails on the code.  Two complete frames in one chunk, [APPEARING_$]
    then [SPEAK$], with reactions 0 and 1 registered for [APPEARING_$] and
    reaction 2 for [msg]: the only reaction invoked is 2, once, with the
    second message.  The same frames in two chunks invoke 0, 1 and 2 with
    the first message and 2 with the second. *)
Theorem dispatch_last_frame_only :
  trace (snd (processData Sample.parse
                (Sample.frame_appearing ++ Sample.frame_speak) Sample.listening))
  = (trace Sample.listening ++ [EvCall "msg" 2 Sample.speak])%list
  /\ trace (snd (processData Sample.parse Sample.frame_speak
                   (snd (processData Sample.parse Sample.frame_appearing
                           Sample.listening))))
     = (trace Sample.listening ++
        [EvCall "APPEARING_$" 0 Sample.appearing;
         EvCall "APPEARING_$" 1 Sample.appearing;
         EvCall "msg" 2 Sample.appearing;
         EvCall "msg" 2 Sample.speak])%list.
Proof. split; vm_compute; reflexivity. Qed.

(** ** Accessors *)

(** C9 fails on the code for [getMod].  For an id that the noid table does
    not have, [getNoid] returns [null], and [getMod], which reads [mods]
    of that result, throws. *)
Theorem getMod_unknown_noid_throws (b : Bot) (id : value) :
  noids b !! to_string id = None ->
  fst (getNoid id b) = Ok VNull /\ fst (getMod id b) = Throw TypeError.
Proof.
  intros H. unfold getMod, getNoid, bind, gets, modify, ret, lift.
  rewrite H. simpl. split; reflexivity.
Qed.

Lemma getMod_unknown_noid_throws_witness :
  fst (getNoid (VNum 7) Sample.in_region) = Ok VNull
  /\ fst (getMod (VNum 7) Sample.in_region) = Throw TypeError.
Proof.
  apply (getMod_unknown_noid_throws Sample.in_region (VNum 7)).
  vm_compute. reflexivity.
Defined.

(** ** The connection *)

(** C8 fails on the code.  With the host unset, or with the port unset and
    a host that has no property [this], [connect()] throws while it
    evaluates the arguments of the diagnostic: nothing is logged, no
    socket is opened and the client is left as it was. *)
Theorem connect_unset_throws (b : Bot) :
  host b = VUndef \/ (port b = VUndef /\ get_prop (host b) "this" = Ok VUndef) ->
  connect b = (Throw TypeError, b).
Proof.
  unfold connect, bind, gets, lift, modify.
  intros [H|[Hp Hh]].
  - rewrite H. reflexivity.
  - rewrite Hp, Hh, orb_true_r. reflexivity.
Qed.

Lemma connect_unset_throws_witness :
  connect (constructor VUndef (VNum 1337) (VStr "pcollins"))
  = (Throw TypeError, constructor VUndef (VNum 1337) (VStr "pcollins"))
  /\ connect (constructor (VStr "127.0.0.1") VUndef (VStr "pcollins"))
     = (Throw TypeError, constructor (VStr "127.0.0.1") VUndef (VStr "pcollins")).
Proof.
  split.
  - apply (connect_unset_throws (constructor VUndef (VNum 1337) (VStr "pcollins"))).
    left. reflexivity.
  - apply (connect_unset_throws (constructor (VStr "127.0.0.1") VUndef (VStr "pcollins"))).
    right. split; reflexivity.
Defined.

(** ** The substitution engine *)

Section Substitution.

Variable b : Bot.

Lemma loop_plain_field name m keys vars v :
  assoc "hasOwnProperty" m = None ->
  assoc name m = Some v -> plain v ->
  substituteState_loop b (name :: keys) m vars = substituteState_loop b keys m vars.
Proof.
  intros Hh Hv Hp. cbn [substituteState_loop]. rewrite Hh, Hv.
  destruct v; try reflexivity. simpl in Hp. rewrite Hp. reflexivity.
Qed.

(** A command with a field [hasOwnProperty] of its own: the first call of
    [m.hasOwnProperty] throws. *)
Lemma loop_own_hasOwnProperty name m keys vars x :
  assoc "hasOwnProperty" m = Some x ->
  substituteState_loop b (name :: keys) m vars = (Throw TypeError, m).
Proof. intros Hh. cbn [substituteState_loop]. rewrite Hh. reflexivity. Qed.

Lemma assoc_plain name m v :
  Forall (fun f => plain (snd f)) m -> assoc name m = Some v -> plain v.
Proof.
  induction 1 as [|[k x] rest Hx _ IH]; simpl; [discriminate|].
  destruct (String.eqb k name); [intros [= <-]; exact Hx|exact IH].
Qed.

(** Over an object without dollar signs the loop changes nothing. *)
Lemma substituteState_loop_plain m keys vars :
  assoc "hasOwnProperty" m = None ->
  Forall (fun f => plain (snd f)) m ->
  substituteState_loop b keys m vars = (Ok tt, m).
Proof.
  intros Hh Hm. induction keys as [|name keys IH]; [reflexivity|].
  destruct (assoc name m) as [v|] eqn:Hv.
  - rewrite (loop_plain_field name m keys vars v Hh Hv (assoc_plain _ _ _ Hm Hv)). exact IH.
  - cbn [substituteState_loop]. rewrite Hh, Hv. exact IH.
Qed.

Lemma assoc_replaced x k v1 v2 (pre post : list (string * value)) :
  assoc x (pre ++ (k, v1) :: post) = None -> assoc x (pre ++ (k, v2) :: post) = None.
Proof.
  induction pre as [|[k0 y] pre IH]; cbn [app assoc].
  - destruct (String.eqb k x); [discriminate|auto].
  - destruct (String.eqb k0 x); [discriminate|exact IH].
Qed.

Lemma assoc_app_l name (pre rest : list (string * value)) :
  name ∈ map fst pre -> assoc name (pre ++ rest) = assoc name pre.
Proof.
  induction pre as [|[k x] pre IH]; simpl; intros H; [inversion H|].
  destruct (String.eqb k name) eqn:Hk; [reflexivity|].
  apply IH. apply elem_of_cons in H as [H|H]; [|exact H].
  apply String.eqb_neq in Hk. congruence.
Qed.

Lemma assoc_app_r name (pre rest : list (string * value)) :
  name ∉ map fst pre -> assoc name (pre ++ rest) = assoc name rest.
Proof.
  induction pre as [|[k x] pre IH]; simpl; intros H; [reflexivity|].
  destruct (String.eqb k name) eqn:Hk.
  - apply String.eqb_eq in Hk. subst k. exfalso. apply H. left.
  - apply IH. intros Hin. apply H. right. exact Hin.
Qed.

Lemma set_field_app_r name x (pre rest : list (string * value)) :
  name ∉ map fst pre -> set_field name x (pre ++ rest) = (pre ++ set_field name x rest)%list.
Proof.
  induction pre as [|[k y] pre IH]; simpl; intros H; [reflexivity|].
  destruct (String.eqb k name) eqn:Hk.
  - apply String.eqb_eq in Hk. subst k. exfalso. apply H. left.
  - rewrite IH; [reflexivity|]. intros Hin. apply H. right. exact Hin.
Qed.

Lemma loop_skip_prefix pre keys m vars :
  assoc "hasOwnProperty" m = None ->
  Forall (fun f => plain (snd f)) pre ->
  (forall name, name ∈ map fst pre -> assoc name m = assoc name pre) ->
  substituteState_loop b (map fst pre ++ keys) m vars
  = substituteState_loop b keys m vars.
Proof.
  intros Hh Hpre Hm.
  assert (Hgen : forall ks, (forall name, name ∈ ks -> name ∈ map fst pre) ->
            substituteState_loop b (ks ++ keys) m vars
            = substituteState_loop b keys m vars).
  { induction ks as [|name ks IH]; intros Hks; [reflexivity|].
    assert (Hin : name ∈ map fst pre) by (apply Hks; left).
    assert (Hrest : forall n, n ∈ ks -> n ∈ map fst pre) by (intros n Hn; apply Hks; right; exact Hn).
    simpl app. destruct (assoc name pre) as [v|] eqn:Hv.
    - rewrite (loop_plain_field name m _ vars v); [exact (IH Hrest)|exact Hh| |].
      + rewrite Hm by exact Hin. exact Hv.
      + exact (assoc_plain _ _ _ Hpre Hv).
    - cbn [substituteState_loop]. rewrite Hh, (Hm name Hin), Hv. exact (IH Hrest). }
  apply Hgen. auto.
Qed.

(** A command whose one field with a dollar sign is [k]: the field takes
    the value the substitution gives, the others stay. *)
Lemma substituteState_one_field pre post k p v vars' :
  assoc "hasOwnProperty" (pre ++ (k, VStr p) :: post) = None ->
  Forall (fun f => plain (snd f)) pre -> Forall (fun f => plain (snd f)) post ->
  k ∉ map fst pre ->
  contains "$" p = true ->
  substitute_prop b p (mkVars VUndef VUndef) = Ok (v, vars') ->
  plain v ->
  substituteState b (pre ++ (k, VStr p) :: post) = (Ok tt, (pre ++ (k, v) :: post)%list).
Proof.
  intros Hh Hpre Hpost Hk Hp Hsub Hv. unfold substituteState.
  rewrite map_app. rewrite (loop_skip_prefix pre).
  - cbn [map fst substituteState_loop]. rewrite Hh.
    rewrite (assoc_app_r k pre _ Hk). cbn [assoc]. rewrite String.eqb_refl, Hp, Hsub.
    rewrite (set_field_app_r k v pre _ Hk). cbn [set_field]. rewrite String.eqb_refl.
    apply substituteState_loop_plain.
    + exact (assoc_replaced _ _ _ _ _ _ Hh).
    + apply Forall_app. split; [exact Hpre|]. constructor; [exact Hv|exact Hpost].
  - exact Hh.
  - exact Hpre.
  - intros name Hin. apply assoc_app_l, Hin.
Qed.

End Substitution.

Section Randy.

Variable b : Bot.
Variables (ref : string) (record : value) (ofields mfields : list (string * value)).

Hypothesis me_alias : names b !! "ME" = Some ref.
Hypothesis ref_nonempty : ref <> "".
Hypothesis me_record : history b !! ref = Some record.
Hypothesis record_obj : get_prop record "obj" = Ok (VObj ofields).
Hypothesis one_mod : assoc "mods" ofields = Some (VArr [VObj mfields]).

Lemma substituteName_me : to_string (substituteName b (VStr "ME")) = ref.
Proof.
  unfold substituteName. cbn [to_string]. rewrite me_alias. cbn [truthy].
  apply String.eqb_neq in ref_nonempty. rewrite ref_nonempty. reflexivity.
Qed.

Lemma bind_record_me vars :
  bind_record record vars = Ok (mkVars (VObj ofields) (VObj mfields)).
Proof.
  unfold bind_record. rewrite record_obj. cbn [rbind is_undefined negb].
  rewrite get_prop_obj, one_mod. reflexivity.
Qed.

(** A path that starts with [ME] is resolved on the record of the avatar,
    whatever the variables held before. *)
Lemma resolve_chunk_me chunk rest vars :
  split "." chunk = "ME" :: rest ->
  resolve_chunk b chunk vars
  = (try! v := resolve_segments rest record (mkVars (VObj ofields) (VObj mfields)) in
     Ok (v, mkVars (VObj ofields) (VObj mfields))).
Proof.
  intros Hs. unfold resolve_chunk. rewrite Hs, substituteName_me, me_record.
  rewrite bind_record_me. reflexivity.
Qed.

Hypothesis mod_noid : assoc "noid" mfields = Some (VNum 42).
Hypothesis obj_name : assoc "name" ofields = Some (VStr "Randy").
Hypothesis mod_no_name : assoc "name" mfields = None.

Lemma substitute_noid vars :
  substitute_prop b "$ME.mods.noid" vars
  = Ok (VNum 42, mkVars (VObj ofields) (VObj mfields)).
Proof.
  unfold substitute_prop. cbn [split Ascii.eqb Bool.eqb resolve_chunks].
  rewrite (resolve_chunk_me "ME.mods.noid" ["mods"; "noid"]) by reflexivity.
  unfold resolve_segments, resolve_segment, defined_in. cbn [var_mod var_obj is_undefined negb].
  rewrite !get_prop_obj, one_mod, mod_noid.
  destruct (assoc "mods" mfields) as [x|]; [destruct x|]; reflexivity.
Qed.

Hypothesis no_bang_alias : names b !! "!" = None.
Hypothesis no_bang_object : history b !! "!" = None.

Lemma substitute_name vars :
  substitute_prop b "hello $ME.name$!" vars
  = Ok (VStr "hello Randy!", mkVars (VObj ofields) (VObj mfields)).
Proof.
  unfold substitute_prop. cbn [split Ascii.eqb Bool.eqb resolve_chunks].
  rewrite (resolve_chunk_me "ME.name" ["name"]) by reflexivity.
  unfold resolve_segments, resolve_segment, defined_in. cbn [var_mod var_obj is_undefined negb].
  rewrite !get_prop_obj, mod_no_name, obj_name.
  cbn [id default is_undefined negb rbind fst snd].
  unfold resolve_chunk. cbn [split Ascii.eqb Bool.eqb].
  unfold substituteName. cbn [to_string]. rewrite no_bang_alias.
  cbn [to_string]. rewrite no_bang_object.
  reflexivity.
Qed.

End Randy.

Lemma assoc_absent x (m : list (string * value)) : x ∉ map fst m -> assoc x m = None.
Proof.
  induction m as [|[k v] m IH]; cbn [map fst assoc]; intros H; [reflexivity|].
  destruct (String.eqb k x) eqn:E.
  - apply String.eqb_eq in E. subst k. exfalso. apply H. left.
  - apply IH. intros Hin. apply H. right. exact Hin.
Qed.




(** ** The corporation retry loop *)

Lemma getAvatar_reads b : snd (getAvatar b) = b.
Proof.
  unfold getAvatar, bind, gets, lift, ret. cbn.
  destruct (names b !! "ME"); reflexivity.
Qed.

Lemma isGhosted_reads b : snd (isGhosted b) = b.
Proof.
  unfold isGhosted, bind. pose proof (getAvatar_reads b) as H.
  destruct (getAvatar b) as [[avatar|e] b']; simpl in H; subst b'; [|reflexivity].
  destruct (negb (is_nullish avatar)); reflexivity.
Qed.

Lemma tryEnsureCorporated_ghost b ghosted curTry :
  fst (isGhosted b) = Ok ghosted -> truthy ghosted = true ->
  names b !! "GHOST" = None ->
  fst (tryEnsureCorporated curTry b)
  = Ok (if curTry <? 5 then Retry 2000 (curTry + 1)
        else GiveUp "Could not ensure corporation after 5 tries.").
Proof.
  intros Hg Ht Hn. unfold tryEnsureCorporated, bind.
  pose proof (isGhosted_reads b) as Hb.
  destruct (isGhosted b) as [r b']. simpl in Hg, Hb. subst r b'.
  rewrite Ht. unfold gets. rewrite Hn. cbn.
  destruct (curTry <? 5); reflexivity.
Qed.

(** C6 fails on the code.  On a mirror where the avatar is a ghost and
    [GHOST] is no alias, every poll calls [ensureCorporated], which starts
    again at try 0: however many timers are followed, each is a poll 2000
    ms after the one before and the promise has not settled.  The bound is
    there, [tryEnsureCorporated(5)] gives up, but no call reaches it. *)
Theorem ensureCorporated_polls_forever (b : Bot) (ghosted : value) :
  fst (isGhosted b) = Ok ghosted -> truthy ghosted = true ->
  names b !! "GHOST" = None ->
  (forall n now,
     follow n b now (fst (ensureCorporated [] b))
     = (map (fun i => now + 2000 * Z.of_nat (S i)) (seq 0 n), None))
  /\ fst (tryEnsureCorporated 5 b)
     = Ok (GiveUp "Could not ensure corporation after 5 tries.").
Proof.
  intros Hg Ht Hn. split.
  - assert (H0 : forall args, fst (ensureCorporated args b) = Ok (Retry 2000 1)).
    { intros args. unfold ensureCorporated.
      rewrite (tryEnsureCorporated_ghost b ghosted 0 Hg Ht Hn). reflexivity. }
    intros n now. rewrite H0. revert now.
    induction n as [|n IH]; intros now; [reflexivity|].
    cbn [follow]. rewrite H0, IH. cbn [fst snd seq map]. f_equal. f_equal; try lia.
    rewrite <- seq_shift, map_map. apply map_ext. intros i. lia.
  - rewrite (tryEnsureCorporated_ghost b ghosted 5 Hg Ht Hn). reflexivity.
Qed.

Lemma ensureCorporated_polls_forever_witness :
  (forall n now,
     follow n Sample.ghosted now (fst (ensureCorporated [] Sample.ghosted))
     = (map (fun i => now + 2000 * Z.of_nat (S i)) (seq 0 n), None))
  /\ fst (tryEnsureCorporated 5 Sample.ghosted)
     = Ok (GiveUp "Could not ensure corporation after 5 tries.").
Proof.
  apply (ensureCorporated_polls_forever Sample.ghosted (VBool true));
    vm_compute; reflexivity.
Defined.

Example seven_polls_and_still_waiting :
  follow 7 Sample.ghosted 0 (fst (ensureCorporated [] Sample.ghosted))
  = ([2000; 4000; 6000; 8000; 10000; 12000; 14000], None).
Proof. vm_compute. reflexivity. Qed.

(** ** What a send does to the caller's object *)

Section InPlace.

Variable b : Bot.

Lemma set_field_keys k x (m : list (string * value)) v :
  assoc k m = Some v -> map fst (set_field k x m) = map fst m.
Proof.
  induction m as [|[k' y] m IH]; simpl; [discriminate|].
  destruct (String.eqb k' k); simpl; [reflexivity|].
  intros H. rewrite (IH H). reflexivity.
Qed.

Lemma plain_dollar p : plain (VStr p) -> contains "$" p = true -> False.
Proof. simpl. congruence. Qed.

(** The loop over the keys [ks] of [m]: the keys of the object stay, a
    field that is passed over or not visited keeps its value, and, when
    the loop ends well, every visited field with a dollar sign holds what
    the substitution gave for it. *)
Lemma substituteState_loop_spec ks : forall m vars r m',
  NoDup ks ->
  substituteState_loop b ks m vars = (r, m') ->
  map fst m' = map fst m
  /\ (forall k v, assoc k m = Some v -> k ∉ ks \/ plain v -> assoc k m' = Some v)
  /\ (r = Ok tt ->
      forall k p, k ∈ ks -> assoc k m = Some (VStr p) -> contains "$" p = true ->
        exists vars1 v vars2,
          substitute_prop b p vars1 = Ok (v, vars2) /\ assoc k m' = Some v).
Proof.
  induction ks as [|name ks IH]; intros m vars r m' Hnd Hloop.
  - cbn in Hloop. injection Hloop as <- <-.
    split; [reflexivity|]. split; [auto|]. intros _ k p Hk. inversion Hk.
  - apply NoDup_cons in Hnd as [Hname Hnd].
    assert (Hskip : substituteState_loop b ks m vars = (r, m') ->
              (forall p, assoc name m = Some (VStr p) -> contains "$" p = false) ->
              map fst m' = map fst m
              /\ (forall k v, assoc k m = Some v -> k ∉ name :: ks \/ plain v ->
                    assoc k m' = Some v)
              /\ (r = Ok tt ->
                  forall k p, k ∈ name :: ks -> assoc k m = Some (VStr p) ->
                    contains "$" p = true ->
                    exists vars1 v vars2,
                      substitute_prop b p vars1 = Ok (v, vars2) /\ assoc k m' = Some v)).
    { intros Hl Hno. destruct (IH m vars r m' Hnd Hl) as (H1 & H2 & H3).
      split; [exact H1|]. split.
      - intros k v Hv [Hk|Hp]; apply (H2 k v Hv); [left|right; exact Hp].
        intros Hin. apply Hk. right. exact Hin.
      - intros Hr k p Hk Hv Hd. apply elem_of_cons in Hk as [->|Hk].
        + rewrite (Hno p Hv) in Hd. discriminate.
        + exact (H3 Hr k p Hk Hv Hd). }
    cbn [substituteState_loop] in Hloop.
    destruct (assoc "hasOwnProperty" m) as [own|] eqn:Hown.
    { injection Hloop as <- <-. split; [reflexivity|]. split; [auto|]. discriminate. }
    destruct (assoc name m) as [v0|] eqn:Hv0;
      [|apply Hskip; [exact Hloop|discriminate]].
    destruct v0 as [| |?|?|p0|?|?];
      try (apply Hskip; [exact Hloop|discriminate]).
    destruct (contains "$" p0) eqn:Hd0;
      [|apply Hskip; [exact Hloop|intros p [= <-]; exact Hd0]].
    destruct (substitute_prop b p0 vars) as [[v vars']|e] eqn:Hsub.
    + destruct (IH _ _ _ _ Hnd Hloop) as (H1 & H2 & H3).
      split; [rewrite H1; exact (set_field_keys name v m _ Hv0)|]. split.
      * intros k x Hx Hor. destruct (decide (name = k)) as [<-|Hne].
        -- exfalso. rewrite Hv0 in Hx. injection Hx as <-.
           destruct Hor as [Hk|Hp]; [apply Hk; left|exact (plain_dollar p0 Hp Hd0)].
        -- apply H2; [rewrite assoc_set_field_ne by exact Hne; exact Hx|].
           destruct Hor as [Hk|Hp]; [left|right; exact Hp].
           intros Hin. apply Hk. right. exact Hin.
      * intros Hr k p Hk Hp Hd. destruct (decide (name = k)) as [<-|Hne].
        -- rewrite Hv0 in Hp. injection Hp as <-.
           exists vars, v, vars'. split; [exact Hsub|].
           apply H2; [apply assoc_set_field_eq|left; exact Hname].
        -- apply elem_of_cons in Hk as [->|Hk]; [congruence|].
           apply (H3 Hr k p Hk); [|exact Hd].
           rewrite assoc_set_field_ne by exact Hne. exact Hp.
    + injection Hloop as <- <-.
      split; [reflexivity|]. split; [auto|]. discriminate.
Qed.

(** [prepare] on an object with a truthy target that stands for a string
    without dollar sign, or for itself. *)
Lemma prepare_spec m :
  NoDup (map fst m) ->
  map fst (snd (prepare b m)) = map fst m
  /\ (forall k v, k <> "to" -> assoc k m = Some v -> plain v ->
        assoc k (snd (prepare b m)) = Some v)
  /\ (forall to, assoc "to" m = Some to -> truthy to = true ->
        plain (substituteName b to) ->
        assoc "to" (snd (prepare b m)) = Some (substituteName b to))
  /\ (fst (prepare b m) = Ok tt ->
      forall k p, k <> "to" -> assoc k m = Some (VStr p) -> contains "$" p = true ->
        exists vars1 v vars2,
          substitute_prop b p vars1 = Ok (v, vars2)
          /\ assoc k (snd (prepare b m)) = Some v).
Proof.
  intros Hnd. unfold prepare, substituteState.
  set (to := default VUndef (assoc "to" m)).
  set (m1 := if truthy to then set_field "to" (substituteName b to) m else m).
  assert (Hkeys : map fst m1 = map fst m).
  { unfold m1, to. destruct (assoc "to" m) as [t|] eqn:Ht; cbn [default from_option id].
    - destruct (truthy t); [exact (set_field_keys _ _ _ _ Ht)|reflexivity].
    - reflexivity. }
  assert (Hother : forall k, k <> "to" -> assoc k m1 = assoc k m).
  { intros k Hk. unfold m1. destruct (truthy to); [|reflexivity].
    apply assoc_set_field_ne. congruence. }
  destruct (substituteState_loop b (map fst m1) m1 (mkVars VUndef VUndef)) as [r m'] eqn:Hloop.
  assert (Hnd1 : NoDup (map fst m1)) by (rewrite Hkeys; exact Hnd).
  destruct (substituteState_loop_spec _ _ _ _ _ Hnd1 Hloop) as (H1 & H2 & H3).
  cbn [fst snd]. split; [congruence|]. split; [|split].
  - intros k v Hk Hv Hp. apply H2; [rewrite Hother by exact Hk; exact Hv|right; exact Hp].
  - intros t Ht Htruthy Hp. apply H2; [|right; exact Hp].
    unfold m1, to. rewrite Ht. cbn [default from_option id]. rewrite Htruthy.
    apply assoc_set_field_eq.
  - intros Hr k p Hk Hv Hd. apply (H3 Hr k p); [|rewrite Hother by exact Hk; exact Hv|exact Hd].
    rewrite Hkeys. clear -Hv. induction m as [|[k' x] m IH]; simpl in *; [discriminate|].
    destruct (String.eqb k' k) eqn:E.
    + apply String.eqb_eq in E. subst. left.
    + right. exact (IH Hv).
Qed.

End InPlace.

(** ** Order and pacing of the writes *)

Section Pacing.

Variable JSON_stringify : value -> string.
Variable parseElko : string -> value.

Lemma execute_frame u s :
  exists h',
    snd (execute JSON_stringify u s) = set_heap h' s
    /\ (forall due msg, fst (execute JSON_stringify u s) = Armed due msg ->
          due = now_ s + delayMillis u).
Proof.
  unfold execute. destruct (negb (connected (bot s))).
  - exists (heap s). split; [destruct s; reflexivity|discriminate].
  - destruct (heap s !! target u) as [m|].
    + destruct (prepare (bot s) m) as [[[]|e] m'].
      * eexists. split; [reflexivity|]. intros due msg [= <- _]. reflexivity.
      * eexists. split; [reflexivity|discriminate].
    + exists (heap s). split; [destruct s; reflexivity|discriminate].
Qed.

Lemma steady_ext s s' :
  maxPendingPromises s' = maxPendingPromises s ->
  pendingPromises s' = pendingPromises s -> queue s' = queue s ->
  writes s' = writes s -> next_uid s' = next_uid s ->
  steady s -> steady s'.
Proof. unfold steady. intros -> -> -> -> ->. auto. Qed.

Lemma tracking_ext us t0 s s' :
  now_ s' = now_ s ->
  pendingPromises s' = pendingPromises s -> queue s' = queue s ->
  writes s' = writes s -> next_uid s' = next_uid s ->
  tracking us t0 s -> tracking us t0 s'.
Proof. unfold tracking, writes_of. intros -> -> -> -> ->. auto. Qed.

Lemma paced_app t ws1 ws2 :
  paced t (ws1 ++ ws2) <-> paced t ws1 /\ paced (t + total_delay ws1) ws2.
Proof.
  revert t. induction ws1 as [|w ws1 IH]; intros t; simpl.
  - rewrite Z.add_0_r. tauto.
  - rewrite IH, Z.add_assoc. tauto.
Qed.

Lemma total_delay_app ws1 ws2 :
  total_delay (ws1 ++ ws2) = total_delay ws1 + total_delay ws2.
Proof.
  induction ws1 as [|w ws1 IH]; simpl; [reflexivity|]. rewrite IH. lia.
Qed.

Lemma take_sublist_S {A} (l : list A) k : take k l `sublist_of` take (S k) l.
Proof.
  revert k. induction l as [|x l IH]; intros k.
  - rewrite !take_nil. constructor.
  - destruct k; simpl; [apply sublist_nil_l|]. constructor. apply IH.
Qed.

Lemma filter_head_drop (us q : list unit_) u k :
  filter (fun x => x ∈ us) (u :: q) = drop k us ->
  if decide (u ∈ us)
  then us !! k = Some u /\ filter (fun x => x ∈ us) q = drop (S k) us /\ (S k <= length us)%nat
  else filter (fun x => x ∈ us) q = drop k us.
Proof.
  intros H. destruct (decide (u ∈ us)) as [Hu|Hu].
  - rewrite filter_cons_True in H by exact Hu.
    assert (Hk : us !! k = Some u).
    { rewrite <- (Nat.add_0_r k), <- lookup_drop, <- H. reflexivity. }
    split; [exact Hk|]. split.
    + rewrite (drop_S us u k Hk) in H. congruence.
    + apply lookup_lt_Some in Hk. lia.
  - rewrite filter_cons_False in H by exact Hu. exact H.
Qed.

Lemma dequeue_keeps us t0 q : forall s,
  steady (set_queue q s) -> tracking us t0 (set_queue q s) ->
  steady (dequeue JSON_stringify q s) /\ tracking us t0 (dequeue JSON_stringify q s).
Proof.
  induction q as [|u q IH]; intros s Hst Htr.
  - simpl. split; assumption.
  - cbn [dequeue].
    destruct (length (pendingPromises s) <? maxPendingPromises s)%nat eqn:Hlt;
      [|split; assumption].
    destruct Hst as (Hmax & Hlen & Hp & Hq & Hw). simpl in Hmax, Hlen, Hp, Hq, Hw.
    assert (Hnil : pendingPromises s = []).
    { apply Nat.ltb_lt in Hlt. rewrite Hmax in Hlt.
      destruct (pendingPromises s); [reflexivity|simpl in Hlt; lia]. }
    destruct (execute_frame u s) as (h' & Hex & Hdue).
    destruct Htr as (k & Hk & Hfilter & HP & HW & HD & Hpaced & Hnow & Hfresh).
    unfold writes_of in HW, HD, Hpaced, Hnow.
    simpl in Hfilter, HP, HW, HD, Hpaced, Hnow, Hfresh.
    apply filter_head_drop in Hfilter.
    destruct (execute JSON_stringify u s) as [[due msg|reason] s']; simpl in Hex; subst s'.
    + specialize (Hdue due msg eq_refl). subst due. split.
      * unfold steady; simpl. rewrite Hnil. simpl. repeat split; try assumption; try lia.
        -- intros p Hp'. apply list_elem_of_singleton in Hp' as ->. simpl. apply Hq. left.
        -- intros u' Hu'. apply Hq. right. exact Hu'.
      * destruct (decide (u ∈ us)) as [Hu|Hu].
        -- destruct Hfilter as (Hku & Hfilter & HSk). exists (S k).
           unfold writes_of. simpl. rewrite Hnil. simpl. rewrite Nat.sub_0_r.
           split; [lia|]. split; [exact Hfilter|]. split.
           { intros u0 ph H _. apply list_elem_of_singleton in H.
             injection H as -> _. split; [exact Hku|lia]. }
           split. { etransitivity; [exact HW|apply take_sublist_S]. }
           split.
           { intros u0 due0 msg0 H _. apply list_elem_of_singleton in H.
             injection H as -> -> _. split; [exact HW|lia]. }
           split; [exact Hpaced|]. split; [exact Hnow|exact Hfresh].
        -- exists k. unfold writes_of. simpl. rewrite Hnil. simpl.
           split; [lia|]. split; [exact Hfilter|]. split.
           { intros u0 ph H Hin. apply list_elem_of_singleton in H.
             injection H as -> _. contradiction. }
           split; [exact HW|]. split.
           { intros u0 due0 msg0 H Hin. apply list_elem_of_singleton in H.
             injection H as -> _ _. contradiction. }
           split; [exact Hpaced|]. split; [exact Hnow|exact Hfresh].
    + apply IH.
      * unfold steady; simpl. repeat split; try assumption.
        intros u' Hu'. apply Hq. right. exact Hu'.
      * destruct (decide (u ∈ us)) as [Hu|Hu].
        -- destruct Hfilter as (Hku & Hfilter & HSk). exists (S k).
           unfold writes_of. simpl. rewrite Hnil.
           split; [lia|]. split; [exact Hfilter|]. split.
           { intros u0 ph H. inversion H. }
           split. { etransitivity; [exact HW|apply take_sublist_S]. }
           split. { intros u0 due0 msg0 H. inversion H. }
           split; [exact Hpaced|]. split; [exact Hnow|exact Hfresh].
        -- exists k. unfold writes_of. simpl. rewrite Hnil.
           split; [lia|]. split; [exact Hfilter|]. split.
           { intros u0 ph H. inversion H. }
           split; [exact HW|]. split.
           { intros u0 due0 msg0 H. inversion H. }
           split; [exact Hpaced|]. split; [exact Hnow|exact Hfresh].
Qed.

Lemma set_queue_same s : set_queue (queue s) s = s.
Proof. destruct s. reflexivity. Qed.

Lemma find_pending_single id s u ph :
  steady s -> find_pending id s = Some (u, ph) ->
  pendingPromises s = [(u, ph)] /\ uid u = id.
Proof.
  intros (_ & Hlen & _) H. unfold find_pending in H.
  destruct (pendingPromises s) as [|p [|p' l]]; simpl in *; [discriminate| |lia].
  destruct (Nat.eqb (uid (fst p)) id) eqn:E; [|discriminate].
  injection H as ->. split; [reflexivity|]. apply Nat.eqb_eq in E. exact E.
Qed.

(** A unit that is not one of [us] joins the queue. *)
Lemma enqueue_other us t0 u s :
  steady s -> tracking us t0 s -> uid u = next_uid s ->
  steady (set_queue (queue s ++ [u]) (set_next_uid (S (next_uid s)) s))
  /\ tracking us t0 (set_queue (queue s ++ [u]) (set_next_uid (S (next_uid s)) s)).
Proof.
  intros (Hmax & Hlen & Hp & Hq & Hw) (k & Hk & Hfilter & HP & HW & HD & Hpaced & Hnow & Hfresh) Hu.
  split.
  - unfold steady; simpl. split; [exact Hmax|]. split; [exact Hlen|]. split.
    { intros p H. specialize (Hp p H). lia. }
    split.
    { intros u' H. apply elem_of_app in H as [H|H].
      - specialize (Hq u' H). lia.
      - apply list_elem_of_singleton in H as ->. lia. }
    intros w H. specialize (Hw w H). lia.
  - exists k. unfold writes_of in *. simpl.
    split; [exact Hk|]. split.
    { rewrite filter_app, Hfilter.
      rewrite filter_cons_False, filter_nil, app_nil_r; [reflexivity|].
      intros Hin. specialize (Hfresh u Hin). lia. }
    split; [exact HP|]. split; [exact HW|]. split; [exact HD|].
    split; [exact Hpaced|]. split; [exact Hnow|].
    intros u' H. specialize (Hfresh u' H). lia.
Qed.

Lemma filter_agree {A} (P Q : A -> Prop) `{forall x, Decision (P x)} `{forall x, Decision (Q x)}
    (l : list A) :
  (forall x, x ∈ l -> (P x <-> Q x)) -> filter P l = filter Q l.
Proof.
  induction l as [|x l IH]; intros HPQ; [reflexivity|].
  assert (Hl : filter P l = filter Q l).
  { apply IH. intros y Hy. apply HPQ. right. exact Hy. }
  destruct (decide (P x)) as [HP|HP].
  - rewrite !filter_cons_True; [congruence| |exact HP].
    apply HPQ; [left|exact HP].
  - rewrite !filter_cons_False; [exact Hl| |exact HP].
    intros HQ. apply HP, HPQ; [left|exact HQ].
Qed.

(** A sent unit joins [us]. *)
Lemma enqueue_tracked us t0 u s :
  steady s -> tracking us t0 s -> uid u = next_uid s ->
  tracking (us ++ [u])%list t0
    (set_queue (queue s ++ [u])%list (set_next_uid (S (next_uid s)) s)).
Proof.
  intros (Hmax & Hlen & Hp & Hq & Hw) (k & Hk & Hfilter & HP & HW & HD & Hpaced & Hnow & Hfresh) Hu.
  assert (Hold : forall x, (uid x < next_uid s)%nat -> x ∈ (us ++ [u])%list <-> x ∈ us).
  { intros x Hx. rewrite elem_of_app, list_elem_of_singleton. split; [|auto].
    intros [H| ->]; [exact H|lia]. }
  assert (Hwr : writes_of (us ++ [u])%list s = writes_of us s).
  { unfold writes_of. apply filter_agree. intros w Hin. apply Hold, Hw, Hin. }
  assert (Htake : forall n, (n <= k)%nat -> take n (us ++ [u])%list = take n us).
  { intros n Hn. apply take_app_le. lia. }
  exists k. unfold writes_of in *. simpl. rewrite Hwr.
  split; [rewrite length_app; simpl; lia|]. split.
  { rewrite filter_app, filter_cons_True, filter_nil
      by (apply elem_of_app; right; left).
    rewrite (filter_agree _ (fun x => x ∈ us)) by (intros x Hin; apply Hold, Hq, Hin).
    rewrite Hfilter, drop_app_le by exact Hk. reflexivity. }
  split.
  { intros u0 ph H Hin. apply Hold in Hin; [|exact (Hp _ H)].
    destruct (HP u0 ph H Hin) as [Hl Hk1]. split; [|exact Hk1].
    apply lookup_app_l_Some. exact Hl. }
  split. { rewrite Htake by lia. exact HW. }
  split.
  { intros u0 due msg H Hin. apply Hold in Hin; [|exact (Hp _ H)].
    rewrite Htake by lia. exact (HD u0 due msg H Hin). }
  split; [exact Hpaced|]. split; [exact Hnow|].
  intros u' H. apply elem_of_app in H as [H|H].
  - specialize (Hfresh u' H). lia.
  - apply list_elem_of_singleton in H as ->. lia.
Qed.

Lemma send_keeps us t0 l d s :
  steady s -> tracking us t0 s ->
  steady (sendWithDelay JSON_stringify l d s)
  /\ tracking us t0 (sendWithDelay JSON_stringify l d s).
Proof.
  intros Hst Htr. unfold sendWithDelay.
  destruct (enqueue_other us t0 (mkUnit (next_uid s) l d) s Hst Htr eq_refl) as [H1 H2].
  apply dequeue_keeps; assumption.
Qed.

(** [sendWithDelay] with the new unit added to those that are tracked. *)
Lemma send_tracked us t0 l d s :
  steady s -> tracking us t0 s ->
  steady (sendWithDelay JSON_stringify l d s)
  /\ tracking (us ++ [mkUnit (next_uid s) l d])%list t0 (sendWithDelay JSON_stringify l d s).
Proof.
  intros Hst Htr. unfold sendWithDelay.
  destruct (enqueue_other us t0 (mkUnit (next_uid s) l d) s Hst Htr eq_refl) as [H1 _].
  apply dequeue_keeps; [exact H1|].
  apply enqueue_tracked; [exact Hst|exact Htr|reflexivity].
Qed.

Lemma timer_keeps us t0 id s s' :
  steady s -> tracking us t0 s ->
  exec JSON_stringify parseElko (TimerFires id) s = Some s' ->
  steady s' /\ tracking us t0 s'.
Proof.
  intros Hst Htr Hex. unfold exec in Hex.
  destruct (find_pending id s) as [[u [due msg|]]|] eqn:Hfind; try discriminate.
  destruct (server (bot s)) as [sock|]; [|discriminate].
  destruct (due <=? now_ s) eqn:Hdue; [|discriminate].
  apply Z.leb_le in Hdue. injection Hex as <-.
  destruct (find_pending_single id s u _ Hst Hfind) as [Hpend Huid].
  destruct Hst as (Hmax & Hlen & Hp & Hq & Hw).
  destruct Htr as (k & Hk & Hfilter & HP & HW & HD & Hpaced & Hnow & Hfresh).
  assert (Hin : (u, Waiting due msg) ∈ pendingPromises s) by (rewrite Hpend; left).
  assert (Hpend' : map (fun p => if Nat.eqb (uid (fst p)) id then (fst p, Writing) else p)
                       (pendingPromises s) = [(u, Writing)]).
  { rewrite Hpend. simpl. rewrite Huid, Nat.eqb_refl. reflexivity. }
  split.
  - unfold steady; simpl. rewrite Hpend'. split; [exact Hmax|]. split; [simpl; lia|]. split.
    { intros p H. apply list_elem_of_singleton in H as ->. exact (Hp _ Hin). }
    split; [exact Hq|].
    intros w H. apply elem_of_app in H as [H|H]; [exact (Hw w H)|].
    apply list_elem_of_singleton in H as ->. exact (Hp _ Hin).
  - exists k. unfold writes_of in *. simpl. rewrite Hpend', filter_app.
    destruct (decide (u ∈ us)) as [Hu|Hu].
    + destruct (HP u _ Hin Hu) as [Hlook Hk1].
      destruct (HD u due msg Hin Hu) as [Hsub Hbound].
      rewrite filter_cons_True, filter_nil by exact Hu.
      split; [exact Hk|]. split; [exact Hfilter|]. split.
      { intros u0 ph H _. apply list_elem_of_singleton in H. injection H as -> _.
        split; [exact Hlook|exact Hk1]. }
      split.
      { rewrite map_app. replace k with (S (k - 1)) by lia.
        rewrite (take_S_r us (k - 1) u Hlook). apply sublist_app; [exact Hsub|reflexivity]. }
      split.
      { intros u0 due0 msg0 H. apply list_elem_of_singleton in H. discriminate. }
      split.
      { apply paced_app. split; [exact Hpaced|]. simpl. split; [lia|exact I]. }
      split; [|exact Hfresh].
      rewrite total_delay_app. simpl. lia.
    + rewrite filter_cons_False, filter_nil, app_nil_r by exact Hu.
      split; [exact Hk|]. split; [exact Hfilter|]. split.
      { intros u0 ph H Hu0. apply list_elem_of_singleton in H. injection H as -> _.
        contradiction. }
      split; [exact HW|]. split.
      { intros u0 due0 msg0 H. apply list_elem_of_singleton in H. discriminate. }
      split; [exact Hpaced|]. split; [exact Hnow|exact Hfresh].
Qed.

Lemma write_done_keeps us t0 id s s' :
  steady s -> tracking us t0 s ->
  exec JSON_stringify parseElko (WriteDone id) s = Some s' ->
  steady s' /\ tracking us t0 s'.
Proof.
  intros Hst Htr Hex. unfold exec in Hex.
  destruct (find_pending id s) as [[u [due msg|]]|] eqn:Hfind; try discriminate.
  injection Hex as <-.
  destruct (find_pending_single id s u _ Hst Hfind) as [Hpend Huid].
  destruct Hst as (Hmax & Hlen & Hp & Hq & Hw).
  destruct Htr as (k & Hk & Hfilter & HP & HW & HD & Hpaced & Hnow & Hfresh).
  assert (Hpend' : List.filter (fun p => negb (Nat.eqb (uid (fst p)) id)) (pendingPromises s) = []).
  { rewrite Hpend. simpl. rewrite Huid, Nat.eqb_refl. reflexivity. }
  set (s1 := settle u Resolved (drop_pending id s)).
  pose proof (dequeue_keeps us t0 (queue s1) s1) as HK.
  rewrite set_queue_same in HK. apply HK.
  - unfold steady, s1; simpl. rewrite Hpend'. split; [exact Hmax|]. split; [simpl; lia|].
    split; [intros p H; inversion H|]. split; [exact Hq|exact Hw].
  - exists k. unfold writes_of in *. unfold s1. simpl. rewrite Hpend'.
    split; [exact Hk|]. split; [exact Hfilter|]. split.
    { intros u0 ph H. inversion H. }
    split; [exact HW|]. split.
    { intros u0 due0 msg0 H. inversion H. }
    split; [exact Hpaced|]. split; [exact Hnow|exact Hfresh].
Qed.

(** Every turn of the event loop keeps the queue steady and the tracked
    units in order and paced. *)
Lemma exec_keeps us t0 i s s' :
  steady s -> tracking us t0 s ->
  exec JSON_stringify parseElko i s = Some s' ->
  steady s' /\ tracking us t0 s'.
Proof.
  intros Hst Htr Hex. destruct i as [t|id|id| | |blob|l d].
  - unfold exec in Hex. destruct (now_ s <=? t) eqn:Ht; [|discriminate].
    apply Z.leb_le in Ht. injection Hex as <-.
    split; [exact (steady_ext s _ eq_refl eq_refl eq_refl eq_refl eq_refl Hst)|].
    destruct Htr as (k & Hk & Hfilter & HP & HW & HD & Hpaced & Hnow & Hfresh).
    exists k. unfold writes_of in *. simpl.
    repeat (split; [assumption|]). split; [lia|exact Hfresh].
  - exact (timer_keeps us t0 id s s' Hst Htr Hex).
  - exact (write_done_keeps us t0 id s s' Hst Htr Hex).
  - unfold exec in Hex. destruct (server (bot s)); [|discriminate].
    destruct (connected (bot s)); [discriminate|]. injection Hex as <-.
    split; [exact (steady_ext s _ eq_refl eq_refl eq_refl eq_refl eq_refl Hst)
           |exact (tracking_ext us t0 s _ eq_refl eq_refl eq_refl eq_refl eq_refl Htr)].
  - injection Hex as <-.
    split; [exact (steady_ext s _ eq_refl eq_refl eq_refl eq_refl eq_refl Hst)
           |exact (tracking_ext us t0 s _ eq_refl eq_refl eq_refl eq_refl eq_refl Htr)].
  - injection Hex as <-.
    split; [exact (steady_ext s _ eq_refl eq_refl eq_refl eq_refl eq_refl Hst)
           |exact (tracking_ext us t0 s _ eq_refl eq_refl eq_refl eq_refl eq_refl Htr)].
  - injection Hex as <-. apply send_keeps; assumption.
Qed.

Lemma run_keeps us t0 ins : forall s s',
  steady s -> tracking us t0 s ->
  run JSON_stringify parseElko ins s = Some s' ->
  steady s' /\ tracking us t0 s'.
Proof.
  induction ins as [|i ins IH]; intros s s' Hst Htr Hrun; simpl in Hrun.
  - injection Hrun as <-. split; assumption.
  - destruct (exec JSON_stringify parseElko i s) as [s1|] eqn:Hex; [|discriminate].
    destruct (exec_keeps us t0 i s s1 Hst Htr Hex) as [Hst1 Htr1].
    exact (IH s1 s' Hst1 Htr1 Hrun).
Qed.

Lemma filter_none (l : list unit_) : filter (fun x => x ∈ @nil unit_) l = [].
Proof.
  induction l as [|x l IH]; [reflexivity|].
  rewrite filter_cons_False; [exact IH|]. intros H. inversion H.
Qed.

Lemma filter_none_writes (l : list write) : filter (fun w => w_unit w ∈ @nil unit_) l = [].
Proof.
  induction l as [|x l IH]; [reflexivity|].
  rewrite filter_cons_False; [exact IH|]. intros H. inversion H.
Qed.

(** Before anything is sent there is nothing to track. *)
Lemma tracking_nothing s : tracking [] (now_ s) s.
Proof.
  exists 0%nat. unfold writes_of. rewrite filter_none, filter_none_writes. simpl.
  split; [lia|]. split; [reflexivity|]. split.
  { intros u ph _ H. inversion H. }
  split; [constructor|]. split.
  { intros u due msg _ H. inversion H. }
  split; [exact I|]. split; [lia|].
  intros u H. inversion H.
Qed.

End Pacing.

Lemma steady_boot b h : steady (boot b h).
Proof.
  unfold steady, boot; simpl. split; [reflexivity|]. split; [lia|].
  repeat split; intros x H; inversion H.
Qed.

Lemma dequeue_next_uid str q : forall s, next_uid (dequeue str q s) = next_uid s.
Proof.
  induction q as [|u q IH]; intros s; [reflexivity|].
  cbn [dequeue]. destruct (length (pendingPromises s) <? maxPendingPromises s)%nat;
    [|reflexivity].
  destruct (execute_frame str u s) as (h' & Hex & _).
  destruct (execute str u s) as [[due msg|reason] s']; simpl in Hex; subst s'.
  - reflexivity.
  - rewrite IH. reflexivity.
Qed.

Lemma sendWithDelay_next_uid str l d s :
  next_uid (sendWithDelay str l d s) = S (next_uid s).
Proof. unfold sendWithDelay. rewrite dequeue_next_uid. reflexivity. Qed.

Lemma sublist_same_length {A} (l1 l2 : list A) :
  l1 `sublist_of` l2 -> (length l2 <= length l1)%nat -> l1 = l2.
Proof.
  induction 1 as [|x l1 l2 H IH|x l1 l2 H IH]; simpl; intros Hl.
  - reflexivity.
  - f_equal. apply IH. lia.
  - apply sublist_length in H. lia.
Qed.

(** C5, as amended.  Three commands are sent in a row, with delays [d1],
    [d2] and [d3], at time [t0], and then the event loop runs in any way it
    can.  At most one unit runs at any time.  The writes made for the
    three follow the order in which they were sent.  Each write comes no
    earlier than [t0] plus its own delay plus the delays of the commands
    before it that were written: a command that fails when its unit starts
    is not written and adds no wait.  When all three are written, the
    writes come no earlier than [t0 + d1], [t0 + d1 + d2] and
    [t0 + d1 + d2 + d3]. *)
Theorem sends_in_order_and_paced
    (JSON_stringify : value -> string) (parseElko : string -> value)
    (s0 : Sim) (l1 l2 l3 : nat) (d1 d2 d3 : Z) (ins : list input) (s : Sim) :
  steady s0 ->
  run JSON_stringify parseElko ins
    (sendWithDelay JSON_stringify l3 d3
       (sendWithDelay JSON_stringify l2 d2
          (sendWithDelay JSON_stringify l1 d1 s0))) = Some s ->
  (length (pendingPromises s) <= 1)%nat
  /\ map w_unit (writes_of (three_units (next_uid s0) l1 d1 l2 d2 l3 d3) s)
       `sublist_of` three_units (next_uid s0) l1 d1 l2 d2 l3 d3
  /\ paced (now_ s0) (writes_of (three_units (next_uid s0) l1 d1 l2 d2 l3 d3) s)
  /\ (forall w1 w2 w3,
        writes_of (three_units (next_uid s0) l1 d1 l2 d2 l3 d3) s = [w1; w2; w3] ->
        now_ s0 + d1 <= w_time w1
        /\ now_ s0 + d1 + d2 <= w_time w2
        /\ now_ s0 + d1 + d2 + d3 <= w_time w3).
Proof.
  intros Hst0 Hrun.
  pose proof (tracking_nothing s0) as Htr0.
  destruct (send_tracked JSON_stringify [] (now_ s0) l1 d1 s0 Hst0 Htr0) as [Hst1 Htr1].
  destruct (send_tracked JSON_stringify _ (now_ s0) l2 d2 _ Hst1 Htr1) as [Hst2 Htr2].
  destruct (send_tracked JSON_stringify _ (now_ s0) l3 d3 _ Hst2 Htr2) as [Hst3 Htr3].
  rewrite !sendWithDelay_next_uid in Htr3. simpl app in Htr3.
  change [mkUnit (next_uid s0) l1 d1; mkUnit (S (next_uid s0)) l2 d2;
          mkUnit (S (S (next_uid s0))) l3 d3]
    with (three_units (next_uid s0) l1 d1 l2 d2 l3 d3) in Htr3.
  destruct (run_keeps JSON_stringify parseElko _ _ ins _ s Hst3 Htr3 Hrun) as [Hst Htr].
  destruct Hst as (_ & Hlen & _).
  destruct Htr as (k & _ & _ & _ & HW & _ & Hpaced & _).
  assert (Hsub : map w_unit (writes_of (three_units (next_uid s0) l1 d1 l2 d2 l3 d3) s)
                   `sublist_of` three_units (next_uid s0) l1 d1 l2 d2 l3 d3).
  { etransitivity; [exact HW|apply sublist_take]. }
  split; [exact Hlen|]. split; [exact Hsub|]. split; [exact Hpaced|].
  intros w1 w2 w3 Hws. rewrite Hws in Hsub, Hpaced.
  assert (Hunits : map w_unit [w1; w2; w3] = three_units (next_uid s0) l1 d1 l2 d2 l3 d3).
  { apply sublist_same_length; [exact Hsub|reflexivity]. }
  simpl in Hunits. injection Hunits as E1 E2 E3.
  simpl in Hpaced. rewrite E1, E2, E3 in Hpaced. simpl in Hpaced.
  destruct Hpaced as (P1 & P2 & P3 & _). repeat split; assumption.
Qed.

Lemma sends_in_order_and_paced_witness :
  exists s,
    run render Sample.parse
      [Tick 500; TimerFires 0; WriteDone 0; Tick 1200; TimerFires 1; WriteDone 1;
       Tick 1700; TimerFires 2; WriteDone 2]
      (sendWithDelay render 3 500
         (sendWithDelay render 2 500 (sendWithDelay render 0 500 Sample.session)))
    = Some s
    /\ (length (pendingPromises s) <= 1)%nat
    /\ map w_unit (writes_of (three_units 0 0 500 2 500 3 500) s)
         `sublist_of` three_units 0 0 500 2 500 3 500
    /\ paced 0 (writes_of (three_units 0 0 500 2 500 3 500) s)
    /\ (forall w1 w2 w3,
          writes_of (three_units 0 0 500 2 500 3 500) s = [w1; w2; w3] ->
          0 + 500 <= w_time w1
          /\ 0 + 500 + 500 <= w_time w2
          /\ 0 + 500 + 500 + 500 <= w_time w3).
Proof.
  destruct (run render Sample.parse
      [Tick 500; TimerFires 0; WriteDone 0; Tick 1200; TimerFires 1; WriteDone 1;
       Tick 1700; TimerFires 2; WriteDone 2]
      (sendWithDelay render 3 500
         (sendWithDelay render 2 500 (sendWithDelay render 0 500 Sample.session))))
    as [s|] eqn:Hrun; [|vm_compute in Hrun; discriminate].
  exists s. split; [reflexivity|].
  exact (sends_in_order_and_paced render Sample.parse Sample.session
           0 2 3 500 500 500 _ s (steady_boot _ _) Hrun).
Defined.

(** The three writes of that run, in the order of the sends. *)
Example three_sends_three_writes :
  option_map (fun s => map (fun w => (target (w_unit w), w_time w, w_data w)) (writes s))
    (run render Sample.parse
       [Tick 500; TimerFires 0; WriteDone 0; Tick 1200; TimerFires 1; WriteDone 1;
        Tick 1700; TimerFires 2; WriteDone 2]
       (sendWithDelay render 3 500
          (sendWithDelay render 2 500 (sendWithDelay render 0 500 Sample.session))))
  = Some [(0%nat, 500, "{'op':'SPEAK','to':'user-randy-100','text':'hello Randy!'}" ++ terminator);
          (2%nat, 1200, "{'op':'POSTURE','to':'user-randy-100','pose':141}" ++ terminator);
          (3%nat, 1700, "{'op':'WALK','to':'user-randy-100','x':84}" ++ terminator)].
Proof. vm_compute. reflexivity. Qed.

(** C5, as stated, fails: on a connected session three commands are sent
    with delays of 500 ms each; the substitution of the first runs into a
    missing property and throws, so its unit is rejected at once, and the
    second command is written 500 ms after the sends, not 1000. *)
Lemma failed_unit_adds_no_wait :
  exists s,
    run render Sample.parse [Tick 500; TimerFires 1]
      (sendWithDelay render 3 500
         (sendWithDelay render 2 500 (sendWithDelay render 1 500 Sample.session)))
    = Some s
    /\ connected (bot s) = true
    /\ settled s = [(mkUnit 0 1 500, Rejected TypeError)]
    /\ writes_of (three_units 0 1 500 2 500 3 500) s
       = [mkWrite 500 (mkUnit 1 2 500) 0
            ("{'op':'POSTURE','to':'user-randy-100','pose':141}" ++ terminator) true]
    /\ ~ (now_ Sample.session + 500 + 500 <= 500).
Proof.
  eexists. split; [vm_compute; reflexivity|].
  split; [reflexivity|]. split; [reflexivity|]. split; [vm_compute; reflexivity|].
  vm_compute. intros H. apply H. reflexivity.
Qed.

(** The same object sent twice: between the sends the avatar gets a new
    ref, and the second write still goes to the ref the first send put
    into the object. *)
Example resend_uses_rewritten_object :
  option_map
    (fun s => (names (bot s) !! "ME",
               map (fun w => (w_time w, w_data w)) (writes s)))
    (run render Sample.parse
       [Tick 500; TimerFires 0; WriteDone 0; SocketData Sample.frame_again;
        CallSend 2 500; Tick 1000; TimerFires 1]
       (sendWithDelay render 2 500 Sample.session))
  = Some (Some "user-randy-200",
          [(500, "{'op':'POSTURE','to':'user-randy-100','pose':141}" ++ terminator);
           (1000, "{'op':'POSTURE','to':'user-randy-100','pose':141}" ++ terminator)]).
Proof. vm_compute. reflexivity. Qed.

(** ** More on the deframer *)

Section DeframerMore.

Lemma scan_char_noise c :
  Ascii.eqb c LBRACE = false -> scan_char c unframed = (unframed, None).
Proof.
  intros H. unfold scan_char. cbn [framed unframed].
  rewrite Ascii.eqb_sym, H. reflexivity.
Qed.

Lemma scan_noise noise :
  contains LBRACE noise = false ->
  scan_state noise unframed = unframed /\ completed noise unframed = [].
Proof.
  induction noise as [|c rest IH]; intros H; [split; reflexivity|].
  simpl in H. apply orb_false_iff in H as [Hc Hrest].
  cbn [scan_state completed]. rewrite (scan_char_noise c Hc). cbn [fst].
  exact (IH Hrest).
Qed.

Lemma deframe_noise noise : contains LBRACE noise = false -> deframe noise = [].
Proof.
  intros H. unfold deframe. rewrite scan_split.
  destruct (scan_noise noise H) as [-> ->]. reflexivity.
Qed.

Lemma deframe_skips_noise (a noise b : string) :
  closed_chunk a -> contains LBRACE noise = false ->
  deframe (a ++ noise ++ b) = (deframe a ++ deframe b)%list.
Proof.
  intros Ha Hn. rewrite (deframe_app_closed a _ Ha). f_equal.
  rewrite deframe_app_closed by (exact (proj1 (scan_noise noise Hn))).
  rewrite (deframe_noise noise Hn). reflexivity.
Qed.

(** X1.  A chunk made of complete frames whose bodies hold no line feed,
    each preceded by any text without a brace, is split into exactly those
    frames, terminators included; the text between them is dropped. *)
Theorem deframe_roundtrip (items : list (string * string)) :
  Forall (fun it => contains LBRACE (fst it) = false /\ contains LF (snd it) = false) items ->
  deframe (concat_str (map (fun it => fst it ++ frame_of (snd it)) items))
  = map (fun it => frame_of (snd it)) items.
Proof.
  induction 1 as [|[noise body] items [Hn Hb] _ IH]; [reflexivity|].
  cbn [map concat_str fst snd]. rewrite append_assoc_str.
  change (noise ++ frame_of body ++ ?r) with ("" ++ noise ++ frame_of body ++ r).
  rewrite (deframe_skips_noise "" noise _ closed_chunk_empty Hn).
  rewrite deframe_app_closed by (apply closed_chunk_frame; eexists; reflexivity).
  rewrite (deframe_frame body Hb), IH. reflexivity.
Qed.

Lemma deframe_roundtrip_witness :
  deframe (concat_str (map (fun it => fst it ++ frame_of (snd it))
                           [("", "a}"); ("xx ", "b}")]))
  = map (fun it => frame_of (snd it)) [("", "a}"); ("xx ", "b}")].
Proof.
  apply (deframe_roundtrip [("", "a}"); ("xx ", "b}")]).
  repeat constructor.
Defined.

(** X2.  The second line feed ends a frame wherever it stands: with one
    line feed inside the text of a message, the frame ends at the next
    one, and what follows up to the next brace is dropped. *)
Theorem deframe_ends_at_second_line_feed (b1 b2 tail rest : string) :
  contains LF b1 = false -> contains LF b2 = false ->
  contains LBRACE tail = false ->
  deframe ("{" ++ b1 ++ String LF (b2 ++ String LF (tail ++ rest)))
  = ("{" ++ b1 ++ String LF (b2 ++ String LF "")) :: deframe rest.
Proof.
  intros H1 H2 Ht.
  assert (Hhead : closed_chunk ("{" ++ b1 ++ String LF (b2 ++ String LF ""))
                  /\ deframe ("{" ++ b1 ++ String LF (b2 ++ String LF ""))
                     = ["{" ++ b1 ++ String LF (b2 ++ String LF "")]).
  { unfold closed_chunk, deframe. rewrite scan_split.
    rewrite append_cons, append_empty_l. cbn [scan_state completed].
    change (scan_char "{" unframed) with (mkScanner true false "{", @None string).
    cbn [fst]. rewrite completed_app, scan_state_app.
    destruct (scan_body b1 (mkScanner true false "{") eq_refl H1) as [E1 E2].
    rewrite E1, E2. cbn [firstEOL JSONFrame scan_state completed].
    unfold scan_char at 1 2 3. cbn [framed firstEOL JSONFrame negb fst].
    rewrite Ascii.eqb_refl. cbn [negb fst].
    rewrite completed_app, scan_state_app.
    destruct (scan_body b2 (mkScanner true true (("{" ++ b1) ++ String LF "")) eq_refl H2)
      as [E3 E4].
    rewrite E3, E4. cbn [firstEOL JSONFrame scan_state completed].
    unfold scan_char. cbn [framed firstEOL JSONFrame negb fst].
    rewrite Ascii.eqb_refl. cbn [negb fst framed unframed app].
    rewrite !append_assoc_str, !append_cons, !append_empty_l.
    split; reflexivity. }
  destruct Hhead as [Hc Hd].
  replace ("{" ++ b1 ++ String LF (b2 ++ String LF (tail ++ rest)))
    with (("{" ++ b1 ++ String LF (b2 ++ String LF "")) ++ tail ++ rest).
  - rewrite (deframe_skips_noise _ tail rest Hc Ht), Hd. reflexivity.
  - rewrite !append_assoc_str, !append_cons, !append_assoc_str, !append_cons, !append_empty_l.
    reflexivity.
Qed.

Lemma deframe_ends_at_second_line_feed_witness :
  deframe ("{" ++ "a:" ++ String LF ("1}" ++ String LF (String LF "" ++ "{b}")))
  = ("{" ++ "a:" ++ String LF ("1}" ++ String LF "")) :: deframe "{b}".
Proof.
  apply (deframe_ends_at_second_line_feed "a:" "1}" (String LF "") "{b}"); reflexivity.
Defined.

Lemma scan_char_brace c st :
  (framed st = true -> exists t, JSONFrame st = String LBRACE t) ->
  (framed (fst (scan_char c st)) = true ->
   exists t, JSONFrame (fst (scan_char c st)) = String LBRACE t)
  /\ (forall f, snd (scan_char c st) = Some f -> exists t, f = String LBRACE t).
Proof.
  intros Hst. unfold scan_char. destruct (framed st) eqn:Hf.
  - destruct (Hst eq_refl) as [t Ht]. rewrite Ht, append_cons.
    destruct (Ascii.eqb LF c); [destruct (firstEOL st)|]; cbn;
      (split; [intros; try discriminate; eauto | intros f E; try discriminate]).
    injection E as <-. eauto.
  - destruct (Ascii.eqb LBRACE c); cbn.
    + split; [intros _; exists ""; reflexivity|discriminate].
    + split; [rewrite Hf; discriminate|discriminate].
Qed.

Lemma scan_brace blob : forall st,
  (framed st = true -> exists t, JSONFrame st = String LBRACE t) ->
  forall f, f ∈ scan blob st -> exists t, f = String LBRACE t.
Proof.
  induction blob as [|c rest IH]; intros st Hst f Hin.
  - cbn in Hin. destruct (framed st) eqn:Hf; [|inversion Hin].
    apply list_elem_of_singleton in Hin as ->. exact (Hst eq_refl).
  - cbn [scan] in Hin. destruct (scan_char_brace c st Hst) as [H1 H2].
    destruct (scan_char c st) as [st' [frame|]]; cbn [fst snd] in *.
    + apply elem_of_cons in Hin as [->|Hin]; [exact (H2 frame eq_refl)|].
      exact (IH st' H1 f Hin).
    + exact (IH st' H1 f Hin).
Qed.

(** X3.  Whatever the chunk, every frame handed to the mirror begins
    with a brace. *)
Theorem deframe_frames_begin_with_brace (blob : string) :
  Forall (fun f => exists t, f = String LBRACE t) (deframe blob).
Proof.
  apply Forall_forall. intros f Hf. revert f Hf. apply scan_brace. discriminate.
Qed.

End DeframerMore.

(** ** Running a method step by step *)

Section Steps.
Context {A B : Type}.

Lemma bind_lift_ok (r : result A) (a : A) (k : A -> M B) b :
  r = Ok a -> bind (lift r) k b = k a b.
Proof. intros ->. reflexivity. Qed.

Lemma bind_lift_throw (r : result A) e (k : A -> M B) b :
  r = Throw e -> bind (lift r) k b = (Throw e, b).
Proof. intros ->. reflexivity. Qed.

Lemma bind_ret (a : A) (k : A -> M B) b : bind (ret a) k b = k a b.
Proof. reflexivity. Qed.

Lemma bind_gets (f : Bot -> A) (k : A -> M B) b : bind (gets f) k b = k (f b) b.
Proof. reflexivity. Qed.

Lemma bind_assoc {C} (m : M A) (k1 : A -> M B) (k2 : B -> M C) b :
  bind (bind m k1) k2 b = bind m (fun a => bind (k1 a) k2) b.
Proof. unfold bind. destruct (m b) as [[a|e] b']; reflexivity. Qed.

End Steps.

Lemma bind_modify {B} (f : Bot -> Bot) (k : unit -> M B) b :
  bind (modify f) k b = k tt (f b).
Proof. reflexivity. Qed.

Ltac msteps :=
  repeat (cbv beta;
          first [rewrite bind_assoc | rewrite bind_modify | rewrite bind_gets
                | rewrite bind_ret]).

Lemma emit_all (f : nat -> event) l : forall b,
  fold_left (fun b cb => emit (f cb) b) l b
  = mkBot (host b) (port b) (username b) (server b) (connected b) (shouldReconnect b)
          (callbacks b) (names b) (history b) (noids b) (avatars b)
          (trace b ++ map f l).
Proof.
  induction l as [|cb l IH]; intros b; simpl.
  - rewrite List.app_nil_r. destruct b; reflexivity.
  - rewrite IH. unfold emit. cbn. rewrite <- List.app_assoc. reflexivity.
Qed.

(** Invoking the reactions of a key adds their calls to the trace, in the
    order of registration, and changes nothing else. *)
Lemma run_callbacks_eq key o b :
  run_callbacks key o b
  = mkBot (host b) (port b) (username b) (server b) (connected b) (shouldReconnect b)
          (callbacks b) (names b) (history b) (noids b) (avatars b)
          (trace b ++ map (fun cb => EvCall key cb o) (default [] (callbacks b !! key))).
Proof. unfold run_callbacks. apply emit_all. Qed.

Lemma run_lifecycle_eq key b :
  run_lifecycle key b
  = mkBot (host b) (port b) (username b) (server b) (connected b) (shouldReconnect b)
          (callbacks b) (names b) (history b) (noids b) (avatars b)
          (trace b ++ map (fun cb => EvLifecycle key cb) (default [] (callbacks b !! key))).
Proof. unfold run_lifecycle. apply emit_all. Qed.

(** The dispatch of a message that is no deletion: the reactions of its
    operation, then those of [msg]. *)
Lemma dispatch_plain fields op b :
  assoc "op" fields = Some (VStr op) -> op <> "delete" ->
  dispatch (VObj fields) b
  = (Ok tt, run_callbacks "msg" (VObj fields) (run_callbacks op (VObj fields) b)).
Proof.
  intros Hop Hne. unfold dispatch. cbn [is_nullish negb].
  rewrite (bind_lift_ok _ _ _ _ (get_prop_obj fields "op")), Hop.
  cbn [default from_option id to_string strict_eq_str]. rewrite bind_gets.
  apply String.eqb_neq in Hne. rewrite Hne. cbn [when].
  destruct (callbacks b !! op) as [l|] eqn:Hl.
  - rewrite bool_decide_eq_true_2 by eauto. cbn [when]. msteps. reflexivity.
  - rewrite bool_decide_eq_false_2 by (intros [x Hx]; discriminate). cbn [when]. msteps.
    unfold bind, modify, ret. do 2 f_equal.
    unfold run_callbacks. rewrite Hl. reflexivity.
Qed.

Section Arrival.
Variables (fields pfields mfields : list (string * value)) (more : list value).
Variable ref : string.
Hypothesis obj_field : assoc "obj" fields = Some (VObj pfields).
Hypothesis ref_field : assoc "ref" pfields = Some (VStr ref).
Hypothesis mods_field : assoc "mods" pfields = Some (VArr (VObj mfields :: more)).

Lemma first_mod_type_arrival :
  first_mod_type (VObj fields) = Ok (default VUndef (assoc "type" mfields)).
Proof.
  unfold first_mod_type. rewrite get_prop_obj, obj_field. cbn [default from_option id rbind].
  rewrite get_prop_obj, mods_field. cbn [default from_option id rbind].
  change (get_prop (VArr (VObj mfields :: more)) "0") with (@Ok value (VObj mfields)).
  cbn [rbind]. apply get_prop_obj.
Qed.

(** [introduce] on a message whose object has a ref and a first mod runs
    to its end. *)
Lemma introduce_arrival b cbs :
  callbacks b !! "enteredRegion" = Some cbs ->
  introduce (VObj fields) b =
  (Ok tt,
   arrived (VObj fields) (VObj pfields)
     (default VUndef (assoc "noid" mfields)) (default VUndef (assoc "type" mfields))
     (default VUndef (assoc "name" pfields)) (default VUndef (assoc "you" fields)) ref b).
Proof.
  intros Hcb. unfold introduce, arrived.
  rewrite (bind_lift_ok _ (VObj pfields)) by (rewrite get_prop_obj, obj_field; reflexivity).
  rewrite (bind_lift_ok _ (VStr ref)) by (rewrite get_prop_obj, ref_field; reflexivity).
  cbn [addNames]. rewrite bind_modify, bind_modify.
  rewrite (bind_lift_ok _ true) by (cbn [has_prop]; rewrite mods_field; reflexivity).
  rewrite (bind_lift_ok _ true) by (rewrite get_prop_obj, mods_field; cbn; reflexivity).
  cbn [when]. rewrite bind_assoc.
  rewrite (bind_lift_ok _ (default VUndef (assoc "noid" mfields))).
  2:{ rewrite get_prop_obj, mods_field. cbn [default from_option id rbind].
      change (get_prop (VArr (VObj mfields :: more)) "0") with (@Ok value (VObj mfields)).
      cbn [rbind]. apply get_prop_obj. }
  rewrite bind_modify.
  rewrite (bind_lift_ok _ _ _ _ (get_prop_obj fields "you")).
  cbv zeta. cbn [to_string].
  destruct (truthy (default VUndef (assoc "you" fields))); cbn [when]; msteps.
  - cbn [callbacks set_names set_noids set_history]. rewrite Hcb. msteps.
    rewrite (bind_lift_ok _ _ _ _ first_mod_type_arrival).
    destruct (strict_eq_str (default VUndef (assoc "type" mfields)) "Ghost"); cbn [when]; msteps;
      rewrite (bind_lift_ok _ _ _ _ first_mod_type_arrival);
      (destruct (strict_eq_str (default VUndef (assoc "type" mfields)) "Avatar"); cbn [when];
       [rewrite (bind_lift_ok _ _ _ _ (get_prop_obj pfields "name"))|]; reflexivity).
  - rewrite (bind_lift_ok _ _ _ _ first_mod_type_arrival).
    destruct (strict_eq_str (default VUndef (assoc "type" mfields)) "Ghost"); cbn [when]; msteps;
      rewrite (bind_lift_ok _ _ _ _ first_mod_type_arrival);
      (destruct (strict_eq_str (default VUndef (assoc "type" mfields)) "Avatar"); cbn [when];
       [rewrite (bind_lift_ok _ _ _ _ (get_prop_obj pfields "name"))|]; reflexivity).
Qed.

End Arrival.

Section Reception.

Variable parseElko : string -> value.

(** The first step of [scanForRefs]: the aliases of the target. *)
Lemma target_step fields {B} (k : unit -> M B) b :
  target_ok fields ->
  exists nm0,
    bind (when (truthy (default VUndef (assoc "to" fields)))
               (addNames (default VUndef (assoc "to" fields)))) k b
    = k tt (set_names nm0 b).
Proof.
  intros [Hto|[t Hto]]; rewrite Hto; cbn [default from_option id].
  - exists (names b). cbn. destruct b; reflexivity.
  - destruct (truthy (VStr t)); cbn [when addNames].
    + eexists. rewrite bind_modify. reflexivity.
    + exists (names b). rewrite bind_ret. destruct b; reflexivity.
Qed.

(** [scanForRefs] on a [make], or on a [HEREIS_$] once its object is put
    under [obj]. *)
Lemma scanForRefs_arrival s b fields0 fields pfields mfields more ref cbs :
  parseElko s = VObj fields0 ->
  target_ok fields0 ->
  (assoc "op" fields0 = Some (VStr "make") /\ assoc "obj" fields0 = Some (VObj pfields)
   /\ fields = fields0) \/
  (assoc "op" fields0 = Some (VStr "HEREIS_$") /\ assoc "object" fields0 = Some (VObj pfields)
   /\ fields = set_field "obj" (VObj pfields) fields0) ->
  assoc "ref" pfields = Some (VStr ref) ->
  assoc "mods" pfields = Some (VArr (VObj mfields :: more)) ->
  callbacks b !! "enteredRegion" = Some cbs ->
  exists nm0,
    scanForRefs parseElko s b =
    (Ok (VObj fields),
     arrived (VObj fields) (VObj pfields)
       (default VUndef (assoc "noid" mfields)) (default VUndef (assoc "type" mfields))
       (default VUndef (assoc "name" pfields)) (default VUndef (assoc "you" fields0)) ref
       (set_names nm0 b)).
Proof.
  intros Ho Hto Hop Href Hmods Hcb. unfold scanForRefs. rewrite Ho.
  rewrite (bind_lift_ok _ _ _ _ (get_prop_obj fields0 "to")).
  destruct (target_step fields0
              (fun _ => run! op := lift (get_prop (VObj fields0) "op") in
                 if negb (truthy op) then ret VUndef
                 else
                   run! o1 :=
                     (if strict_eq_str op "HEREIS_$" then
                        run! object := lift (get_prop (VObj fields0) "object") in
                        ret (set_obj_field (VObj fields0) "obj" object)
                      else ret (VObj fields0)) in
                   when (strict_eq_str op "make" || loose_eq_str op "HEREIS_$")
                        (introduce o1) ;;;
                   ret o1) b Hto) as [nm0 Hstep].
  exists nm0. rewrite Hstep. clear Hstep.
  rewrite (bind_lift_ok _ _ _ _ (get_prop_obj fields0 "op")).
  destruct Hop as [(Hop & Hobj & ->)|(Hop & Hobj & ->)]; rewrite Hop;
    cbn [default from_option id truthy negb String.eqb Ascii.eqb Bool.eqb
         strict_eq_str loose_eq_str orb]; msteps.
  - cbn [when]. unfold bind at 1.
    rewrite (introduce_arrival fields0 pfields mfields more ref Hobj Href Hmods
               (set_names nm0 b) cbs Hcb).
    reflexivity.
  - rewrite (bind_lift_ok _ _ _ _ (get_prop_obj fields0 "object")), Hobj.
    cbn [default from_option id]. msteps. cbn [when set_obj_field].
    unfold bind at 1.
    rewrite (introduce_arrival _ pfields mfields more ref
               (assoc_set_field_eq "obj" (VObj pfields) fields0) Href Hmods
               (set_names nm0 b) cbs Hcb).
    rewrite (assoc_set_field_ne "obj" "you") by discriminate.
    reflexivity.
Qed.

End Reception.

Section ArrivedTables.

Variables (o obj noid ty name you : value) (ref : string) (b : Bot).

Lemma arrived_history :
  history (arrived o obj noid ty name you ref b) = <[ref := o]> (history b).
Proof.
  unfold arrived. rewrite run_callbacks_eq.
  destruct (truthy you), (strict_eq_str ty "Ghost"), (strict_eq_str ty "Avatar"); reflexivity.
Qed.

Lemma arrived_noids :
  noids (arrived o obj noid ty name you ref b) = <[to_string noid := obj]> (noids b).
Proof.
  unfold arrived. rewrite run_callbacks_eq.
  destruct (truthy you), (strict_eq_str ty "Ghost"), (strict_eq_str ty "Avatar"); reflexivity.
Qed.

Lemma arrived_callbacks : callbacks (arrived o obj noid ty name you ref b) = callbacks b.
Proof.
  unfold arrived. rewrite run_callbacks_eq.
  destruct (truthy you), (strict_eq_str ty "Ghost"), (strict_eq_str ty "Avatar"); reflexivity.
Qed.

Lemma arrived_avatars :
  avatars (arrived o obj noid ty name you ref b)
  = if strict_eq_str ty "Avatar" then <[to_string name := obj]> (avatars b) else avatars b.
Proof.
  unfold arrived. rewrite run_callbacks_eq.
  destruct (truthy you), (strict_eq_str ty "Ghost"), (strict_eq_str ty "Avatar"); reflexivity.
Qed.

Lemma arrived_trace :
  trace (arrived o obj noid ty name you ref b)
  = (trace b ++ if truthy you
                then map (fun cb => EvCall "enteredRegion" cb o)
                         (default [] (callbacks b !! "enteredRegion"))
                else [])%list.
Proof.
  unfold arrived. rewrite run_callbacks_eq.
  destruct (truthy you), (strict_eq_str ty "Ghost"), (strict_eq_str ty "Avatar");
    cbn; rewrite ?List.app_nil_r; reflexivity.
Qed.

Lemma arrived_me :
  truthy you = true ->
  names (arrived o obj noid ty name you ref b) !! "ME" = Some ref
  /\ names (arrived o obj noid ty name you ref b) !! "USER"
     = Some (nth 0 (split "-" ref) "undefined" ++ "-" ++ nth 1 (split "-" ref) "undefined").
Proof.
  intros Hy. unfold arrived. rewrite run_callbacks_eq, Hy.
  destruct (strict_eq_str ty "Ghost"), (strict_eq_str ty "Avatar"); cbn;
    rewrite ?(lookup_insert_ne _ "GHOST") by discriminate;
    rewrite ?lookup_insert_eq; (split; [|reflexivity]);
    rewrite lookup_insert_ne by discriminate; apply lookup_insert_eq.
Qed.

End ArrivedTables.

Section OwnArrival.

Variable parseElko : string -> value.
Variables (blob s : string) (b : Bot).
Variables (fields0 fields pfields mfields : list (string * value)) (more : list value).
Variables (ref opname : string) (cbs : list nat).

Hypothesis one_frame : deframe blob = [s].
Hypothesis parsed : parseElko s = VObj fields0.
Hypothesis target : target_ok fields0.
Hypothesis operation :
  (opname = "make" /\ assoc "op" fields0 = Some (VStr "make")
   /\ assoc "obj" fields0 = Some (VObj pfields) /\ fields = fields0) \/
  (opname = "HEREIS_$" /\ assoc "op" fields0 = Some (VStr "HEREIS_$")
   /\ assoc "object" fields0 = Some (VObj pfields)
   /\ fields = set_field "obj" (VObj pfields) fields0).
Hypothesis has_ref : assoc "ref" pfields = Some (VStr ref).
Hypothesis has_mods : assoc "mods" pfields = Some (VArr (VObj mfields :: more)).
Hypothesis reactions : callbacks b !! "enteredRegion" = Some cbs.

Lemma operation_kept : assoc "op" fields = Some (VStr opname) /\ opname <> "delete".
Proof.
  destruct operation as [(-> & Hop & _ & ->)|(-> & Hop & _ & ->)].
  - split; [exact Hop|discriminate].
  - split; [|discriminate]. rewrite assoc_set_field_ne by discriminate. exact Hop.
Qed.

(** [processData] on a chunk that holds one frame, the arrival of an
    object. *)
Lemma processData_arrival :
  exists nm0,
    processData parseElko blob b =
    (Ok tt,
     run_callbacks "msg" (VObj fields)
       (run_callbacks opname (VObj fields)
          (arrived (VObj fields) (VObj pfields)
             (default VUndef (assoc "noid" mfields)) (default VUndef (assoc "type" mfields))
             (default VUndef (assoc "name" pfields)) (default VUndef (assoc "you" fields0))
             ref (set_names nm0 b)))).
Proof.
  destruct operation_kept as [Hop Hne].
  assert (Hscan : exists nm0,
    scanForRefs parseElko s b =
    (Ok (VObj fields),
     arrived (VObj fields) (VObj pfields)
       (default VUndef (assoc "noid" mfields)) (default VUndef (assoc "type" mfields))
       (default VUndef (assoc "name" pfields)) (default VUndef (assoc "you" fields0)) ref
       (set_names nm0 b))).
  { apply (scanForRefs_arrival parseElko s b fields0 fields pfields mfields more ref cbs);
      try assumption.
    destruct operation as [(_ & H1 & H2 & H3)|(_ & H1 & H2 & H3)]; [left|right]; auto. }
  destruct Hscan as [nm0 Hscan]. exists nm0.
  rewrite (processData_single parseElko blob s b one_frame).
  unfold bind. rewrite Hscan. apply dispatch_plain; assumption.
Qed.




End OwnArrival.




(** ** What the arrival of data leaves alone *)

Section Received.

Variable parseElko : string -> value.
Variable b0 : Bot.

Lemma received_refl b : received b b.
Proof.
  repeat split; auto. exists []. split; [symmetry; apply List.app_nil_r|constructor].
Qed.

Lemma received_tables b nm h av :
  received b0 b ->
  received b0 (set_names nm b) /\ received b0 (set_history h b)
  /\ received b0 (set_avatars av b).
Proof. intros H. repeat split; try apply H. Qed.

Lemma received_noids b k x :
  received b0 b -> received b0 (set_noids (<[k := x]> (noids b)) b).
Proof.
  intros (H1 & H2 & H3 & H4 & H5 & H6 & H7 & H8 & H9).
  repeat split; try assumption.
  intros k' Hk'. cbn [noids set_noids].
  destruct (decide (k = k')) as [<-|Hne].
  - rewrite lookup_insert_eq. eauto.
  - rewrite lookup_insert_ne by exact Hne. auto.
Qed.

Lemma received_run_callbacks key msg b :
  received b0 b -> received b0 (run_callbacks key msg b).
Proof.
  intros (H1 & H2 & H3 & H4 & H5 & H6 & H7 & H8 & evs & H9 & H10).
  rewrite run_callbacks_eq. repeat split; try assumption.
  cbn [trace]. eexists. rewrite H9, <- List.app_assoc. split; [reflexivity|].
  apply Forall_app. split; [exact H10|].
  apply Forall_forall. intros e He. apply list_elem_of_In in He.
  apply in_map_iff in He as (cb & <- & _). eauto.
Qed.

Ltac received_cases :=
  repeat first
    [ keeps_step
    | match goal with
      | |- keeps _ (match ?x with _ => _ end) => destruct x
      end ];
  cbv beta;
  try assumption;
  try (apply received_tables; assumption);
  try (apply received_noids; assumption);
  try (apply received_run_callbacks; assumption).

Lemma received_introduce o : keeps (received b0) (introduce o).
Proof. unfold introduce, addNames. cbv zeta. received_cases. Qed.

Lemma received_scanForRefs s : keeps (received b0) (scanForRefs parseElko s).
Proof.
  unfold scanForRefs.
  apply keeps_bind; [apply keeps_lift|intros to].
  apply keeps_bind; [unfold addNames; received_cases|intros _].
  apply keeps_bind; [apply keeps_lift|intros op].
  apply keeps_if; [apply keeps_ret|].
  apply keeps_bind; [received_cases|intros o1].
  apply keeps_bind; [apply keeps_when, received_introduce|intros _].
  apply keeps_ret.
Qed.

Lemma received_dispatch o : keeps (received b0) (dispatch o).
Proof. unfold dispatch, forget, clearNames. received_cases. Qed.

Lemma received_process_frames frames o :
  keeps (received b0) (process_frames parseElko frames o).
Proof.
  revert o. induction frames as [|f frames IH]; intros o; simpl.
  - apply keeps_ret.
  - apply keeps_bind; [apply received_scanForRefs|intros o'; apply IH].
Qed.

Lemma received_processData blob b : b = b0 -> received b0 (snd (processData parseElko blob b)).
Proof.
  intros ->. rewrite processData_frames.
  apply (triple_snd (received b0)); [|apply received_refl].
  apply keeps_bind; [apply received_process_frames|intros o; apply received_dispatch].
Qed.

End Received.

(** X7.  However [processData] ends, it leaves the configuration, the
    connection and the registered reactions as they were, removes no
    entry of [noids], and adds to the trace invocations of reactions
    only: it opens no socket and logs no error. *)
Theorem processData_leaves_connection_and_reactions
    (parseElko : string -> value) (blob : string) (b : Bot) :
  received b (snd (processData parseElko blob b)).
Proof. apply received_processData. reflexivity. Qed.

(** X8.  An object that [getNoid] finds is still found after any data
    arrived, a [delete] for the object included. *)
Theorem getNoid_finds_after_any_data
    (parseElko : string -> value) (blob : string) (b : Bot) (noid obj : value) :
  noids b !! to_string noid = Some obj ->
  exists obj', getNoid noid (snd (processData parseElko blob b))
               = (Ok obj', snd (processData parseElko blob b))
               /\ noids (snd (processData parseElko blob b)) !! to_string noid = Some obj'.
Proof.
  intros H.
  destruct (received_processData parseElko b blob b eq_refl) as (_ & _ & _ & _ & _ & _ & _ & Hn & _).
  destruct (Hn (to_string noid) (ex_intro _ obj H)) as [obj' Hobj'].
  exists obj'. split; [|exact Hobj'].
  unfold getNoid. rewrite bind_gets, Hobj'. reflexivity.
Qed.

(** X9.  A chunk without an opening brace changes nothing and invokes no
    reaction. *)
Theorem processData_without_brace
    (parseElko : string -> value) (blob : string) (b : Bot) :
  contains LBRACE blob = false ->
  processData parseElko blob b = (Ok tt, b).
Proof.
  intros H. rewrite processData_frames, (deframe_noise blob H). reflexivity.
Qed.

Lemma getNoid_finds_after_any_data_witness :
  exists obj', getNoid (VNum 42) (snd (processData Sample.parse Sample.frame_delete Sample.in_region))
               = (Ok obj', snd (processData Sample.parse Sample.frame_delete Sample.in_region))
               /\ noids (snd (processData Sample.parse Sample.frame_delete Sample.in_region))
                    !! "42" = Some obj'.
Proof.
  apply (getNoid_finds_after_any_data Sample.parse Sample.frame_delete Sample.in_region
           (VNum 42) Sample.randy_obj).
  vm_compute. reflexivity.
Defined.

Lemma processData_without_brace_witness :
  processData Sample.parse "hello" Sample.online = (Ok tt, Sample.online).
Proof. apply processData_without_brace. reflexivity. Defined.

(** ** Deletion *)

Lemma clearNames_addNames s nm :
  clearNames_str s (addNames_str s nm) = clearNames_str s nm.
Proof.
  apply map_eq. intros k. rewrite !clearNames_str_lookup, addNames_str_lookup.
  destruct (decide (k ∈ aliases_of s)); reflexivity.
Qed.

Section Deletion.

Variable parseElko : string -> value.
Variables (blob s ref : string) (b : Bot) (fields : list (string * value)).

Hypothesis one_frame : deframe blob = [s].
Hypothesis parsed : parseElko s = VObj fields.
Hypothesis operation : assoc "op" fields = Some (VStr "delete").
Hypothesis target : assoc "to" fields = Some (VStr ref).

Lemma scanForRefs_delete :
  exists nm0,
    scanForRefs parseElko s b = (Ok (VObj fields), set_names nm0 b)
    /\ clearNames_str ref nm0 = clearNames_str ref (names b).
Proof.
  unfold scanForRefs. rewrite parsed.
  rewrite (bind_lift_ok _ _ _ _ (get_prop_obj fields "to")), target.
  cbn [default from_option id].
  assert (Hrest : forall b1,
    (run! op := lift (get_prop (VObj fields) "op") in
     if negb (truthy op) then ret VUndef
     else
       run! o1 :=
         (if strict_eq_str op "HEREIS_$" then
            run! object := lift (get_prop (VObj fields) "object") in
            ret (set_obj_field (VObj fields) "obj" object)
          else ret (VObj fields)) in
       when (strict_eq_str op "make" || loose_eq_str op "HEREIS_$") (introduce o1) ;;;
       ret o1) b1 = (Ok (VObj fields), b1)).
  { intros b1. rewrite (bind_lift_ok _ _ _ _ (get_prop_obj fields "op")), operation.
    reflexivity. }
  destruct (truthy (VStr ref)); cbn [when addNames].
  - exists (addNames_str ref (names b)). rewrite bind_modify, Hrest.
    split; [reflexivity|apply clearNames_addNames].
  - exists (names b). rewrite bind_ret, Hrest. split; [|reflexivity].
    destruct b; reflexivity.
Qed.

Lemma dispatch_delete b1 :
  dispatch (VObj fields) b1
  = forget (VObj fields)
      (run_callbacks "msg" (VObj fields) (run_callbacks "delete" (VObj fields) b1)).
Proof.
  unfold dispatch. cbn [is_nullish negb].
  rewrite (bind_lift_ok _ _ _ _ (get_prop_obj fields "op")), operation.
  cbn [default from_option id to_string strict_eq_str String.eqb Ascii.eqb Bool.eqb].
  rewrite bind_gets. cbn [when].
  destruct (callbacks b1 !! "delete") as [l|] eqn:Hl.
  - rewrite bool_decide_eq_true_2 by eauto. cbn [when]. msteps. reflexivity.
  - rewrite bool_decide_eq_false_2 by (intros [x Hx]; discriminate). cbn [when]. msteps.
    f_equal. f_equal. unfold run_callbacks. rewrite Hl. reflexivity.
Qed.

Lemma forget_known b1 hfields pfields mfields more :
  history b1 !! ref = Some (VObj hfields) ->
  assoc "obj" hfields = Some (VObj pfields) ->
  assoc "mods" pfields = Some (VArr (VObj mfields :: more)) ->
  forget (VObj fields) b1
  = (Ok tt,
     let b2 := set_names (clearNames_str ref (names b1)) b1 in
     let b3 := if strict_eq_str (default VUndef (assoc "type" mfields)) "Avatar"
               then set_avatars
                      (delete (to_string (default VUndef (assoc "name" pfields))) (avatars b2)) b2
               else b2 in
     set_history (delete ref (history b3)) b3).
Proof.
  intros Hh Hobj Hmods. unfold forget.
  rewrite (bind_lift_ok _ _ _ _ (get_prop_obj fields "to")), target.
  cbn [default from_option id to_string]. rewrite bind_gets, Hh.
  cbn [default from_option id clearNames]. rewrite bind_modify.
  rewrite (bind_lift_ok _ true) by (cbn [has_prop]; rewrite Hobj; reflexivity).
  rewrite bind_assoc.
  rewrite (bind_lift_ok _ _ _ _
             (first_mod_type_arrival hfields pfields mfields more Hobj Hmods)).
  rewrite bind_ret. cbv zeta.
  destruct (strict_eq_str (default VUndef (assoc "type" mfields)) "Avatar"); cbn [when].
  - rewrite bind_assoc.
    rewrite (bind_lift_ok _ (default VUndef (assoc "name" pfields))).
    2:{ rewrite get_prop_obj, Hobj. cbn [default from_option id rbind]. apply get_prop_obj. }
    rewrite bind_modify. reflexivity.
  - rewrite bind_ret. reflexivity.
Qed.

Lemma forget_unknown b1 :
  history b1 !! ref = None ->
  forget (VObj fields) b1
  = (Throw TypeError, set_names (clearNames_str ref (names b1)) b1).
Proof.
  intros Hh. unfold forget.
  rewrite (bind_lift_ok _ _ _ _ (get_prop_obj fields "to")), target.
  cbn [default from_option id to_string]. rewrite bind_gets, Hh.
  cbn [default from_option id clearNames]. rewrite bind_modify.
  reflexivity.
Qed.




End Deletion.




(** ** Connecting and reconnecting *)

Lemma connect_open b :
  is_undefined (host b) = false -> is_undefined (port b) = false ->
  connected b = true -> connect b = (Ok tt, b).
Proof.
  intros has_host has_port Hc. unfold connect.
  rewrite !bind_gets, has_host, has_port. cbn [orb].
  rewrite bind_gets, Hc. reflexivity.
Qed.

Lemma connect_closed b :
  is_undefined (host b) = false -> is_undefined (port b) = false ->
  connected b = false ->
  connect b
  = (Ok tt, set_server (Some (next_socket b))
              (emit (EvNetConnect (port b) (host b) (next_socket b)) (clearState b))).
Proof.
  intros has_host has_port Hc. unfold connect.
  rewrite !bind_gets, has_host, has_port. cbn [orb].
  rewrite bind_gets, Hc. cbn [negb]. msteps. reflexivity.
Qed.

Lemma next_socket_app b evs :
  next_socket (mkBot (host b) (port b) (username b) (server b) (connected b)
                 (shouldReconnect b) (callbacks b) (names b) (history b) (noids b)
                 (avatars b) (trace b ++ evs))
  = (next_socket b
     + length (List.filter (fun e => match e with EvNetConnect _ _ _ => true | _ => false end)
                           evs))%nat.
Proof. unfold next_socket. cbn [trace]. rewrite List.filter_app, length_app. reflexivity. Qed.

Lemma next_socket_lifecycle key b : next_socket (run_lifecycle key b) = next_socket b.
Proof.
  rewrite run_lifecycle_eq, next_socket_app.
  induction (default [] (callbacks b !! key)) as [|cb l IH]; cbn; [lia|exact IH].
Qed.

Lemma onDisconnect_eq b :
  onDisconnect b
  = if shouldReconnect b
    then connect (run_lifecycle "disconnected" (set_connected false b))
    else (Ok tt, run_lifecycle "disconnected" (set_connected false b)).
Proof.
  unfold onDisconnect. msteps.
  assert (H : shouldReconnect (run_lifecycle "disconnected" (set_connected false b))
              = shouldReconnect b) by (rewrite run_lifecycle_eq; reflexivity).
  rewrite H. destruct (shouldReconnect b); reflexivity.
Qed.

Section Connection.

Variable b : Bot.
Hypothesis has_host : is_undefined (host b) = false.
Hypothesis has_port : is_undefined (port b) = false.

(** X13.  Once the socket of a [connect()] has opened, a further
    [connect()] does nothing: it opens no socket and keeps the mirror. *)
Theorem connect_again_when_open :
  connect (onConnect (snd (connect b))) = (Ok tt, onConnect (snd (connect b))).
Proof.
  apply connect_open; unfold onConnect; rewrite run_lifecycle_eq;
    destruct (connected b) eqn:Hc;
    first [rewrite (connect_open b has_host has_port Hc)
          |rewrite (connect_closed b has_host has_port Hc)];
    cbn; first [exact has_host|exact has_port|reflexivity].
Qed.

(** X14.  [connect()] looks at [connected] only, which is set when the
    socket opens: a second [connect()] before that opens a second socket,
    and the client holds the second one. *)
Theorem connect_twice_before_open :
  connected b = false ->
  trace (snd (connect (snd (connect b))))
  = (trace b ++ [EvNetConnect (port b) (host b) (next_socket b);
                 EvNetConnect (port b) (host b) (S (next_socket b))])%list
  /\ server (snd (connect (snd (connect b)))) = Some (S (next_socket b)).
Proof.
  intros Hc. rewrite (connect_closed b has_host has_port Hc). cbn [snd].
  set (b1 := set_server _ _).
  assert (Hn : next_socket b1 = S (next_socket b)).
  { unfold b1, next_socket. cbn [trace set_server emit clearState set_avatars set_noids
      set_history set_names]. rewrite List.filter_app, length_app. cbn. lia. }
  rewrite (connect_closed b1 has_host has_port Hc). rewrite Hn. cbn [snd].
  split; [|reflexivity].
  unfold b1.
  cbn [trace set_server emit clearState set_avatars set_noids set_history set_names].
  rewrite <- List.app_assoc. reflexivity.
Qed.

(** X15.  [onDisconnect()] marks the client as not connected and invokes
    the reactions of [disconnected], each once and in the order of
    registration.  With [shouldReconnect] set it then clears the mirror
    and opens one new socket; without, it opens none and the mirror stays
    as it was. *)
Theorem onDisconnect_reconnects_if_configured :
  fst (onDisconnect b) = Ok tt
  /\ connected (snd (onDisconnect b)) = false
  /\ callbacks (snd (onDisconnect b)) = callbacks b
  /\ (shouldReconnect b = true ->
      trace (snd (onDisconnect b))
      = (trace b
         ++ map (fun cb => EvLifecycle "disconnected" cb)
                (default [] (callbacks b !! "disconnected"))
         ++ [EvNetConnect (port b) (host b) (next_socket b)])%list
      /\ server (snd (onDisconnect b)) = Some (next_socket b)
      /\ names (snd (onDisconnect b)) = ∅ /\ history (snd (onDisconnect b)) = ∅
      /\ noids (snd (onDisconnect b)) = ∅ /\ avatars (snd (onDisconnect b)) = ∅)
  /\ (shouldReconnect b = false ->
      trace (snd (onDisconnect b))
      = (trace b
         ++ map (fun cb => EvLifecycle "disconnected" cb)
                (default [] (callbacks b !! "disconnected")))%list
      /\ server (snd (onDisconnect b)) = server b
      /\ names (snd (onDisconnect b)) = names b /\ history (snd (onDisconnect b)) = history b
      /\ noids (snd (onDisconnect b)) = noids b /\ avatars (snd (onDisconnect b)) = avatars b).
Proof.
  rewrite onDisconnect_eq.
  destruct (shouldReconnect b) eqn:Hr.
  - rewrite connect_closed
      by (rewrite run_lifecycle_eq; first [exact has_host|exact has_port|reflexivity]).
    rewrite next_socket_lifecycle.
    change (next_socket (set_connected false b)) with (next_socket b).
    rewrite run_lifecycle_eq. cbn [fst snd].
    repeat split; try discriminate.
    cbn [trace set_server emit clearState set_avatars set_noids set_history set_names
         set_connected host port callbacks].
    rewrite <- List.app_assoc. reflexivity.
  - rewrite run_lifecycle_eq. cbn [fst snd]. repeat split; try discriminate.
Qed.

(** X16.  After a [connect()] of a client that was not connected the
    mirror is empty: [getAvatar] returns null, [getAvatarNoid] -1 and
    [isGhosted] false, and [getNoid] finds nothing for any noid that
    names no member of [Object.prototype], as no number does. *)
Theorem accessors_after_connect (noid : value) :
  connected b = false -> inherited (to_string noid) = false ->
  getAvatar (snd (connect b)) = (Ok VNull, snd (connect b))
  /\ getAvatarNoid (snd (connect b)) = (Ok (VNum (-1)), snd (connect b))
  /\ isGhosted (snd (connect b)) = (Ok (VBool false), snd (connect b))
  /\ fst (getNoid noid (snd (connect b))) = Ok VNull.
Proof.
  intros Hc _. rewrite (connect_closed b has_host has_port Hc). cbn [snd].
  set (b1 := set_server _ _).
  assert (Hav : getAvatar b1 = (Ok VNull, b1)).
  { unfold getAvatar. rewrite bind_gets. reflexivity. }
  split; [exact Hav|].
  unfold getAvatarNoid, isGhosted, bind. rewrite Hav. repeat split.
Qed.

End Connection.

Lemma connect_twice_before_open_witness :
  server (snd (connect (snd (connect Sample.fresh)))) = Some 1%nat.
Proof.
  exact (proj2 (connect_twice_before_open Sample.fresh ltac:(reflexivity) ltac:(reflexivity)
                  ltac:(reflexivity))).
Defined.

Lemma connect_again_when_open_witness :
  connect Sample.online = (Ok tt, Sample.online).
Proof.
  exact (connect_again_when_open Sample.fresh ltac:(reflexivity) ltac:(reflexivity)).
Defined.

Lemma onDisconnect_reconnects_if_configured_witness :
  connected (snd (onDisconnect Sample.in_region)) = false.
Proof.
  exact (proj1 (proj2 (onDisconnect_reconnects_if_configured Sample.in_region
                         ltac:(reflexivity) ltac:(reflexivity)))).
Defined.

Lemma accessors_after_connect_witness :
  getAvatar (snd (connect Sample.fresh)) = (Ok VNull, snd (connect Sample.fresh)).
Proof.
  exact (proj1 (accessors_after_connect Sample.fresh ltac:(reflexivity) ltac:(reflexivity)
                  (VNum 42) ltac:(reflexivity) ltac:(reflexivity))).
Defined.

(** ** Registration *)

(** X17.  For a key that the table of reactions owns, or that names no
    member of [Object.prototype], [on] returns, and the reaction it
    registers is invoked after those registered before for the same key,
    once for each dispatch to the key; the reactions of the other keys
    are as they were.  For a name that the table inherits without owning
    it, such as [toString], [on] throws a TypeError and registers
    nothing. *)
Theorem on_registers_last (key key' : string) (cb : nat) (o : value) (b : Bot) :
  (own_read (callbacks b) key ->
   fst (on key cb b) = Ok tt
   /\ trace (run_callbacks key o (snd (on key cb b)))
      = (trace (run_callbacks key o b) ++ [EvCall key cb o])%list
   /\ (key' <> key ->
       trace (run_callbacks key' o (snd (on key cb b))) = trace (run_callbacks key' o b)))
  /\ (callbacks b !! key = None -> inherited key = true ->
      on key cb b = (Throw TypeError, b)).
Proof.
  unfold on. rewrite !bind_gets. split.
  - intros Hown. rewrite !run_callbacks_eq.
    destruct (callbacks b !! key) as [l|] eqn:Hl.
    + cbn [fst snd modify trace callbacks set_callbacks default from_option id].
      rewrite lookup_insert_eq. cbn [default from_option id].
      rewrite map_app, <- List.app_assoc.
      split; [reflexivity|]. split; [reflexivity|]. intros Hne.
      rewrite lookup_insert_ne by congruence. reflexivity.
    + destruct Hown as [[x Hx]|Hin]; [congruence|]. rewrite Hin.
      cbn [fst snd modify trace callbacks set_callbacks default from_option id].
      rewrite lookup_insert_eq. cbn [default from_option id map].
      rewrite List.app_nil_r.
      split; [reflexivity|]. split; [reflexivity|]. intros Hne.
      rewrite lookup_insert_ne by congruence. reflexivity.
  - intros Hnone Hin. rewrite Hnone, Hin. reflexivity.
Qed.

Lemma on_registers_last_witness :
  trace (run_callbacks "msg" Sample.speak (snd (on "msg" 7 Sample.online)))
  = (trace (run_callbacks "msg" Sample.speak Sample.online) ++ [EvCall "msg" 7 Sample.speak])%list
  /\ on "toString" 7 Sample.online = (Throw TypeError, Sample.online).
Proof.
  split.
  - apply (proj1 (on_registers_last "msg" "SPEAK$" 7 Sample.speak Sample.online)).
    left. vm_compute. eauto.
  - apply (proj2 (on_registers_last "toString" "msg" 7 Sample.speak Sample.online));
      vm_compute; reflexivity.
Defined.

(** ** More on aliases *)

(** X18.  When a word that names no member of [Object.prototype] is an
    alias of two refs, it stands for the one whose names were added last,
    and clearing the names of that one removes the word although the
    other ref was not cleared. *)
Theorem shared_alias_is_lost (r1 r2 k : string) (nm : gmap string string) :
  k ∈ aliases_of r1 -> k ∈ aliases_of r2 -> inherited k = false ->
  addNames_str r1 nm !! k = Some r1
  /\ addNames_str r2 (addNames_str r1 nm) !! k = Some r2
  /\ clearNames_str r2 (addNames_str r2 (addNames_str r1 nm)) !! k = None.
Proof.
  intros H1 H2 Hin.
  assert (Hne : k <> "__proto__") by (intros ->; discriminate).
  rewrite clearNames_str_lookup, !addNames_str_alias by assumption.
  rewrite decide_True by assumption. auto.
Qed.

Lemma shared_alias_is_lost_witness :
  clearNames_str "item-shield-2" (addNames_str "item-shield-2" (addNames_str "item-sword-1" ∅))
    !! "item" = None.
Proof.
  refine (proj2 (proj2 (shared_alias_is_lost "item-sword-1" "item-shield-2" "item" ∅ _ _ _)));
    [vm_compute; constructor|vm_compute; constructor|reflexivity].
Defined.

(** X19.  Clearing the names of a ref right after adding them gives the
    table back when none of its aliases was in the table before. *)
Theorem clearNames_undoes_addNames (s : string) (nm : gmap string string) :
  (forall k, k ∈ aliases_of s -> nm !! k = None) ->
  clearNames_str s (addNames_str s nm) = nm.
Proof.
  intros H. apply map_eq. intros k.
  rewrite clearNames_str_lookup, addNames_str_lookup.
  destruct (decide (k ∈ aliases_of s)) as [Hk|Hk]; [symmetry; exact (H k Hk)|reflexivity].
Qed.

Lemma clearNames_undoes_addNames_witness :
  clearNames_str "user-randy-100" (addNames_str "user-randy-100" ∅) = ∅.
Proof.
  apply clearNames_undoes_addNames. intros k _. apply lookup_empty.
Defined.

(** ** More on the substitution *)

(** X20.  A command that has no field called [hasOwnProperty] and none
    of whose fields is a string with a dollar sign comes out of
    [substituteState] as it went in, whatever the mirror holds, and the
    call does not throw.  A command that has a field called
    [hasOwnProperty] makes [substituteState] throw a TypeError and is
    left as it is. *)
Theorem substituteState_plain_unchanged (b : Bot) (m : list (string * value)) :
  ("hasOwnProperty" ∉ map fst m -> Forall (fun f => plain (snd f)) m ->
   substituteState b m = (Ok tt, m))
  /\ ("hasOwnProperty" ∈ map fst m -> substituteState b m = (Throw TypeError, m)).
Proof.
  split.
  - intros Hh H. apply substituteState_loop_plain; [apply assoc_absent, Hh|exact H].
  - intros Hh. unfold substituteState.
    assert (Hx : exists x, assoc "hasOwnProperty" m = Some x).
    { clear -Hh. induction m as [|[k v] m IH]; [inversion Hh|].
      cbn [map fst assoc] in *. destruct (String.eqb k "hasOwnProperty") eqn:E; [eauto|].
      apply IH. apply elem_of_cons in Hh as [Hh|Hh]; [|exact Hh].
      apply String.eqb_neq in E. congruence. }
    destruct Hx as [x Hx]. destruct m as [|[k v] m]; [discriminate|].
    exact (loop_own_hasOwnProperty b k _ _ _ x Hx).
Qed.

Lemma substituteState_plain_unchanged_witness :
  substituteState Sample.in_region [("op", VStr "POSTURE"); ("to", VStr "ME"); ("pose", VNum 141)]
  = (Ok tt, [("op", VStr "POSTURE"); ("to", VStr "ME"); ("pose", VNum 141)]).
Proof.
  apply substituteState_plain_unchanged; [|repeat constructor].
  intros H. repeat (apply elem_of_cons in H as [H|H]; [discriminate|]). inversion H.
Defined.

Lemma split_cons_free sep (w : string) :
  contains sep w = false -> split sep (String sep w) = [""; w].
Proof.
  intros H. cbn [split]. rewrite Ascii.eqb_refl, (split_free sep w H). reflexivity.
Qed.

Lemma split_head sep (w : string) : exists seg rest, split sep w = seg :: rest.
Proof.
  destruct (split sep w) as [|seg rest] eqn:E; [|eauto].
  exfalso. exact (split_nonempty sep w E).
Qed.



Section StaleMod.

Variable b : Bot.
Variables (c1 c2 n1 n2 seg : string).
Variables (r1 r2 v1 : value) (o1 m1 o2 : list (string * value)) (ms : list value).

Hypothesis path1 : split "." c1 = [n1; seg].
Hypothesis path2 : split "." c2 = [n2; seg].
Hypothesis record1 : history b !! to_string (substituteName b (VStr n1)) = Some r1.
Hypothesis object1 : get_prop r1 "obj" = Ok (VObj o1).
Hypothesis one_mod : assoc "mods" o1 = Some (VArr [VObj m1]).
Hypothesis in_mod : assoc seg m1 = Some v1.
Hypothesis defined : is_undefined v1 = false.
Hypothesis record2 : history b !! to_string (substituteName b (VStr n2)) = Some r2.
Hypothesis object2 : get_prop r2 "obj" = Ok (VObj o2).
Hypothesis mods2 : assoc "mods" o2 = Some (VArr ms).
Hypothesis not_one : length ms <> 1%nat.
Hypothesis read1 : own_read (names b) n1.
Hypothesis read2 : own_read (names b) n2.
Hypothesis prints : decimal v1 = true.

Lemma bind_record_first vars :
  bind_record r1 vars = Ok (mkVars (VObj o1) (VObj m1)).
Proof.
  unfold bind_record. rewrite object1. cbn [rbind is_undefined negb].
  rewrite get_prop_obj, one_mod. reflexivity.
Qed.

Lemma bind_record_second vars :
  bind_record r2 vars = Ok (mkVars (VObj o2) (var_mod vars)).
Proof.
  unfold bind_record. rewrite object2. cbn [rbind is_undefined negb].
  rewrite get_prop_obj, mods2.
  cbn [default from_option id rbind get_prop String.eqb Ascii.eqb Bool.eqb
       is_undefined negb andb strict_eq_num].
  assert (Hlen : (Z.of_nat (length ms) =? 1) = false) by (apply Z.eqb_neq; lia).
  rewrite Hlen. reflexivity.
Qed.

Lemma resolve_in_mod record obj :
  resolve_segments [seg] record (mkVars obj (VObj m1)) = Ok v1.
Proof.
  unfold resolve_segments, resolve_segment, defined_in.
  cbn [var_mod is_undefined negb]. rewrite get_prop_obj, in_mod.
  cbn [default from_option id rbind]. rewrite defined. reflexivity.
Qed.

Lemma resolve_first vars :
  resolve_chunk b c1 vars = Ok (v1, mkVars (VObj o1) (VObj m1)).
Proof.
  unfold resolve_chunk. rewrite path1, record1, bind_record_first. cbn [rbind].
  rewrite resolve_in_mod. reflexivity.
Qed.

Lemma resolve_second :
  resolve_chunk b c2 (mkVars (VObj o1) (VObj m1))
  = Ok (v1, mkVars (VObj o2) (VObj m1)).
Proof.
  unfold resolve_chunk. rewrite path2, record2, bind_record_second. cbn [rbind var_mod].
  rewrite resolve_in_mod. reflexivity.
Qed.


End StaleMod.


(** ** Any number of sends *)

Section Sends.

Variable JSON_stringify : value -> string.
Variable parseElko : string -> value.

Lemma send_all_tracked t0 cmds : forall us s,
  steady s -> tracking us t0 s ->
  steady (send_all JSON_stringify cmds s)
  /\ tracking (us ++ units_from (next_uid s) cmds)%list t0 (send_all JSON_stringify cmds s).
Proof.
  induction cmds as [|[l d] cmds IH]; intros us s Hst Htr; cbn [send_all units_from].
  - rewrite List.app_nil_r. auto.
  - destruct (send_tracked JSON_stringify us t0 l d s Hst Htr) as [Hst1 Htr1].
    destruct (IH _ _ Hst1 Htr1) as [Hst2 Htr2].
    rewrite sendWithDelay_next_uid, <- List.app_assoc in Htr2. auto.
Qed.

Lemma units_from_length n cmds : length (units_from n cmds) = length cmds.
Proof.
  revert n. induction cmds as [|[l d] cmds IH]; intros n; cbn; [reflexivity|].
  rewrite IH. reflexivity.
Qed.

(** X23.  Any number of commands are sent in a row and then the event
    loop runs in any way it can.  At most one unit runs at any time; the
    writes made for the commands follow the order of the sends; each
    comes no earlier than the time of the sends plus its delay plus the
    delays of the commands written before it; and when as many writes
    were made as commands were sent, they are the writes of the commands,
    one each, in order. *)
Theorem any_sends_in_order_and_paced
    (s0 : Sim) (cmds : list (nat * Z)) (ins : list input) (s : Sim) :
  steady s0 ->
  run JSON_stringify parseElko ins (send_all JSON_stringify cmds s0) = Some s ->
  (length (pendingPromises s) <= 1)%nat
  /\ map w_unit (writes_of (units_from (next_uid s0) cmds) s)
       `sublist_of` units_from (next_uid s0) cmds
  /\ paced (now_ s0) (writes_of (units_from (next_uid s0) cmds) s)
  /\ now_ s0 + total_delay (writes_of (units_from (next_uid s0) cmds) s) <= now_ s
  /\ (length (writes_of (units_from (next_uid s0) cmds) s) = length cmds ->
      map w_unit (writes_of (units_from (next_uid s0) cmds) s)
      = units_from (next_uid s0) cmds).
Proof.
  intros Hst0 Hrun.
  destruct (send_all_tracked (now_ s0) cmds [] s0 Hst0 (tracking_nothing s0)) as [Hst1 Htr1].
  cbn [app] in Htr1.
  destruct (run_keeps JSON_stringify parseElko _ _ ins _ s Hst1 Htr1 Hrun) as [Hst Htr].
  destruct Hst as (_ & Hlen & _).
  destruct Htr as (k & _ & _ & _ & HW & _ & Hpaced & Hnow & _).
  assert (Hsub : map w_unit (writes_of (units_from (next_uid s0) cmds) s)
                   `sublist_of` units_from (next_uid s0) cmds).
  { etransitivity; [exact HW|apply sublist_take]. }
  repeat split; try assumption.
  intros Hall. apply sublist_same_length; [exact Hsub|].
  rewrite length_map, units_from_length, Hall. reflexivity.
Qed.

End Sends.

Lemma any_sends_in_order_and_paced_witness :
  exists s,
    run render Sample.parse [Tick 500; TimerFires 0; WriteDone 0; Tick 10500; TimerFires 1]
      (send_all render [(2%nat, 500); (3%nat, 10000); (2%nat, 500)] Sample.session) = Some s
    /\ map w_unit (writes_of (units_from 0 [(2%nat, 500); (3%nat, 10000); (2%nat, 500)]) s)
         `sublist_of` units_from 0 [(2%nat, 500); (3%nat, 10000); (2%nat, 500)]
    /\ paced 0 (writes_of (units_from 0 [(2%nat, 500); (3%nat, 10000); (2%nat, 500)]) s).
Proof.
  destruct (run render Sample.parse [Tick 500; TimerFires 0; WriteDone 0; Tick 10500; TimerFires 1]
      (send_all render [(2%nat, 500); (3%nat, 10000); (2%nat, 500)] Sample.session))
    as [s|] eqn:Hrun; [|vm_compute in Hrun; discriminate].
  exists s. split; [reflexivity|].
  destruct (any_sends_in_order_and_paced render Sample.parse Sample.session
              [(2%nat, 500); (3%nat, 10000); (2%nat, 500)] _ s (steady_boot _ _) Hrun)
    as (_ & H1 & H2 & _).
  split; [exact H1|exact H2].
Defined.

(** ** Every command is written at most once *)

Section Accounting.

Variable JSON_stringify : value -> string.
Variable parseElko : string -> value.

Lemma uid_inj (l : list unit_) u u' :
  NoDup (map uid l) -> u ∈ l -> u' ∈ l -> uid u = uid u' -> u = u'.
Proof.
  induction l as [|x l IH]; intros Hnd Hu Hu' E; [inversion Hu|].
  cbn [map] in Hnd. apply NoDup_cons in Hnd as [Hx Hnd].
  apply elem_of_cons in Hu as [->|Hu]; apply elem_of_cons in Hu' as [->|Hu'].
  - reflexivity.
  - exfalso. apply Hx. rewrite E. apply list_elem_of_In, in_map, list_elem_of_In, Hu'.
  - exfalso. apply Hx. rewrite <- E. apply list_elem_of_In, in_map, list_elem_of_In, Hu.
  - exact (IH Hnd Hu Hu' E).
Qed.

Lemma in_fst {B} (l : list (unit_ * B)) u x : (u, x) ∈ l -> u ∈ map fst l.
Proof.
  intros H. apply list_elem_of_In. apply list_elem_of_In in H.
  exact (in_map fst l (u, x) H).
Qed.

Lemma fst_in {B} (l : list (unit_ * B)) u : u ∈ map fst l -> exists x, (u, x) ∈ l.
Proof.
  intros H. apply list_elem_of_In, in_map_iff in H as ([u' x] & E & H).
  cbn in E. subst u'. exists x. apply list_elem_of_In, H.
Qed.

Lemma accounted_ext s s' :
  pendingPromises s' = pendingPromises s -> queue s' = queue s ->
  writes s' = writes s -> next_uid s' = next_uid s -> settled s' = settled s ->
  accounted s -> accounted s'.
Proof. unfold accounted, all_units. intros -> -> -> -> ->. auto. Qed.

Lemma accounted_boot b h : accounted (boot b h).
Proof.
  unfold accounted, all_units, boot. cbn.
  split; [apply NoDup_nil_2|]. split; [intros x H; inversion H|].
  split; [intros x H; inversion H|]. split; [|apply NoDup_nil_2].
  intros x [H|H]; inversion H.
Qed.

(** A unit is in one place only. *)
Lemma one_place s u :
  NoDup (map uid (all_units s)) ->
  (u ∈ map fst (settled s) -> u ∈ map fst (pendingPromises s) -> False)
  /\ (u ∈ map fst (settled s) -> u ∈ queue s -> False)
  /\ (u ∈ map fst (pendingPromises s) -> u ∈ queue s -> False).
Proof.
  unfold all_units. rewrite !map_app. intros H.
  apply NoDup_app in H as (_ & H1 & H2). apply NoDup_app in H2 as (_ & H2 & _).
  assert (Hin : forall l, u ∈ l -> uid u ∈ map uid l).
  { intros l Hl. apply list_elem_of_In, in_map, list_elem_of_In, Hl. }
  repeat split; intros Ha Hb.
  - apply (H1 (uid u) (Hin _ Ha)). apply elem_of_app. left. exact (Hin _ Hb).
  - apply (H1 (uid u) (Hin _ Ha)). apply elem_of_app. right. exact (Hin _ Hb).
  - exact (H2 (uid u) (Hin _ Ha) (Hin _ Hb)).
Qed.

Lemma dequeue_accounted q : forall s,
  accounted (set_queue q s) -> accounted (dequeue JSON_stringify q s).
Proof.
  induction q as [|u q IH]; intros s H; cbn [dequeue]; [exact H|].
  destruct (length (pendingPromises s) <? maxPendingPromises s)%nat; [|exact H].
  destruct (execute_frame JSON_stringify u s) as (h' & Hs' & _).
  destruct (execute JSON_stringify u s) as [[due msg|reason] s']; cbn [snd] in Hs'; subst s'.
  - destruct H as (A1 & A2 & A3 & A4 & A5).
    unfold accounted, all_units in *.
    cbn [settled pendingPromises queue writes next_uid set_queue set_pending set_heap] in *.
    assert (E : (map fst (pendingPromises s ++ [(u, Waiting due msg)]) ++ q
                 = map fst (pendingPromises s) ++ u :: q)%list).
    { rewrite (map_app fst), <- List.app_assoc. reflexivity. }
    rewrite E.
    split; [exact A1|]. split; [exact A2|]. split; [|split; [|exact A5]].
    + intros w Hw. destruct (A3 w Hw) as [Hr|Hp]; [left; exact Hr|right].
      apply elem_of_app. left. exact Hp.
    + intros u' [Hr|Hp]; [apply A4; left; exact Hr|].
      apply elem_of_app in Hp as [Hp|Hp]; [apply A4; right; exact Hp|].
      apply list_elem_of_singleton in Hp. discriminate.
  - apply IH.
    destruct H as (A1 & A2 & A3 & A4 & A5).
    unfold accounted, all_units in *.
    cbn [settled pendingPromises queue writes next_uid set_queue set_pending set_heap settle] in *.
    assert (HP : (map fst (settled s ++ [(u, Rejected reason)]) ++ map fst (pendingPromises s) ++ q
                  ≡ₚ map fst (settled s) ++ map fst (pendingPromises s) ++ u :: q)%list).
    { rewrite (map_app fst). cbn [map fst]. rewrite <- List.app_assoc. cbn [app].
      apply Permutation_app_head. apply Permutation_middle. }
    split; [|split; [|split; [|split; [|exact A5]]]].
    + rewrite (Permutation_map uid HP). exact A1.
    + intros u' Hu'. apply A2. rewrite <- HP. exact Hu'.
    + intros w Hw. destruct (A3 w Hw) as [Hr|Hp]; [left|right; exact Hp].
      apply elem_of_app. left. exact Hr.
    + intros u' [Hr|Hp]; [|apply A4; right; exact Hp].
      apply elem_of_app in Hr as [Hr|Hr]; [apply A4; left; exact Hr|].
      apply list_elem_of_singleton in Hr. discriminate.
Qed.

Lemma send_accounted l d s :
  accounted s -> accounted (sendWithDelay JSON_stringify l d s).
Proof.
  intros (A1 & A2 & A3 & A4 & A5). unfold sendWithDelay. apply dequeue_accounted.
  unfold accounted, all_units in *.
  cbn [settled pendingPromises queue writes next_uid set_queue set_next_uid] in *.
  rewrite !List.app_assoc. rewrite <- (List.app_assoc (map fst (settled s))).
  split; [|split; [|auto]].
  - rewrite map_app. cbn [map uid]. apply NoDup_app. split; [exact A1|]. split.
    + intros x Hx Hn. apply list_elem_of_singleton in Hn. subst x.
      apply list_elem_of_In, in_map_iff in Hx as (u & E & Hu).
      apply list_elem_of_In, A2 in Hu. lia.
    + apply NoDup_singleton.
  - intros u Hu. apply elem_of_app in Hu as [Hu|Hu].
    + apply A2 in Hu. lia.
    + apply list_elem_of_singleton in Hu. subst u. cbn. lia.
Qed.

Lemma find_pending_in id s p :
  find_pending id s = Some p -> p ∈ pendingPromises s /\ uid (fst p) = id.
Proof.
  unfold find_pending. intros H. apply find_some in H as [Hin E].
  split; [apply list_elem_of_In, Hin|apply Nat.eqb_eq, E].
Qed.

Lemma pending_same s u ph u' ph' :
  NoDup (map uid (all_units s)) ->
  (u, ph) ∈ pendingPromises s -> (u', ph') ∈ pendingPromises s -> uid u = uid u' ->
  u = u' /\ ph = ph'.
Proof.
  unfold all_units. rewrite !map_app. intros H.
  apply NoDup_app in H as (_ & _ & H). apply NoDup_app in H as (H & _ & _).
  revert H. induction (pendingPromises s) as [|[x y] l IH]; intros Hnd Hu Hu' E.
  - inversion Hu.
  - cbn [map fst] in Hnd. apply NoDup_cons in Hnd as [Hx Hnd].
    assert (Hin : forall v z, (v, z) ∈ l -> uid v ∈ map uid (map fst l)).
    { intros v z Hv. apply list_elem_of_In, in_map, in_map_iff. exists (v, z).
      split; [reflexivity|apply list_elem_of_In, Hv]. }
    apply elem_of_cons in Hu as [Hu|Hu]; apply elem_of_cons in Hu' as [Hu'|Hu'].
    + injection Hu as -> ->. injection Hu' as -> ->. auto.
    + injection Hu as -> ->. exfalso. apply Hx. rewrite E. exact (Hin _ _ Hu').
    + injection Hu' as -> ->. exfalso. apply Hx. rewrite <- E. exact (Hin _ _ Hu).
    + exact (IH Hnd Hu Hu' E).
Qed.

Lemma set_phase_fst id ph l :
  map fst (map (fun p : unit_ * phase => if Nat.eqb (uid (fst p)) id then (fst p, ph) else p) l)
  = map fst l.
Proof.
  induction l as [|[u x] l IH]; cbn; [reflexivity|].
  rewrite IH. destruct (Nat.eqb (uid u) id); reflexivity.
Qed.

Lemma set_phase_in id ph l u x :
  (u, x) ∈ map (fun p : unit_ * phase => if Nat.eqb (uid (fst p)) id then (fst p, ph) else p) l
  <-> (uid u = id /\ x = ph /\ exists y, (u, y) ∈ l) \/ (uid u <> id /\ (u, x) ∈ l).
Proof.
  induction l as [|[v y] l IH]; cbn [map fst].
  - split; [intros H; inversion H|intros [(_ & _ & z & H)|[_ H]]; inversion H].
  - rewrite elem_of_cons, IH. clear IH. split.
    + intros [E|[(E1 & E2 & z & Hz)|[E1 Hz]]].
      * destruct (Nat.eqb (uid v) id) eqn:Ev.
        -- injection E as -> ->. apply Nat.eqb_eq in Ev. left. repeat split; auto.
           exists y. left.
        -- injection E as -> ->. apply Nat.eqb_neq in Ev. right. split; [exact Ev|left].
      * left. repeat split; auto. exists z. right. exact Hz.
      * right. split; [exact E1|right; exact Hz].
    + intros [(E1 & E2 & z & Hz)|[E1 Hz]].
      * apply elem_of_cons in Hz as [Hz|Hz].
        -- injection Hz as -> ->. left. subst. rewrite Nat.eqb_refl. reflexivity.
        -- right. left. repeat split; auto. exists z. exact Hz.
      * apply elem_of_cons in Hz as [Hz|Hz].
        -- injection Hz as -> ->. left. apply Nat.eqb_neq in E1. rewrite E1. reflexivity.
        -- right. right. auto.
Qed.

Lemma timer_accounted id s s' :
  accounted s ->
  exec JSON_stringify parseElko (TimerFires id) s = Some s' ->
  accounted s'.
Proof.
  intros (A1 & A2 & A3 & A4 & A5) H. cbn [exec] in H.
  destruct (find_pending id s) as [[u [due msg|]]|] eqn:Hf; try discriminate.
  destruct (server (bot s)) as [sock|]; [|discriminate].
  destruct (due <=? now_ s); [|discriminate]. injection H as <-.
  destruct (find_pending_in _ _ _ Hf) as [Hin Hid]. cbn [fst] in Hid.
  pose proof (one_place s u A1) as (O1 & _ & _).
  unfold accounted, all_units in *.
  cbn [settled pendingPromises queue writes next_uid set_phase set_pending add_write].
  rewrite set_phase_fst.
  split; [exact A1|]. split; [exact A2|]. split; [|split].
  - intros w Hw. apply elem_of_app in Hw as [Hw|Hw].
    + destruct (A3 w Hw) as [Hr|Hp]; [left; exact Hr|right].
      apply set_phase_in.
      destruct (decide (uid (w_unit w) = id)) as [E|E]; [left|right; auto].
      repeat split; eauto.
    + apply list_elem_of_singleton in Hw. subst w. cbn [w_unit]. right.
      apply set_phase_in. left. repeat split; eauto.
  - intros u' [Hr|Hp].
    + rewrite map_app. apply elem_of_app. left. apply A4. left. exact Hr.
    + rewrite map_app. apply elem_of_app.
      apply set_phase_in in Hp as [(E & _ & y & Hy)|[E Hy]].
      * right. cbn [map w_unit]. apply list_elem_of_singleton.
        apply (pending_same s u' y u (Waiting due msg) A1 Hy Hin). congruence.
      * left. apply A4. right. exact Hy.
  - rewrite map_app. cbn [map w_unit]. apply NoDup_app. split; [exact A5|].
    split; [|apply NoDup_singleton].
    intros x Hx Hn. apply list_elem_of_singleton in Hn. subst x.
    apply list_elem_of_In, in_map_iff in Hx as (w & E & Hw).
    apply list_elem_of_In in Hw. destruct (A3 w Hw) as [Hr|Hp]; rewrite E in *.
    + exact (O1 (in_fst _ _ _ Hr) (in_fst _ _ _ Hin)).
    + destruct (pending_same s u Writing u (Waiting due msg) A1 Hp Hin eq_refl) as [_ Hph].
      discriminate.
Qed.

Lemma drop_keeps_others id (l : list (unit_ * phase)) :
  (forall p, p ∈ l -> uid (fst p) <> id) ->
  List.filter (fun p => negb (Nat.eqb (uid (fst p)) id)) l = l.
Proof.
  induction l as [|p l IH]; intros H; cbn [List.filter]; [reflexivity|].
  assert (Hp : uid (fst p) <> id) by (apply H; left).
  apply Nat.eqb_neq in Hp. rewrite Hp. cbn [negb]. rewrite IH; [reflexivity|].
  intros p' Hp'. apply H. right. exact Hp'.
Qed.

Lemma drop_takes_one id (l : list (unit_ * phase)) u ph :
  NoDup (map uid (map fst l)) -> (u, ph) ∈ l -> uid u = id ->
  map fst l ≡ₚ u :: map fst (List.filter (fun p => negb (Nat.eqb (uid (fst p)) id)) l).
Proof.
  induction l as [|[x y] l IH]; intros Hnd Hin E; [inversion Hin|].
  cbn [map fst] in Hnd. apply NoDup_cons in Hnd as [Hx Hnd].
  assert (Hmem : forall v z, (v, z) ∈ l -> uid v ∈ map uid (map fst l)).
  { intros v z Hv. apply list_elem_of_In, in_map, in_map_iff. exists (v, z).
    split; [reflexivity|apply list_elem_of_In, Hv]. }
  cbn [List.filter fst map].
  apply elem_of_cons in Hin as [Hin|Hin].
  - injection Hin as <- <-. subst id. rewrite Nat.eqb_refl. cbn [negb].
    rewrite drop_keeps_others; [reflexivity|].
    intros [v z] Hv Ev. cbn [fst] in Ev. apply Hx. rewrite <- Ev. exact (Hmem _ _ Hv).
  - assert (Hne : uid x <> id).
    { intros Ex. apply Hx. rewrite Ex, <- E. exact (Hmem _ _ Hin). }
    apply Nat.eqb_neq in Hne. rewrite Hne. cbn [negb map fst].
    rewrite (IH Hnd Hin E). apply perm_swap.
Qed.

Lemma write_done_accounted id s s' :
  accounted s ->
  exec JSON_stringify parseElko (WriteDone id) s = Some s' ->
  accounted s'.
Proof.
  intros (A1 & A2 & A3 & A4 & A5) H. cbn [exec] in H.
  destruct (find_pending id s) as [[u [due msg|]]|] eqn:Hf; try discriminate.
  injection H as <-.
  destruct (find_pending_in _ _ _ Hf) as [Hin Hid]. cbn [fst] in Hid.
  cbv zeta. apply dequeue_accounted.
  eapply (accounted_ext (settle u Resolved (drop_pending id s))); try reflexivity.
  assert (Hpend : NoDup (map uid (map fst (pendingPromises s)))).
  { unfold all_units in A1. rewrite !map_app in A1.
    apply NoDup_app in A1 as (_ & _ & A1). apply NoDup_app in A1 as (A1 & _ & _). exact A1. }
  assert (HP : all_units (settle u Resolved (drop_pending id s)) ≡ₚ all_units s).
  { unfold all_units.
    cbn [settled pendingPromises queue settle drop_pending set_pending].
    rewrite (map_app fst). cbn [map fst]. rewrite <- List.app_assoc. cbn [app].
    apply Permutation_app_head.
    rewrite (Permutation_app_comm (map fst (pendingPromises s))).
    rewrite (drop_takes_one id (pendingPromises s) u Writing Hpend Hin Hid).
    rewrite (Permutation_app_comm _ (u :: _)). reflexivity. }
  split; [rewrite (Permutation_map uid HP); exact A1|].
  split; [intros u' Hu'; apply A2; rewrite <- HP; exact Hu'|].
  cbn [settled pendingPromises queue writes settle drop_pending set_pending].
  split; [|split; [|exact A5]].
  - intros w Hw. destruct (A3 w Hw) as [Hr|Hp].
    + left. apply elem_of_app. left. exact Hr.
    + destruct (decide (uid (w_unit w) = id)) as [E|E].
      * left. apply elem_of_app. right. apply list_elem_of_singleton.
        destruct (pending_same s (w_unit w) Writing u Writing A1 Hp Hin) as [-> _];
          [congruence|reflexivity].
      * right. apply list_elem_of_In, filter_In. split; [apply list_elem_of_In, Hp|].
        cbn [fst]. apply Nat.eqb_neq in E. rewrite E. reflexivity.
  - intros u' [Hr|Hp].
    + apply elem_of_app in Hr as [Hr|Hr]; [apply A4; left; exact Hr|].
      apply list_elem_of_singleton in Hr. injection Hr as ->. apply A4. right. exact Hin.
    + apply list_elem_of_In, filter_In in Hp as [Hp _]. apply A4. right.
      apply list_elem_of_In, Hp.
Qed.

Lemma exec_accounted i s s' :
  accounted s -> exec JSON_stringify parseElko i s = Some s' -> accounted s'.
Proof.
  intros Hs H. destruct i as [t|id|id| | |blob|l d].
  - cbn [exec] in H. destruct (now_ s <=? t); [|discriminate]. injection H as <-.
    exact (accounted_ext s _ eq_refl eq_refl eq_refl eq_refl eq_refl Hs).
  - exact (timer_accounted id s s' Hs H).
  - exact (write_done_accounted id s s' Hs H).
  - cbn [exec] in H. destruct (server (bot s)); [|discriminate].
    destruct (connected (bot s)); [discriminate|]. injection H as <-.
    exact (accounted_ext s _ eq_refl eq_refl eq_refl eq_refl eq_refl Hs).
  - cbn [exec] in H. injection H as <-.
    exact (accounted_ext s _ eq_refl eq_refl eq_refl eq_refl eq_refl Hs).
  - cbn [exec] in H. injection H as <-.
    exact (accounted_ext s _ eq_refl eq_refl eq_refl eq_refl eq_refl Hs).
  - cbn [exec] in H. injection H as <-. apply send_accounted, Hs.
Qed.

Lemma run_accounted ins : forall s s',
  accounted s -> run JSON_stringify parseElko ins s = Some s' -> accounted s'.
Proof.
  induction ins as [|i ins IH]; intros s s' Hs H; cbn [run] in H.
  - injection H as <-. exact Hs.
  - destruct (exec JSON_stringify parseElko i s) as [s1|] eqn:E; [|discriminate].
    exact (IH s1 s' (exec_accounted i s s1 Hs E) H).
Qed.

(** A unit whose promise was rejected has no write. *)
Lemma rejected_never_written s u reason :
  accounted s -> (u, Rejected reason) ∈ settled s -> u ∉ map w_unit (writes s).
Proof.
  intros (A1 & A2 & A3 & A4 & A5) Hrej Hw.
  apply list_elem_of_In, in_map_iff in Hw as (w & E & Hw). apply list_elem_of_In in Hw.
  pose proof (one_place s u A1) as (O1 & _ & _).
  destruct (A3 w Hw) as [Hr|Hp]; rewrite E in *.
  - assert (Hs : NoDup (map uid (map fst (settled s)))).
    { unfold all_units in A1. rewrite !map_app in A1. apply NoDup_app in A1 as (A1 & _). exact A1. }
    clear -Hs Hr Hrej. induction (settled s) as [|[x y] l IH]; [inversion Hr|].
    cbn [map fst] in Hs. apply NoDup_cons in Hs as [Hx Hs].
    assert (Hmem : forall z, (u, z) ∈ l -> uid u ∈ map uid (map fst l)).
    { intros z Hz. apply list_elem_of_In, in_map, in_map_iff. exists (u, z).
      split; [reflexivity|apply list_elem_of_In, Hz]. }
    apply elem_of_cons in Hr as [Hr|Hr]; apply elem_of_cons in Hrej as [Hrej|Hrej].
    + congruence.
    + injection Hr as <- <-. exact (Hx (Hmem _ Hrej)).
    + injection Hrej as <- <-. exact (Hx (Hmem _ Hr)).
    + exact (IH Hrej Hr Hs).
  - exact (O1 (in_fst _ _ _ Hrej) (in_fst _ _ _ Hp)).
Qed.

(** X24.  From a client whose queue is in order, as that of a client
    just constructed is, and whatever the event loop does, sends included:
    no unit is written to a socket twice; a unit whose promise was
    rejected was never written; and a unit whose promise is resolved was
    written, once. *)
Theorem every_unit_written_at_most_once (s0 : Sim) (ins : list input) (s : Sim) :
  accounted s0 ->
  run JSON_stringify parseElko ins s0 = Some s ->
  NoDup (map w_unit (writes s))
  /\ (forall u reason, (u, Rejected reason) ∈ settled s -> u ∉ map w_unit (writes s))
  /\ (forall u, (u, Resolved) ∈ settled s -> u ∈ map w_unit (writes s)).
Proof.
  intros H0 Hrun. pose proof (run_accounted ins s0 s H0 Hrun) as Hacc.
  split; [exact (proj2 (proj2 (proj2 (proj2 Hacc))))|]. split.
  - intros u reason. exact (rejected_never_written s u reason Hacc).
  - intros u Hu. destruct Hacc as (_ & _ & _ & A4 & _). apply A4. left. exact Hu.
Qed.

End Accounting.

Lemma every_unit_written_at_most_once_witness :
  exists s,
    run render Sample.parse
      [CallSend 2 500; CallSend 1 500; Tick 500; TimerFires 0; WriteDone 0; CallSend 3 500;
       Tick 1000; TimerFires 2; WriteDone 2]
      Sample.session = Some s
    /\ NoDup (map w_unit (writes s))
    /\ (forall u reason, (u, Rejected reason) ∈ settled s -> u ∉ map w_unit (writes s))
    /\ (forall u, (u, Resolved) ∈ settled s -> u ∈ map w_unit (writes s)).
Proof.
  destruct (run render Sample.parse
      [CallSend 2 500; CallSend 1 500; Tick 500; TimerFires 0; WriteDone 0; CallSend 3 500;
       Tick 1000; TimerFires 2; WriteDone 2]
      Sample.session) as [s|] eqn:Hrun; [|vm_compute in Hrun; discriminate].
  exists s. split; [reflexivity|].
  exact (every_unit_written_at_most_once render Sample.parse Sample.session _ s
           (accounted_boot _ _) Hrun).
Defined.

(** ** The connection test and the write *)

Section Throws.

Lemma rbind_throws {A B} (r : result A) (k : A -> result B) e :
  rbind r k = Throw e -> r = Throw e \/ exists a, r = Ok a /\ k a = Throw e.
Proof. destruct r as [a|e']; cbn; [right; eauto|intros [= <-]; left; reflexivity]. Qed.

Lemma get_prop_throws v k e : get_prop v k = Throw e -> e = TypeError.
Proof.
  destruct v as [| |?|?|s|elems|fields]; cbn; try congruence.
  - destruct (String.eqb k "length"); [discriminate|].
    destruct (index_of_key k (String.length s)) as [i|]; [|discriminate].
    destruct (String.get i s); discriminate.
  - destruct (String.eqb k "length"); [discriminate|].
    destruct (index_of_key k (length elems)); discriminate.
  - destruct (assoc k fields); discriminate.
Qed.

Lemma defined_in_throws x k e : defined_in x k = Throw e -> e = TypeError.
Proof.
  unfold defined_in. destruct (negb (is_undefined x)); [|discriminate].
  intros H. apply rbind_throws in H as [H|(a & _ & H)]; [|discriminate].
  exact (get_prop_throws _ _ _ H).
Qed.

Lemma resolve_segment_throws k v vars e :
  resolve_segment k v vars = Throw e -> e = TypeError.
Proof.
  unfold resolve_segment. intros H.
  apply rbind_throws in H as [H|(a & _ & H)]; [exact (defined_in_throws _ _ _ H)|].
  destruct a; [exact (get_prop_throws _ _ _ H)|].
  apply rbind_throws in H as [H|(a & _ & H)]; [exact (defined_in_throws _ _ _ H)|].
  destruct a; exact (get_prop_throws _ _ _ H).
Qed.

Lemma resolve_segments_throws keys : forall v vars e,
  resolve_segments keys v vars = Throw e -> e = TypeError.
Proof.
  induction keys as [|k keys IH]; intros v vars e H; cbn [resolve_segments] in H; [discriminate|].
  apply rbind_throws in H as [H|(a & _ & H)]; [exact (resolve_segment_throws _ _ _ _ H)|].
  exact (IH _ _ _ H).
Qed.

Lemma bind_record_throws v vars e : bind_record v vars = Throw e -> e = TypeError.
Proof.
  unfold bind_record. intros H.
  apply rbind_throws in H as [H|(vobj & _ & H)]; [exact (get_prop_throws _ _ _ H)|].
  destruct (negb (is_undefined vobj)); [|discriminate].
  apply rbind_throws in H as [H|(mods & _ & H)]; [exact (get_prop_throws _ _ _ H)|].
  apply rbind_throws in H as [H|(len & _ & H)]; [exact (get_prop_throws _ _ _ H)|].
  destruct (negb (is_undefined mods) && strict_eq_num len 1); [|discriminate].
  apply rbind_throws in H as [H|(mod0 & _ & H)]; [exact (get_prop_throws _ _ _ H)|discriminate].
Qed.

Lemma resolve_chunk_throws b chunk vars e :
  resolve_chunk b chunk vars = Throw e -> e = TypeError.
Proof.
  unfold resolve_chunk. destruct (split "." chunk) as [|varseg rest]; [discriminate|].
  destruct (history b !! _) as [record|]; [|discriminate]. intros H.
  apply rbind_throws in H as [H|(vars' & _ & H)]; [exact (bind_record_throws _ _ _ H)|].
  apply rbind_throws in H as [H|(v & _ & H)]; [exact (resolve_segments_throws _ _ _ _ H)|].
  discriminate.
Qed.

Lemma resolve_chunks_throws b chunks : forall vars e,
  resolve_chunks b chunks vars = Throw e -> e = TypeError.
Proof.
  induction chunks as [|c chunks IH]; intros vars e H; cbn [resolve_chunks] in H; [discriminate|].
  apply rbind_throws in H as [H|(r & _ & H)]; [exact (resolve_chunk_throws _ _ _ _ H)|].
  apply rbind_throws in H as [H|(rs & _ & H)]; [exact (IH _ _ H)|discriminate].
Qed.

Lemma substitute_prop_throws b p vars e :
  substitute_prop b p vars = Throw e -> e = TypeError.
Proof.
  unfold substitute_prop. destruct (split "$" p) as [|chunk0 rest]; [discriminate|]. intros H.
  apply rbind_throws in H as [H|(r & _ & H)]; [exact (resolve_chunks_throws _ _ _ _ H)|].
  destruct (fst r) as [|only [|? ?]]; try discriminate.
  destruct (String.eqb chunk0 ""); discriminate.
Qed.

Lemma substituteState_loop_throws b keys : forall m vars e,
  fst (substituteState_loop b keys m vars) = Throw e -> e = TypeError.
Proof.
  induction keys as [|name keys IH]; intros m vars e H; cbn [substituteState_loop] in H;
    [discriminate|].
  destruct (assoc "hasOwnProperty" m); [cbn in H; congruence|].
  destruct (assoc name m) as [[| |?|?|p|?|?]|]; try exact (IH _ _ _ H).
  destruct (contains "$" p); [|exact (IH _ _ _ H)].
  destruct (substitute_prop b p vars) as [[v vars']|e'] eqn:Hs; [exact (IH _ _ _ H)|].
  cbn in H. injection H as <-. exact (substitute_prop_throws _ _ _ _ Hs).
Qed.

(** What [prepare] throws is a TypeError. *)
Lemma prepare_throws b m e : fst (prepare b m) = Throw e -> e = TypeError.
Proof. unfold prepare, substituteState. apply substituteState_loop_throws. Qed.

End Throws.

Section Started.

Variable JSON_stringify : value -> string.
Variable parseElko : string -> value.

(** A send on a client at rest starts its unit at once. *)
Lemma sendWithDelay_at_rest l d s :
  idle s ->
  sendWithDelay JSON_stringify l d s
  = match execute JSON_stringify (mkUnit (next_uid s) l d)
            (set_next_uid (S (next_uid s)) s) with
    | (Armed due msg, s') => set_pending [(mkUnit (next_uid s) l d, Waiting due msg)] s'
    | (Failed reason, s') => settle (mkUnit (next_uid s) l d) (Rejected reason) s'
    end.
Proof.
  intros (Hmax & Hpend & Hq). destruct s as [b h now mx pend q n ws st].
  cbn [maxPendingPromises pendingPromises queue] in *. subst mx pend q.
  unfold sendWithDelay, set_next_uid.
  cbn [next_uid queue app bot heap now_ maxPendingPromises pendingPromises
       writes settled dequeue length Nat.ltb Nat.leb].
  set (s0 := mkSim b h now 1 [] [] (S n) ws st).
  destruct (execute_frame JSON_stringify (mkUnit n l d) s0) as (h' & Hs' & _).
  destruct (execute JSON_stringify (mkUnit n l d) s0) as [[due msg|reason] s'];
    cbn [snd] in Hs'; subst s'; reflexivity.
Qed.

Lemma dequeue_settled q : forall s x,
  x ∈ settled s -> x ∈ settled (dequeue JSON_stringify q s).
Proof.
  induction q as [|u q IH]; intros s x Hx; cbn [dequeue]; [exact Hx|].
  destruct (length (pendingPromises s) <? maxPendingPromises s)%nat; [|exact Hx].
  destruct (execute_frame JSON_stringify u s) as (h' & Hs' & _).
  destruct (execute JSON_stringify u s) as [[due msg|reason] s']; cbn [snd] in Hs'; subst s'.
  - exact Hx.
  - apply IH. cbn [settled settle set_heap]. apply elem_of_app. left. exact Hx.
Qed.

Lemma exec_settled i s s' x :
  exec JSON_stringify parseElko i s = Some s' -> x ∈ settled s -> x ∈ settled s'.
Proof.
  intros H Hx. destruct i as [t|id|id| | |blob|l d]; cbn [exec] in H.
  - destruct (now_ s <=? t); [|discriminate]. injection H as <-. exact Hx.
  - destruct (find_pending id s) as [[u [due msg|]]|]; try discriminate.
    destruct (server (bot s)); [|discriminate].
    destruct (due <=? now_ s); [|discriminate]. injection H as <-. exact Hx.
  - destruct (find_pending id s) as [[u [due msg|]]|]; try discriminate.
    injection H as <-. apply dequeue_settled.
    cbn [settled settle drop_pending set_pending]. apply elem_of_app. left. exact Hx.
  - destruct (server (bot s)); [|discriminate].
    destruct (connected (bot s)); [discriminate|]. injection H as <-. exact Hx.
  - injection H as <-. exact Hx.
  - injection H as <-. exact Hx.
  - injection H as <-. unfold sendWithDelay. apply dequeue_settled. exact Hx.
Qed.

Lemma run_settled ins : forall s s' x,
  run JSON_stringify parseElko ins s = Some s' -> x ∈ settled s -> x ∈ settled s'.
Proof.
  induction ins as [|i ins IH]; intros s s' x H Hx; cbn [run] in H.
  - injection H as <-. exact Hx.
  - destruct (exec JSON_stringify parseElko i s) as [s1|] eqn:E; [|discriminate].
    exact (IH s1 s' x H (exec_settled i s s1 x E Hx)).
Qed.

(** A unit rejected when it started is written in no later state. *)
Lemma rejected_at_start l d s reason s1 :
  accounted s ->
  sendWithDelay JSON_stringify l d s = s1 ->
  (mkUnit (next_uid s) l d, Rejected reason) ∈ settled s1 ->
  forall ins s', run JSON_stringify parseElko ins s1 = Some s' ->
    mkUnit (next_uid s) l d ∉ map w_unit (writes s').
Proof.
  intros Hacc <- Hin ins s' Hrun.
  apply (rejected_never_written s' _ reason).
  - exact (run_accounted JSON_stringify parseElko ins _ s' (send_accounted JSON_stringify l d s Hacc) Hrun).
  - exact (run_settled ins _ s' _ Hrun Hin).
Qed.

(** While the one running unit waits for its timer, nothing but the
    firing of that timer changes what runs. *)
Lemma waiting_kept u due msg i s s' :
  maxPendingPromises s = 1%nat ->
  pendingPromises s = [(u, Waiting due msg)] ->
  i <> TimerFires (uid u) ->
  exec JSON_stringify parseElko i s = Some s' ->
  maxPendingPromises s' = 1%nat /\ pendingPromises s' = [(u, Waiting due msg)].
Proof.
  intros Hmax Hp Hi H. destruct i as [t|id|id| | |blob|l d]; cbn [exec] in H.
  - destruct (now_ s <=? t); [|discriminate]. injection H as <-. auto.
  - exfalso. unfold find_pending in H. rewrite Hp in H. cbn [List.find fst] in H.
    destruct (Nat.eqb (uid u) id) eqn:E; [|discriminate].
    apply Nat.eqb_eq in E. subst id. apply Hi. reflexivity.
  - exfalso. unfold find_pending in H. rewrite Hp in H. cbn [List.find fst] in H.
    destruct (Nat.eqb (uid u) id); discriminate.
  - destruct (server (bot s)); [|discriminate].
    destruct (connected (bot s)); [discriminate|]. injection H as <-. auto.
  - injection H as <-. auto.
  - injection H as <-. auto.
  - injection H as <-. unfold sendWithDelay.
    destruct (queue s ++ [mkUnit (next_uid s) l d])%list as [|u' q'] eqn:Eq; cbn [dequeue].
    + cbn. auto.
    + cbn [set_next_uid pendingPromises maxPendingPromises]. rewrite Hp, Hmax. cbn. auto.
Qed.

Lemma run_waiting_kept u due msg ins : forall s s',
  maxPendingPromises s = 1%nat ->
  pendingPromises s = [(u, Waiting due msg)] ->
  Forall (fun i => i <> TimerFires (uid u)) ins ->
  run JSON_stringify parseElko ins s = Some s' ->
  maxPendingPromises s' = 1%nat /\ pendingPromises s' = [(u, Waiting due msg)].
Proof.
  induction ins as [|i ins IH]; intros s s' Hmax Hp Hall H; cbn [run] in H.
  - injection H as <-. auto.
  - destruct (exec JSON_stringify parseElko i s) as [s1|] eqn:E; [|discriminate].
    apply Forall_cons in Hall as [Hi Hall].
    destruct (waiting_kept u due msg i s s1 Hmax Hp Hi E) as [Hmax1 Hp1].
    exact (IH s1 s' Hmax1 Hp1 Hall H).
Qed.

(** The timer of the one waiting unit: it cannot fire before it is due,
    and when it fires the text is written to the socket the client holds,
    connected or not. *)
Lemma timer_fires u due msg s sock :
  pendingPromises s = [(u, Waiting due msg)] ->
  server (bot s) = Some sock ->
  (now_ s < due -> exec JSON_stringify parseElko (TimerFires (uid u)) s = None)
  /\ (due <= now_ s ->
      exists s', exec JSON_stringify parseElko (TimerFires (uid u)) s = Some s'
        /\ writes s' = (writes s ++ [mkWrite (now_ s) u sock (msg ++ terminator)
                                       (connected (bot s))])%list).
Proof.
  intros Hp Hs. unfold exec, find_pending. rewrite Hp. cbn [List.find fst].
  rewrite Nat.eqb_refl, Hs. split; intros Hd.
  - destruct (due <=? now_ s) eqn:E; [apply Z.leb_le in E; lia|reflexivity].
  - apply Z.leb_le in Hd. rewrite Hd. eexists. split; reflexivity.
Qed.

End Started.




(** ** The caller's object after a send *)

Section Rewritten.

Variable JSON_stringify : value -> string.
Variable parseElko : string -> value.

Lemma falsy_plain v : truthy v = false -> plain v.
Proof.
  destruct v as [| |?|?|p|?|?]; cbn; try exact (fun _ => I).
  intros H. apply negb_false_iff, String.eqb_eq in H. subst p. reflexivity.
Qed.

Lemma assoc_key k (m : list (string * value)) v : assoc k m = Some v -> k ∈ map fst m.
Proof.
  induction m as [|[k' x] m IH]; simpl; [discriminate|].
  destruct (String.eqb k' k) eqn:E.
  - apply String.eqb_eq in E. subst. intros _. left.
  - intros H. right. exact (IH H).
Qed.

(** What [prepare] leaves in the target of the object. *)
Lemma prepare_target b m to :
  NoDup (map fst m) -> assoc "to" m = Some to ->
  (truthy to = false -> assoc "to" (snd (prepare b m)) = Some to)
  /\ (truthy to = true -> plain (substituteName b to) ->
        assoc "to" (snd (prepare b m)) = Some (substituteName b to))
  /\ (truthy to = true -> fst (prepare b m) = Ok tt ->
      forall p, substituteName b to = VStr p -> contains "$" p = true ->
        exists vars1 v vars2,
          substitute_prop b p vars1 = Ok (v, vars2)
          /\ assoc "to" (snd (prepare b m)) = Some v).
Proof.
  intros Hnd Hto. unfold prepare, substituteState. rewrite Hto. cbn [default from_option id].
  destruct (truthy to) eqn:Ht.
  - set (m1 := set_field "to" (substituteName b to) m).
    assert (Hkeys : map fst m1 = map fst m) by exact (set_field_keys _ _ _ _ Hto).
    assert (H1 : assoc "to" m1 = Some (substituteName b to)) by apply assoc_set_field_eq.
    destruct (substituteState_loop b (map fst m1) m1 (mkVars VUndef VUndef)) as [r m'] eqn:Hloop.
    assert (Hnd1 : NoDup (map fst m1)) by (rewrite Hkeys; exact Hnd).
    destruct (substituteState_loop_spec b _ _ _ _ _ Hnd1 Hloop) as (_ & H2 & H3).
    cbn [fst snd]. split; [discriminate|]. split.
    + intros _ Hp. apply H2; [exact H1|right; exact Hp].
    + intros _ Hr p Hp Hd. apply (H3 Hr "to" p); [|rewrite H1, Hp; reflexivity|exact Hd].
      exact (assoc_key _ _ _ H1).
  - destruct (substituteState_loop b (map fst m) m (mkVars VUndef VUndef)) as [r m'] eqn:Hloop.
    destruct (substituteState_loop_spec b _ _ _ _ _ Hnd Hloop) as (_ & H2 & _).
    cbn [fst snd]. split; [|split; discriminate].
    intros _. apply H2; [exact Hto|right; exact (falsy_plain to Ht)].
Qed.

(** What a send on a connected client at rest does, by how [prepare]
    ends. *)
Lemma sendWithDelay_connected l d s m :
  idle s -> connected (bot s) = true -> heap s !! l = Some m ->
  heap (sendWithDelay JSON_stringify l d s) = <[l := snd (prepare (bot s) m)]> (heap s)
  /\ (fst (prepare (bot s) m) = Ok tt ->
      pendingPromises (sendWithDelay JSON_stringify l d s)
      = [(mkUnit (next_uid s) l d,
          Waiting (now_ s + d) (JSON_stringify (VObj (snd (prepare (bot s) m)))))]
      /\ settled (sendWithDelay JSON_stringify l d s) = settled s)
  /\ (forall e, fst (prepare (bot s) m) = Throw e ->
      settled (sendWithDelay JSON_stringify l d s)
      = (settled s ++ [(mkUnit (next_uid s) l d, Rejected e)])%list
      /\ pendingPromises (sendWithDelay JSON_stringify l d s) = []).
Proof.
  intros Hidle Hc Hm. rewrite (sendWithDelay_at_rest JSON_stringify l d s Hidle).
  destruct Hidle as (_ & Hp & _).
  unfold execute. cbn [bot heap now_ set_next_uid target delayMillis].
  rewrite Hc, Hm. cbn [negb].
  destruct (prepare (bot s) m) as [[[]|e] m']; cbn [fst snd].
  - split; [reflexivity|]. split; [split; reflexivity|discriminate].
  - split; [reflexivity|]. split; [discriminate|].
    intros e' [= <-]. split; [reflexivity|exact Hp].
Qed.

Lemma execute_heap_other u s l :
  target u <> l -> heap (snd (execute JSON_stringify u s)) !! l = heap s !! l.
Proof.
  intros Hne. unfold execute. destruct (negb (connected (bot s))); [reflexivity|].
  destruct (heap s !! target u) as [m|]; [|reflexivity].
  destruct (prepare (bot s) m) as [[[]|e] m']; cbn [snd heap set_heap];
    apply lookup_insert_ne; exact Hne.
Qed.

(** Units for other objects leave the object at [l] alone. *)
Lemma dequeue_heap_other l q : forall s,
  Forall (fun u => target u <> l) q ->
  heap (dequeue JSON_stringify q s) !! l = heap s !! l
  /\ Forall (fun u => target u <> l) (queue (dequeue JSON_stringify q s)).
Proof.
  induction q as [|u q IH]; intros s Hq; cbn [dequeue].
  - split; [reflexivity|constructor].
  - destruct (length (pendingPromises s) <? maxPendingPromises s)%nat;
      [|split; [reflexivity|exact Hq]].
    apply Forall_cons in Hq as [Hu Hq].
    pose proof (execute_heap_other u s l Hu) as He.
    destruct (execute JSON_stringify u s) as [[due msg|reason] s']; cbn [snd] in He.
    + split; [exact He|exact Hq].
    + destruct (IH (settle u (Rejected reason) s') Hq) as [H1 H2].
      split; [rewrite H1; exact He|exact H2].
Qed.

Lemma exec_heap_other l i s s' :
  (forall d, i <> CallSend l d) ->
  Forall (fun u => target u <> l) (queue s) ->
  exec JSON_stringify parseElko i s = Some s' ->
  heap s' !! l = heap s !! l /\ Forall (fun u => target u <> l) (queue s').
Proof.
  intros Hi Hq H. destruct i as [t|id|id| | |blob|l' d]; cbn [exec] in H.
  - destruct (now_ s <=? t); [|discriminate]. injection H as <-. auto.
  - destruct (find_pending id s) as [[u [due msg|]]|]; try discriminate.
    destruct (server (bot s)); [|discriminate].
    destruct (due <=? now_ s); [|discriminate]. injection H as <-. auto.
  - destruct (find_pending id s) as [[u [due msg|]]|]; try discriminate.
    injection H as <-.
    exact (dequeue_heap_other l (queue s) (settle u Resolved (drop_pending id s)) Hq).
  - destruct (server (bot s)); [|discriminate].
    destruct (connected (bot s)); [discriminate|]. injection H as <-. auto.
  - injection H as <-. auto.
  - injection H as <-. auto.
  - injection H as <-. unfold sendWithDelay.
    apply (dequeue_heap_other l (queue s ++ [mkUnit (next_uid s) l' d])%list
             (set_next_uid (S (next_uid s)) s)).
    apply Forall_app. split; [exact Hq|]. constructor; [|constructor].
    cbn [target]. intros ->. exact (Hi d eq_refl).
Qed.

Lemma run_heap_other l ins : forall s s',
  Forall (fun i => forall d, i <> CallSend l d) ins ->
  Forall (fun u => target u <> l) (queue s) ->
  run JSON_stringify parseElko ins s = Some s' ->
  heap s' !! l = heap s !! l.
Proof.
  induction ins as [|i ins IH]; intros s s' Hall Hq H; cbn [run] in H.
  - injection H as <-. reflexivity.
  - destruct (exec JSON_stringify parseElko i s) as [s1|] eqn:E; [|discriminate].
    apply Forall_cons in Hall as [Hi Hall].
    destruct (exec_heap_other l i s s1 Hi Hq E) as [H1 H2].
    rewrite <- H1. exact (IH s1 s' Hall H2 H).
Qed.

Lemma sendWithDelay_queue_at_rest l d s :
  idle s -> queue (sendWithDelay JSON_stringify l d s) = [].
Proof.
  intros Hidle. rewrite (sendWithDelay_at_rest JSON_stringify l d s Hidle).
  destruct Hidle as (_ & _ & Hq).
  destruct (execute_frame JSON_stringify (mkUnit (next_uid s) l d)
              (set_next_uid (S (next_uid s)) s)) as (h' & Hs' & _).
  destruct (execute _ _ _) as [[due msg|reason] s']; cbn [snd] in Hs'; subst s'; exact Hq.
Qed.

End Rewritten.


Lemma sample_tame :
  tame Sample.in_region
    [("op", VStr "SPEAK"); ("to", VStr "ME"); ("text", VStr "hello $ME.name$!")].
Proof.
  split; [|split; [|split]].
  - intros to [= <-]. split; [left; vm_compute; eauto|]. split; [reflexivity|].
    intros p seg Hp Hseg. vm_compute in Hp. injection Hp as <-.
    vm_compute in Hseg. inversion Hseg.
  - intros k p seg Hk Hseg. cbn [assoc] in Hk.
    destruct (String.eqb "op" k); [injection Hk as <-; vm_compute in Hseg; inversion Hseg|].
    destruct (String.eqb "to" k); [injection Hk as <-; vm_compute in Hseg; inversion Hseg|].
    destruct (String.eqb "text" k); [|discriminate].
    injection Hk as <-. vm_compute in Hseg.
    repeat (apply elem_of_cons in Hseg as [->|Hseg]; [reflexivity|]). inversion Hseg.
  - change (map_Forall (fun (_ : string) r => inherited r = false) (names Sample.in_region)).
    refine (bool_decide_unpack _ _). vm_compute. exact I.
  - change (map_Forall (fun (_ : string) o => decimal_all o = true) (history Sample.in_region)).
    refine (bool_decide_unpack _ _). vm_compute. exact I.
Qed.



(** ** The methods that send a command *)

Section Methods.

Variable JSON_stringify : value -> string.
Variable parseElko : string -> value.

(** A method that sends the new object [m] with the delay [delay] from a
    connected client at rest: the unit starts at once, its text is fixed
    then, the timer cannot fire before the delay has passed, and when it
    fires the text goes to the socket. *)
Lemma send_new_goes_out (m m' : list (string * value)) (delay : Z) (s : Sim) (sock : nat) :
  idle s -> connected (bot s) = true -> server (bot s) = Some sock ->
  prepare (bot s) m = (Ok tt, m') -> 0 <= delay ->
  (forall t, now_ s <= t < now_ s + delay ->
     run JSON_stringify parseElko [Tick t; TimerFires (next_uid s)]
       (send_new JSON_stringify m delay s) = None)
  /\ exists s',
       run JSON_stringify parseElko [Tick (now_ s + delay); TimerFires (next_uid s)]
         (send_new JSON_stringify m delay s) = Some s'
       /\ writes s'
          = (writes s
             ++ [mkWrite (now_ s + delay)
                         (mkUnit (next_uid s) (fresh (dom (heap s))) delay) sock
                         (JSON_stringify (VObj m') ++ terminator) true])%list
       /\ heap s' = <[fresh (dom (heap s)) := m']> (heap s).
Proof.
  intros (Hmax & Hpend & Hq) Hc Hsrv Hprep Hdelay.
  destruct s as [b h now mx pend q n ws st].
  cbn [bot heap now_ maxPendingPromises pendingPromises queue next_uid writes settled] in *.
  subst mx pend q.
  assert (Hsend : send_new JSON_stringify m delay (mkSim b h now 1 [] [] n ws st)
                  = mkSim b (<[fresh (dom h) := m']> h) now 1
                      [(mkUnit n (fresh (dom h)) delay,
                        Waiting (now + delay) (JSON_stringify (VObj m')))]
                      [] (S n) ws st).
  { unfold send_new, sendWithDelay.
    cbn [bot heap now_ maxPendingPromises pendingPromises queue next_uid writes settled
         set_heap set_next_uid app dequeue length Nat.ltb Nat.leb].
    unfold execute.
    cbn [bot heap now_ maxPendingPromises pendingPromises queue next_uid writes settled
         set_heap set_next_uid target delayMillis].
    rewrite Hc. cbn [negb]. rewrite lookup_insert_eq, Hprep.
    cbn [bot heap now_ maxPendingPromises pendingPromises queue next_uid writes settled
         set_heap set_next_uid set_queue set_pending app].
    rewrite insert_insert_eq. reflexivity. }
  rewrite Hsend. split.
  - intros t [Ht1 Ht2]. cbn [run exec now_]. 
    destruct (now <=? t) eqn:E; [|reflexivity].
    unfold find_pending.
    cbn [pendingPromises set_now List.find fst uid bot now_]. rewrite Nat.eqb_refl, Hsrv.
    destruct (now + delay <=? t) eqn:E2; [apply Z.leb_le in E2; lia|reflexivity].
  - cbn [run exec now_].
    assert (E : (now <=? now + delay) = true) by (apply Z.leb_le; lia). rewrite E.
    unfold find_pending.
    cbn [pendingPromises set_now List.find fst uid bot now_]. rewrite Nat.eqb_refl, Hsrv.
    rewrite Z.leb_refl. eexists. split; [reflexivity|].
    cbn [writes heap set_phase set_pending add_write set_now bot now_]. rewrite Hc. auto.
Qed.

Lemma prepare_plain (b : Bot) (m : list (string * value)) (t : string) :
  assoc "to" m = Some (VStr t) -> t <> "" ->
  assoc "hasOwnProperty" (set_field "to" (substituteName b (VStr t)) m) = None ->
  Forall (fun f => plain (snd f)) (set_field "to" (substituteName b (VStr t)) m) ->
  prepare b m = (Ok tt, set_field "to" (substituteName b (VStr t)) m).
Proof.
  intros Hto Ht Hown Hplain. unfold prepare. rewrite Hto. cbn [default from_option id truthy].
  apply String.eqb_neq in Ht. rewrite Ht. cbn [negb].
  apply substituteState_loop_plain; [exact Hown|exact Hplain].
Qed.

Ltac method_goes_out t :=
  lazymatch goal with
  | Hidle : idle ?s, Hc : connected (bot ?s) = true, Hsrv : server (bot ?s) = Some ?sock
    |- context [send_new _ ?m ?delay ?s] =>
      let Hearly := fresh "Hearly" in
      let Hrun := fresh "Hrun" in
      let Hw := fresh "Hw" in
      let s' := fresh "s'" in
      destruct (send_new_goes_out m (set_field "to" (substituteName (bot s) (VStr t)) m)
                  delay s sock Hidle Hc Hsrv)
        as (Hearly & s' & Hrun & Hw & _);
      [ apply prepare_plain; [reflexivity|discriminate|reflexivity|];
        cbn [set_field String.eqb Ascii.eqb Bool.eqb]; repeat constructor; assumption
      | lia
      | cbn [set_field String.eqb Ascii.eqb Bool.eqb] in Hw;
        split; [exact Hearly|exists s'; split; [exact Hrun|exact Hw]] ]
  end.

(** X25.  [say(text)] on a connected client at rest, with a text and an
    own ref free of dollar signs: the command is written once the timer
    fires, to the socket the client holds, as the text of the object with
    [to] replaced by what [ME] stands for ([ME] itself when the avatar has
    not arrived), followed by two line feeds; the timer cannot fire
    before 500 ms have passed. *)
Theorem say_goes_out (text : value) (s : Sim) (sock : nat) :
  idle s -> connected (bot s) = true -> server (bot s) = Some sock ->
  plain (substituteName (bot s) (VStr "ME")) -> plain text ->
  (forall t, now_ s <= t < now_ s + 500 ->
     run JSON_stringify parseElko [Tick t; TimerFires (next_uid s)]
       (say JSON_stringify text s) = None)
  /\ exists s',
       run JSON_stringify parseElko [Tick (now_ s + 500); TimerFires (next_uid s)]
         (say JSON_stringify text s) = Some s'
       /\ writes s'
          = (writes s
             ++ [mkWrite (now_ s + 500)
                   (mkUnit (next_uid s) (fresh (dom (heap s))) 500) sock
                   (JSON_stringify
                      (VObj [("op", VStr "SPEAK"); ("to", substituteName (bot s) (VStr "ME"));
                             ("esp", VNum 0); ("text", text)]) ++ terminator) true])%list.
Proof. intros Hidle Hc Hsrv Hme Htext. unfold say. method_goes_out "ME". Qed.

(** X26.  [walkTo(x, y)] on a connected client at rest: the [WALK]
    command with the coordinates and [how] 1 is written to what [ME]
    stands for, and no earlier than 10 s after the call. *)
Theorem walkTo_goes_out (x y : value) (s : Sim) (sock : nat) :
  idle s -> connected (bot s) = true -> server (bot s) = Some sock ->
  plain (substituteName (bot s) (VStr "ME")) -> plain x -> plain y ->
  (forall t, now_ s <= t < now_ s + 10000 ->
     run JSON_stringify parseElko [Tick t; TimerFires (next_uid s)]
       (walkTo JSON_stringify x y s) = None)
  /\ exists s',
       run JSON_stringify parseElko [Tick (now_ s + 10000); TimerFires (next_uid s)]
         (walkTo JSON_stringify x y s) = Some s'
       /\ writes s'
          = (writes s
             ++ [mkWrite (now_ s + 10000)
                   (mkUnit (next_uid s) (fresh (dom (heap s))) 10000) sock
                   (JSON_stringify
                      (VObj [("op", VStr "WALK"); ("to", substituteName (bot s) (VStr "ME"));
                             ("x", x); ("y", y); ("how", VNum 1)]) ++ terminator) true])%list.
Proof. intros Hidle Hc Hsrv Hme Hx Hy. unfold walkTo. method_goes_out "ME". Qed.

(** X27.  [discorporate()] on a connected client at rest: the
    [DISCORPORATE] command is written to what [ME] stands for, no
    earlier than 500 ms after the call. *)
Theorem discorporate_goes_out (s : Sim) (sock : nat) :
  idle s -> connected (bot s) = true -> server (bot s) = Some sock ->
  plain (substituteName (bot s) (VStr "ME")) ->
  (forall t, now_ s <= t < now_ s + 500 ->
     run JSON_stringify parseElko [Tick t; TimerFires (next_uid s)]
       (discorporate JSON_stringify s) = None)
  /\ exists s',
       run JSON_stringify parseElko [Tick (now_ s + 500); TimerFires (next_uid s)]
         (discorporate JSON_stringify s) = Some s'
       /\ writes s'
          = (writes s
             ++ [mkWrite (now_ s + 500)
                   (mkUnit (next_uid s) (fresh (dom (heap s))) 500) sock
                   (JSON_stringify
                      (VObj [("op", VStr "DISCORPORATE");
                             ("to", substituteName (bot s) (VStr "ME"))]) ++ terminator)
                   true])%list.
Proof. intros Hidle Hc Hsrv Hme. unfold discorporate. method_goes_out "ME". Qed.


End Methods.

Lemma say_goes_out_witness :
  exists s',
    run render Sample.parse [Tick 500; TimerFires 0] (say render (VStr "hi") Sample.session)
    = Some s'
    /\ writes s'
       = [mkWrite 500 (mkUnit 0 (fresh (dom Sample.commands)) 500) 0
            (render (VObj [("op", VStr "SPEAK"); ("to", VStr "user-randy-100");
                           ("esp", VNum 0); ("text", VStr "hi")]) ++ terminator) true].
Proof.
  exact (proj2 (say_goes_out render Sample.parse (VStr "hi") Sample.session 0
                  ltac:(repeat split) ltac:(reflexivity) ltac:(reflexivity)
                  ltac:(vm_compute; reflexivity) ltac:(reflexivity))).
Defined.

Lemma walkTo_goes_out_witness :
  exists s',
    run render Sample.parse [Tick 10000; TimerFires 0]
      (walkTo render (VNum 84) (VNum 130) Sample.session) = Some s'
    /\ writes s'
       = [mkWrite 10000 (mkUnit 0 (fresh (dom Sample.commands)) 10000) 0
            (render (VObj [("op", VStr "WALK"); ("to", VStr "user-randy-100");
                           ("x", VNum 84); ("y", VNum 130); ("how", VNum 1)]) ++ terminator)
            true].
Proof.
  exact (proj2 (walkTo_goes_out render Sample.parse (VNum 84) (VNum 130) Sample.session 0
                  ltac:(repeat split) ltac:(reflexivity) ltac:(reflexivity)
                  ltac:(vm_compute; reflexivity) ltac:(exact I) ltac:(exact I))).
Defined.

Lemma discorporate_goes_out_witness :
  exists s',
    run render Sample.parse [Tick 500; TimerFires 0] (discorporate render Sample.session)
    = Some s'
    /\ writes s'
       = [mkWrite 500 (mkUnit 0 (fresh (dom Sample.commands)) 500) 0
            (render (VObj [("op", VStr "DISCORPORATE"); ("to", VStr "user-randy-100")])
             ++ terminator) true].
Proof.
  exact (proj2 (discorporate_goes_out render Sample.parse Sample.session 0
                  ltac:(repeat split) ltac:(reflexivity) ltac:(reflexivity)
                  ltac:(vm_compute; reflexivity))).
Defined.

